(** * builtin/gc.c: the housekeeping supervisor ([git gc], [git maintenance run])

    A shallow embedding of the scheduling layer of [builtin/gc.c]: the
    auto-trigger probes, the memory gate, the pid-file lock, the
    previous-failure gate and the maintenance task driver.  Child workers,
    the file system and the operating system are inputs of the model
    (records of observations); the C globals that the functions update are
    threaded explicitly.

    Part I holds the model, Part II the properties. *)

From Stdlib Require Import ZArith List String Ascii Bool Lia DecimalString.
From Stdlib Require DecimalN.
From Stdlib Require Import Permutation Sorted.
Import ListNotations.

Local Open Scope string_scope.
Local Open Scope list_scope.
Local Open Scope Z_scope.

(** * Part I: the model *)

(** ** C integers *)

Module CInt.

(** Two's complement wrap-around of a [w]-bit signed value. *)
Definition wrap_signed (w x : Z) : Z :=
  (x + 2 ^ (w - 1)) mod 2 ^ w - 2 ^ (w - 1).

Definition wrap_unsigned (w x : Z) : Z := x mod 2 ^ w.

Definition INT_MAX : Z := 2147483647.

(** [int] and [pid_t]; [off_t] (64 bits in git); [unsigned];
    [size_t], [unsigned long], [uint64_t] and [uintmax_t] (LP64). *)
Definition to_int : Z -> Z := wrap_signed 32.
Definition to_off_t : Z -> Z := wrap_signed 64.
Definition to_unsigned : Z -> Z := wrap_unsigned 32.
Definition to_u64 : Z -> Z := wrap_unsigned 64.

(** C division truncates toward zero. *)
Definition cdiv (a b : Z) : Z := Z.quot a b.

End CInt.

(** ** C strings

    A C string is a Rocq string: it holds no NUL, and [s[strlen s]] is the
    terminator. *)

Module CStr.

Definition code (c : ascii) : Z := Z.of_N (N_of_ascii c).

Definition tolower (c : ascii) : ascii :=
  if (65 <=? code c) && (code c <=? 90)
  then ascii_of_N (N_of_ascii c + 32) else c.

(** [strcasecmp]: 0 when the two strings agree up to ASCII case. *)
Fixpoint strcasecmp (a b : string) : Z :=
  match a, b with
  | EmptyString, EmptyString => 0
  | EmptyString, String cb _ => 0 - code (tolower cb)
  | String ca _, EmptyString => code (tolower ca)
  | String ca a', String cb b' =>
      if Ascii.eqb (tolower ca) (tolower cb) then strcasecmp a' b'
      else code (tolower ca) - code (tolower cb)
  end.

Fixpoint mem (c : ascii) (set : string) : bool :=
  match set with
  | EmptyString => false
  | String d set' => Ascii.eqb c d || mem c set'
  end.

(** [strspn s accept]: length of the longest prefix of [s] made of
    characters of [accept]. *)
Fixpoint strspn (s accept : string) : Z :=
  match s with
  | EmptyString => 0
  | String c s' => if mem c accept then 1 + strspn s' accept else 0
  end.

(** [s[i] == '\0'], for an index no larger than the length. *)
Definition nul_at (s : string) (i : Z) : bool :=
  match String.get (Z.to_nat i) s with
  | None => true
  | Some _ => false
  end.

Definition strlen (s : string) : Z := Z.of_nat (String.length s).

Definition slash : ascii := "/"%char.

Fixpoint drop_slashes (l : list ascii) : list ascii :=
  match l with
  | c :: l' => if Ascii.eqb c slash then drop_slashes l' else l
  | [] => []
  end.

Fixpoint take_component (l : list ascii) : list ascii :=
  match l with
  | c :: l' => if Ascii.eqb c slash then [] else c :: take_component l'
  | [] => []
  end.

(** [basename]: the last path component, trailing slashes dropped. *)
Definition basename (path : string) : string :=
  match list_ascii_of_string path with
  | [] => "."
  | cs =>
      match drop_slashes (rev cs) with
      | [] => "/"
      | r => string_of_list_ascii (rev (take_component r))
      end
  end.

(** ["%ju"] of a non-negative value (also ["%d"]). *)
Definition decimal (n : Z) : string :=
  NilZero.string_of_uint (N.to_uint (Z.to_N n)).

Definition nl : string := String (ascii_of_nat 10) EmptyString.

End CStr.

(** ** Pack descriptors and the repository

    [struct packed_git] with the fields gc.c reads, and what gc.c asks of
    [struct repository]: the pack list, directory listings under the git
    directory, and the length of a hexadecimal object name. *)

Record packed_git := mk_pack {
  pack_name : string;
  pack_size : Z;          (* off_t *)
  index_size : Z;         (* size_t *)
  pack_local : bool;
  pack_keep : bool;
  multi_pack_index : bool
}.

Record repository := mk_repo {
  (* opendir + readdir of a path below the git directory: [None] when
     opendir fails, else the d_name of every entry in readdir order *)
  repo_readdir : string -> option (list string);
  get_all_packs : list packed_git;
  hexsz : Z               (* the_hash_algo->hexsz *)
}.

(** ** The file-scope configuration of gc.c and the argv under construction *)

Record gc_state := mk_gc_state {
  gc_auto_threshold : Z;          (* int, default 6700 *)
  gc_auto_pack_limit : Z;         (* int, default 50 *)
  big_pack_threshold : Z;         (* unsigned long *)
  max_delta_cache_size : Z;       (* unsigned long *)
  prune_expire : option string;   (* NULL or the expiry expression *)
  repack : list string            (* struct argv_array repack *)
}.

Definition set_big_pack_threshold (v : Z) (st : gc_state) : gc_state :=
  mk_gc_state (gc_auto_threshold st) (gc_auto_pack_limit st) v
    (max_delta_cache_size st) (prune_expire st) (repack st).

Definition argv_array_push (arg : string) (st : gc_state) : gc_state :=
  mk_gc_state (gc_auto_threshold st) (gc_auto_pack_limit st)
    (big_pack_threshold st) (max_delta_cache_size st) (prune_expire st)
    (repack st ++ [arg]).

(** ** Loose-object density probe *)

(** Modelled from the spec: the macro [DIV_ROUND_UP] (it comes from
    git-compat-util.h, which is not among the sources); the spec gives the
    sampled threshold as ceil(gc.auto / 256). *)
Definition DIV_ROUND_UP (n d : Z) : Z := - ((- n) / d).

Definition hex_digits : string := "0123456789abcdef".

(** The [readdir] loop of [too_many_loose_objects]; [num_loose] is the count
    so far, the result is [needed]. *)
Fixpoint loose_scan (hexsz_loose auto_threshold : Z) (ents : list string)
    (num_loose : Z) : Z :=
  match ents with
  | [] => 0
  | d_name :: rest =>
      if negb (CStr.strspn d_name hex_digits =? hexsz_loose)
         || negb (CStr.nul_at d_name hexsz_loose)
      then loose_scan hexsz_loose auto_threshold rest num_loose
      else
        let num_loose' := CInt.to_int (num_loose + 1) in
        if num_loose' >? auto_threshold then 1
        else loose_scan hexsz_loose auto_threshold rest num_loose'
  end.

Definition too_many_loose_objects (r : repository) (st : gc_state) : Z :=
  let hexsz_loose := CInt.to_unsigned (hexsz r - 2) in
  match repo_readdir r "objects/17" with
  | None => 0
  | Some ents =>
      let auto_threshold := DIV_ROUND_UP (gc_auto_threshold st) 256 in
      loose_scan hexsz_loose auto_threshold ents 0
  end.

(** The specification's reading of the probe: an entry counts when its
    name is exactly [hexsz - 2] characters, all of them (lower-case)
    hexadecimal digits. *)
Fixpoint all_hex_digits (s : string) : bool :=
  match s with
  | EmptyString => true
  | String c s' => CStr.mem c hex_digits && all_hex_digits s'
  end.

Definition is_loose_object_name (len : Z) (d_name : string) : bool :=
  (CStr.strlen d_name =? len) && all_hex_digits d_name.

Definition loose_count (len : Z) (ents : list string) : Z :=
  Z.of_nat (List.length (filter (is_loose_object_name len) ents)).

(** ** Pack probes *)

(** One iteration of the loop of [find_base_packs]; the state is the string
    list [packs] and the pointer [base]. *)
Definition find_base_packs_step (limit : Z)
    (acc : list string * option packed_git) (p : packed_git)
    : list string * option packed_git :=
  let '(packs, base) := acc in
  if negb (pack_local p) then acc
  else if negb (limit =? 0) then
    if pack_size p >=? limit then (packs ++ [pack_name p], base) else acc
  else
    match base with
    | None => (packs, Some p)
    | Some b => if pack_size b <? pack_size p then (packs, Some p) else acc
    end.

(** Returns the list [packs] after the call and the pointer [base]. *)
Definition find_base_packs (r : repository) (packs : list string) (limit : Z)
    : list string * option packed_git :=
  let '(packs', base) :=
    fold_left (find_base_packs_step limit) (get_all_packs r) (packs, None) in
  match base with
  | Some b => (packs' ++ [pack_name b], base)
  | None => (packs', base)
  end.

(** The specification's "largest local pack". *)
Definition largest_local_pack (r : repository) (P : packed_git) : Prop :=
  In P (get_all_packs r) /\ pack_local P = true /\
  forall q, In q (get_all_packs r) -> pack_local q = true ->
            pack_size q <= pack_size P.

Definition count_repackable (packs : list packed_git) : Z :=
  fold_left
    (fun cnt p =>
       if negb (pack_local p) then cnt
       else if pack_keep p then cnt
       else cnt + 1)
    packs 0.

Definition too_many_packs (r : repository) (st : gc_state) : Z :=
  if gc_auto_pack_limit st <=? 0 then 0
  else if gc_auto_pack_limit st <? count_repackable (get_all_packs r)
       then 1 else 0.

(** ** Memory estimate *)

(** What [estimate_repack_memory] and [need_to_gc] take from the platform:
    the sizes of the structures ([sizeof]), the delta base cache limit, the
    object count estimate, the RAM probe (0 when the probe fails) and the
    exit status of the pre-auto-gc hook. *)
Record platform := mk_platform {
  sizeof_object_entry : Z;
  sizeof_blob : Z;
  sizeof_tree : Z;
  sizeof_object_ptr : Z;
  sizeof_revindex_entry : Z;
  delta_base_cache_limit : Z;
  approximate_object_count : Z;
  total_ram : Z;
  run_hook_pre_auto_gc : Z
}.

Definition estimate_repack_memory (pf : platform) (st : gc_state)
    (pack : option packed_git) : Z :=
  let nr_objects := approximate_object_count pf in
  match pack with
  | None => 0
  | Some pack =>
      if nr_objects =? 0 then 0
      else
        let os_cache := CInt.to_u64 (pack_size pack + index_size pack) in
        let heap := CInt.to_u64 (sizeof_object_entry pf * nr_objects) in
        let heap :=
          CInt.to_u64
            (heap + CInt.cdiv (CInt.to_u64 (sizeof_blob pf * nr_objects)) 2) in
        let heap :=
          CInt.to_u64
            (heap + CInt.cdiv (CInt.to_u64 (sizeof_tree pf * nr_objects)) 2) in
        let heap :=
          CInt.to_u64 (heap + CInt.to_u64 (sizeof_object_ptr pf * nr_objects)) in
        let heap :=
          CInt.to_u64
            (heap + CInt.to_u64 (sizeof_revindex_entry pf * nr_objects)) in
        let heap := CInt.to_u64 (heap + delta_base_cache_limit pf) in
        let heap := CInt.to_u64 (heap + max_delta_cache_size st) in
        CInt.to_u64 (os_cache + heap)
  end.

(** ** Repack options *)

Definition keep_one_pack (item : string) (st : gc_state) : gc_state :=
  argv_array_push ("--keep-pack=" ++ CStr.basename item)%string st.

Definition add_repack_all_option (keep_pack : option (list string))
    (st : gc_state) : gc_state :=
  let st1 :=
    match prune_expire st with
    | Some e =>
        if String.eqb e "now" then argv_array_push "-a" st
        else argv_array_push ("--unpack-unreachable=" ++ e)%string
               (argv_array_push "-A" st)
    | None => argv_array_push "-A" st
    end in
  match keep_pack with
  | Some items => fold_left (fun s item => keep_one_pack item s) items st1
  | None => st1
  end.

Definition add_repack_incremental_option (st : gc_state) : gc_state :=
  argv_array_push "--no-write-bitmap-index" st.

(** ** need_to_gc *)

(** The body of [if (too_many_packs(r))] up to the call of
    [add_repack_all_option]: the string list [keep_pack] and the globals. *)
Definition need_to_gc_keep_pack (r : repository) (pf : platform)
    (st : gc_state) : list string * gc_state :=
  if negb (big_pack_threshold st =? 0) then
    let '(keep_pack, _) := find_base_packs r [] (big_pack_threshold st) in
    if Z.of_nat (List.length keep_pack) >=? gc_auto_pack_limit st then
      let st' := set_big_pack_threshold 0 st in
      let '(keep_pack', _) := find_base_packs r [] 0 in
      (keep_pack', st')
    else (keep_pack, st)
  else
    let '(keep_pack, p) := find_base_packs r [] 0 in
    let mem_have := total_ram pf in
    let mem_want := estimate_repack_memory pf st p in
    if (mem_have =? 0) || (mem_want <? CInt.cdiv mem_have 2)
    then ([], st)
    else (keep_pack, st).

Definition need_to_gc (r : repository) (pf : platform) (st : gc_state)
    : Z * gc_state :=
  if gc_auto_threshold st <=? 0 then (0, st)
  else
    let queued :=
      if negb (too_many_packs r st =? 0) then
        let '(keep_pack, st1) := need_to_gc_keep_pack r pf st in
        Some (add_repack_all_option (Some keep_pack) st1)
      else if negb (too_many_loose_objects r st =? 0) then
        Some (add_repack_incremental_option st)
      else None in
    match queued with
    | None => (0, st)
    | Some st' =>
        if negb (run_hook_pre_auto_gc pf =? 0) then (0, st') else (1, st')
    end.

(** ** The pid-file lock *)

Definition EPERM : Z := 1.
Definition ENOENT : Z := 2.
Definition ESRCH : Z := 3.
Definition EIO : Z := 5.

(** What [fopen(pidfile_path, "r")] and [fstat] give for an existing
    gc.pid: its mtime ([None] when fstat fails) and its bytes. *)
Record pid_file := mk_pid_file {
  pid_st_mtime : option Z;
  pid_content : string
}.

Record lock_env := mk_lock_env {
  is_tempfile_active_pidfile : bool;  (* is_tempfile_active(pidfile) *)
  xgethostname : option string;       (* [None] when it fails *)
  HOST_NAME_MAX : Z;
  lock_file_free : bool;    (* hold_lock_file_for_update can take gc.pid.lock *)
  fopen_pidfile : option pid_file;    (* [None]: fopen returns NULL *)
  time_now : Z;                       (* time(NULL) *)
  kill0 : Z -> option Z;    (* kill(pid, 0): [None] on success, else errno *)
  getpid : Z
}.

Definition isspace (c : ascii) : bool :=
  let n := CStr.code c in (n =? 32) || ((9 <=? n) && (n <=? 13)).

Definition digit_value (c : ascii) : option Z :=
  let n := CStr.code c in
  if (48 <=? n) && (n <=? 57) then Some (n - 48) else None.

Fixpoint skip_space (l : list ascii) : list ascii :=
  match l with
  | c :: l' => if isspace c then skip_space l' else l
  | [] => []
  end.

(** The digits of a ["%ju"] conversion: value so far, number of digits. *)
Fixpoint scan_digits (l : list ascii) (acc : Z) (n : nat)
    : Z * nat * list ascii :=
  match l with
  | c :: l' =>
      match digit_value c with
      | Some d => scan_digits l' (10 * acc + d) (S n)
      | None => (acc, n, l)
      end
  | [] => (acc, n, [])
  end.

Definition UINTMAX_MAX : Z := 2 ^ 64 - 1.

(** ["%ju"]: blanks, an optional sign, at least one digit; the value as
    [strtoumax] gives it. *)
Definition scan_uintmax (l : list ascii) : option (Z * list ascii) :=
  let l := skip_space l in
  let '(neg, l) :=
    match l with
    | c :: l' =>
        if Ascii.eqb c "-"%char then (true, l')
        else if Ascii.eqb c "+"%char then (false, l')
        else (false, l)
    | [] => (false, l)
    end in
  let '(v, n, rest) := scan_digits l 0 O in
  match n with
  | O => None
  | S _ =>
      let v := if v >? UINTMAX_MAX then UINTMAX_MAX else v in
      Some (if neg then CInt.to_u64 (- v) else v, rest)
  end.

Fixpoint take_word (width : nat) (l : list ascii) : list ascii :=
  match width, l with
  | S w, c :: l' => if isspace c then [] else c :: take_word w l'
  | _, _ => []
  end.

(** [fscanf(fp, "%ju %<HOST_NAME_MAX>s", &pid, locking_host) == 2], with the
    two values read. *)
Definition fscanf_pid_host (host_name_max : Z) (content : string)
    : option (Z * string) :=
  match scan_uintmax (list_ascii_of_string content) with
  | None => None
  | Some (pid, rest) =>
      match take_word (Z.to_nat host_name_max) (skip_space rest) with
      | [] => None
      | w => Some (pid, string_of_list_ascii w)
      end
  end.

Inductive lock_result :=
| LockDied                            (* die() in hold_lock_file_for_update *)
| LockAlready                         (* NULL: the pid file is ours already *)
| LockHeld (host : string) (pid : Z)  (* the holder's host, and *ret_pid *)
| LockAcquired (written : string).    (* NULL: gc.pid now holds [written] *)

Definition my_host (e : lock_env) : string :=
  match xgethostname e with
  | Some h => h
  | None => "unknown"
  end.

(** The value of [should_exit], with [pid] and [locking_host]. *)
Definition should_exit (e : lock_env) : option (Z * string) :=
  match fopen_pidfile e with
  | None => None
  | Some f =>
      match pid_st_mtime f with
      | None => None
      | Some st_mtime =>
          if time_now e - st_mtime <=? 12 * 3600 then
            match fscanf_pid_host (HOST_NAME_MAX e) (pid_content f) with
            | None => None
            | Some (pid, locking_host) =>
                if negb (String.eqb locking_host (my_host e)) then
                  Some (pid, locking_host)
                else
                  match kill0 e (CInt.to_int pid) with
                  | None => Some (pid, locking_host)
                  | Some errno =>
                      if errno =? EPERM then Some (pid, locking_host)
                      else None
                  end
            end
          else None
      end
  end.

Definition lock_repo_for_gc (force : bool) (e : lock_env) : lock_result :=
  if is_tempfile_active_pidfile e then LockAlready
  else if negb (lock_file_free e) then LockDied
  else
    let acquire :=
      LockAcquired (CStr.decimal (getpid e) ++ " " ++ my_host e)%string in
    if negb force then
      match should_exit e with
      | Some (pid, locking_host) => LockHeld locking_host (CInt.to_int pid)
      | None => acquire
      end
    else acquire.

(** The specification's reading of "held by another live run": the pid
    file parses as "<pid> <host>", its mtime is within 12 hours, and the host
    is another one or the process answers [kill(pid, 0)] (with success or
    with EPERM). *)
Definition held_by_live_run (e : lock_env) (host : string) (pid : Z) : Prop :=
  exists f st_mtime,
    fopen_pidfile e = Some f /\
    pid_st_mtime f = Some st_mtime /\
    fscanf_pid_host (HOST_NAME_MAX e) (pid_content f) = Some (pid, host) /\
    time_now e - st_mtime <= 12 * 3600 /\
    (host <> my_host e \/
     kill0 e (CInt.to_int pid) = None \/
     kill0 e (CInt.to_int pid) = Some EPERM).

(** A pid file written by process 4242 on "buildhost" an hour ago; the
    caller is process 5000 on [host_now]; [alive] answers [kill(4242, 0)]. *)
Definition lock_scene (host_now : string) (age : Z) (alive : option Z)
    : lock_env :=
  mk_lock_env false (Some host_now) 64 true
    (Some (mk_pid_file (Some (1700000000 - age)) "4242 buildhost"))
    1700000000
    (fun pid => if pid =? 4242 then alive else Some ESRCH)
    5000.

(** ** The previous-failure gate *)

Inductive stat_result :=
| StatOk (st_mtime : Z)
| StatFail (errno : Z).

Inductive read_result :=
| ReadOk (content : string)
| ReadFail (errno : Z).

Record gc_log := mk_gc_log {
  gc_log_path : string;
  gc_log_stat : stat_result;          (* stat(gc_log_path) *)
  gc_log_read : read_result           (* strbuf_read_file *)
}.

Inductive gc_event :=
| Message (text : string)             (* fprintf(stderr, ...) *)
| Warning (text : string)
| Error (text : string)
| Work (what : string).               (* a lock taken, a child run, ... *)

Definition last_gc_warning (path content : string) : string :=
  ("The last gc run reported the following. Please correct the root cause"
   ++ CStr.nl ++ "and remove " ++ path ++ "." ++ CStr.nl
   ++ "Automatic cleanup will not be performed until the file is removed."
   ++ CStr.nl ++ CStr.nl ++ content)%string.

(** Modelled from the spec: [error_errno] (usage.c is not among the
    sources) prints the message and returns -1, the value the comment above
    [report_last_gc_error] gives for a failure to read gc.log, which the spec
    turns into exit status 128. *)
Definition error_errno (text : string) : Z * list gc_event :=
  (-1, [Error text]).

Definition report_last_gc_error (log : gc_log) (gc_log_expire_time : Z)
    : Z * list gc_event :=
  match gc_log_stat log with
  | StatFail errno =>
      if errno =? ENOENT then (0, [])
      else error_errno ("cannot stat '" ++ gc_log_path log ++ "'")%string
  | StatOk st_mtime =>
      (* time_t against timestamp_t (uintmax_t): compared as unsigned *)
      if CInt.to_u64 st_mtime <? gc_log_expire_time then (0, [])
      else
        match gc_log_read log with
        | ReadFail _ =>
            error_errno ("cannot read '" ++ gc_log_path log ++ "'")%string
        | ReadOk content =>
            if CStr.strlen content >? 0
            then (1, [Warning (last_gc_warning (gc_log_path log) content)])
            else (0, [])
        end
  end.

(** ** cmd_gc under --auto, up to the first lock

    The block [if (auto_gc) { ... }] of [cmd_gc].  [rest] stands for all that
    follows the previous-failure gate when detaching (from the first
    [lock_repo_for_gc] on) or the block when not detaching: it gives the
    exit status of the command and what was done. *)

(** The two lines printed before the gate (the quotation marks around
    "git help gc" are written as brackets). *)
Definition auto_messages (quiet detach_auto : bool) : list gc_event :=
  if quiet then []
  else
    [Message
       (if detach_auto
        then "Auto packing the repository in background for optimum performance."
        else "Auto packing the repository for optimum performance.");
     Message "See [git help gc] for manual housekeeping."].

Definition cmd_gc_auto (quiet detach_auto : bool)
    (r : repository) (pf : platform) (st : gc_state)
    (log : gc_log) (gc_log_expire_time : Z)
    (rest : gc_state -> Z * list gc_event) : Z * list gc_event :=
  let '(need, st') := need_to_gc r pf st in
  if need =? 0 then (0, [])
  else
    let msgs := auto_messages quiet detach_auto in
    if detach_auto then
      let '(ret, diag) := report_last_gc_error log gc_log_expire_time in
      if ret <? 0 then (128, msgs ++ diag)
      else if ret =? 1 then (0, msgs ++ diag)
      else
        let '(status, done) := rest st' in
        (status, msgs ++ diag ++ done)
    else
      let '(status, done) := rest st' in
      (status, msgs ++ done).

(** ** Maintenance tasks *)

Definition MAX_NUM_TASKS : Z := 5.

(** The executors [fn] and the auto conditions a task record points to. *)
Inductive maintenance_task_fn :=
| fn_fetch | fn_loose_objects | fn_pack_files | fn_gc | fn_commit_graph.

Inductive maintenance_auto_fn :=
| auto_loose_objects | auto_pack_files | auto_need_to_gc | auto_commit_graph.

Record maintenance_task := mk_task {
  name : string;
  fn : maintenance_task_fn;
  auto_condition : option maintenance_auto_fn;   (* NULL or a function *)
  task_order : Z;
  enabled : bool;
  selected : bool
}.

Record maintenance_opts := mk_opts {
  auto_flag : Z;
  quiet : Z;
  tasks_selected : Z
}.

(** The observations a maintenance run makes: the world [W] stands for the
    repository and the network, between child processes. *)
Record maintenance_env (W : Type) := mk_maintenance_env {
  worktree : string;
  (* for_each_remote(fill_each_remote, &remotes): status, names appended *)
  for_each_remote : W -> Z * list string;
  (* run_command_v_opt(argv, RUN_GIT_CMD) *)
  run_command_v_opt : list string -> W -> Z * W;
  (* the executors other than fetch *)
  run_task_fn : maintenance_task_fn -> W -> Z * W;
  (* the auto conditions *)
  run_auto_condition : maintenance_auto_fn -> W -> Z * W;
  (* hold_lock_file_for_update on <objects>/maintenance is not negative *)
  maintenance_lock_free : W -> bool;
  (* repo_config_get_bool: [None] when the key is not set *)
  repo_config_get_bool : string -> option bool;
  isatty_stderr : bool;
  (* the sizes of a pointer and of struct hashmap_entry in the build
     (hashmap.h is not among the sources) *)
  sizeof_pointer : Z;
  sizeof_hashmap_entry : Z;
  (* the [int] that lies [n] bytes behind the first byte of the global
     [tasks], in the memory that follows the array *)
  peek_int : Z -> Z
}.

Arguments worktree {W}.
Arguments for_each_remote {W}.
Arguments run_command_v_opt {W}.
Arguments run_task_fn {W}.
Arguments run_auto_condition {W}.
Arguments maintenance_lock_free {W}.
Arguments repo_config_get_bool {W}.
Arguments isatty_stderr {W}.
Arguments sizeof_pointer {W}.
Arguments sizeof_hashmap_entry {W}.
Arguments peek_int {W}.

(** [offsetof(struct maintenance_task, task_order)]: the member follows
    [ent], [name], [fn] and [auto_condition]. *)
Definition offsetof_task_order {W} (env : maintenance_env W) : Z :=
  sizeof_hashmap_entry env + 3 * sizeof_pointer env.

(** What [qsort] hands to its comparator: the address of an element of the
    array, here in bytes from the first byte of the array, together with
    the element that lies there. *)
Definition element_pointer (A : Type) : Type := (Z * A)%type.

(** Where [a->task_order] is read, [a] being [a_] cast to a pointer to a
    task record. *)
Definition task_order_address {W} (env : maintenance_env W)
    (a_ : element_pointer maintenance_task) : Z :=
  fst a_ + offsetof_task_order env.

(** [compare_tasks_by_selection]: [b->task_order - a->task_order], where
    [a] and [b] are [a_] and [b_] cast to pointers to task records.
    [tasks] is an array of pointers to task records, so that [a_] and [b_]
    are the addresses of two slots of pointers: the cast does not follow
    the pointer in the slot, and [task_order] is read at its offset from
    the address of the slot itself. *)
Definition compare_tasks_by_selection {W} (env : maintenance_env W)
    (a_ b_ : element_pointer maintenance_task) : Z :=
  CInt.to_int (peek_int env (task_order_address env b_)
               - peek_int env (task_order_address env a_)).

(** Modelled from the spec: the macro [QSORT(base, n, compar)]
    (git-compat-util.h is not among the sources), a call of [qsort] with the
    size of one element of [base], which the spec describes as a stable
    sort: the elements are sorted in place from the last one back,
    each element moving up over its neighbour as long as [compar], called
    on the addresses of the two, is positive. *)
Fixpoint qsort_insert {A} (compar : element_pointer A -> element_pointer A -> Z)
    (size : Z) (at_ : Z) (x : A) (l : list A) : list A :=
  match l with
  | [] => [x]
  | y :: l' =>
      if compar (at_, x) (at_ + size, y) <=? 0 then x :: l
      else y :: qsort_insert compar size (at_ + size) x l'
  end.

Fixpoint qsort {A} (at_ : Z) (base : list A) (size : Z)
    (compar : element_pointer A -> element_pointer A -> Z) : list A :=
  match base with
  | [] => []
  | x :: rest =>
      qsort_insert compar size at_ x (qsort (at_ + size) rest size compar)
  end.

Definition QSORT {A} (size : Z) (base : list A)
    (compar : element_pointer A -> element_pointer A -> Z) : list A :=
  qsort 0 base size compar.

Section Maintenance.

Variable W : Type.
Variable env : maintenance_env W.

Definition fetch_remote (opts : maintenance_opts) (remote : string) (w : W)
    : Z * W * list string :=
  let cmd :=
    ["-C"; worktree env; "fetch"; remote; "--prune"; "--no-tags"; "--refmap=";
     ("+refs/heads/*:refs/hidden/" ++ remote ++ "/*")%string]
    ++ (if negb (quiet opts =? 0) then ["--quiet"] else []) in
  let '(result, w') := run_command_v_opt env cmd w in
  (result, w', cmd).

(** The loop over [remotes.items]: the world after it, and the argument
    vectors of the children in the order they ran. *)
Fixpoint fetch_each (opts : maintenance_opts) (remotes : list string) (w : W)
    : W * list (list string) :=
  match remotes with
  | [] => (w, [])
  | item :: rest =>
      let '(_, w', cmd) := fetch_remote opts item w in
      let '(w'', cmds) := fetch_each opts rest w' in
      (w'', cmd :: cmds)
  end.

Definition maintenance_task_fetch (opts : maintenance_opts) (w : W)
    : Z * W * list (list string) :=
  let '(failed, remotes) := for_each_remote env w in
  if negb (failed =? 0) then (1, w, [])
  else
    let '(w', cmds) := fetch_each opts remotes w in
    (0, w', cmds).

(** [tasks[i]->fn(r)] *)
Definition call_task_fn (opts : maintenance_opts) (f : maintenance_task_fn)
    (w : W) : Z * W :=
  match f with
  | fn_fetch => let '(result, w', _) := maintenance_task_fetch opts w in
                (result, w')
  | _ => run_task_fn env f w
  end.

(** The loop of [maintenance_run] from index [i] on, [result] being 0: the
    result, the world, and the names of the tasks whose [fn] was called, in
    call order. *)
Fixpoint run_tasks (opts : maintenance_opts) (tasks : list maintenance_task)
    (w : W) : Z * W * list string :=
  match tasks with
  | [] => (0, w, [])
  | t :: rest =>
      if negb (tasks_selected opts =? 0) && negb (selected t)
      then run_tasks opts rest w
      else if (tasks_selected opts =? 0) && negb (enabled t)
      then run_tasks opts rest w
      else
        let '(skip, w1) :=
          if negb (auto_flag opts =? 0) then
            match auto_condition t with
            | None => (true, w)
            | Some c =>
                let '(holds, w') := run_auto_condition env c w in
                (holds =? 0, w')
            end
          else (false, w) in
        if skip then run_tasks opts rest w1
        else
          let '(result, w2) := call_task_fn opts (fn t) w1 in
          if negb (result =? 0) then (result, w2, [name t])
          else
            let '(result', w3, ran) := run_tasks opts rest w2 in
            (result', w3, name t :: ran)
  end.

Definition maintenance_run (opts : maintenance_opts)
    (tasks : list maintenance_task) (w : W) : Z * W * list string :=
  if negb (maintenance_lock_free env w) then (0, w, [])
  else
    let tasks' :=
      if negb (tasks_selected opts =? 0)
      then QSORT (sizeof_pointer env) tasks (compare_tasks_by_selection env)
      else tasks in
    run_tasks opts tasks' w.

Definition new_task (n : string) (f : maintenance_task_fn)
    (c : option maintenance_auto_fn) (on : bool) : maintenance_task :=
  mk_task n f c 0 on false.

Definition set_enabled (v : bool) (t : maintenance_task) : maintenance_task :=
  mk_task (name t) (fn t) (auto_condition t) (task_order t) v (selected t).

Definition initialize_tasks : list maintenance_task :=
  map
    (fun t =>
       match repo_config_get_bool env
               ("maintenance." ++ name t ++ ".enabled")%string with
       | Some config_value => set_enabled config_value t
       | None => t
       end)
    [new_task "fetch" fn_fetch None false;
     new_task "loose-objects" fn_loose_objects (Some auto_loose_objects) false;
     new_task "pack-files" fn_pack_files (Some auto_pack_files) false;
     new_task "gc" fn_gc (Some auto_need_to_gc) true;
     new_task "commit-graph" fn_commit_graph (Some auto_commit_graph) false].

End Maintenance.

Arguments fetch_remote {W}.
Arguments fetch_each {W}.
Arguments maintenance_task_fetch {W}.
Arguments call_task_fn {W}.
Arguments run_tasks {W}.
Arguments maintenance_run {W}.
Arguments initialize_tasks {W}.

(** Modelled from the spec: [hashmap_get_entry(&task_map, &key, ent, NULL)]
    (hashmap.h is not among the sources); the spec has the lookup by
    case-insensitive name, and [task_entry_cmp] compares with [strcasecmp]:
    the index in [tasks] of the record whose name is [arg] up to case. *)
Fixpoint hashmap_get_entry (tasks : list maintenance_task) (arg : string)
    : option nat :=
  match tasks with
  | [] => None
  | t :: rest =>
      if CStr.strcasecmp (name t) arg =? 0 then Some O
      else option_map S (hashmap_get_entry rest arg)
  end.

Definition select_task (order : Z) (t : maintenance_task) : maintenance_task :=
  mk_task (name t) (fn t) (auto_condition t) order (enabled t) true.

Fixpoint update_task (i : nat) (f : maintenance_task -> maintenance_task)
    (tasks : list maintenance_task) : list maintenance_task :=
  match tasks, i with
  | [], _ => []
  | t :: rest, O => f t :: rest
  | t :: rest, S i' => t :: update_task i' f rest
  end.

Definition set_tasks_selected (v : Z) (o : maintenance_opts)
    : maintenance_opts :=
  mk_opts (auto_flag o) (quiet o) v.

(** [task_option_parse]: the return value, [opts] and the task records
    afterwards.  [arg] is [None] for a NULL argument. *)
Definition task_option_parse (arg : option string)
    (opts : maintenance_opts) (tasks : list maintenance_task)
    : Z * maintenance_opts * list maintenance_task :=
  match arg with
  | None => (1, opts, tasks)
  | Some arg =>
      if CStr.strlen arg =? 0 then (1, opts, tasks)
      else
        let opts' :=
          set_tasks_selected (CInt.to_int (tasks_selected opts + 1)) opts in
        match hashmap_get_entry tasks arg with
        | None => (1, opts', tasks)
        | Some i =>
            match nth_error tasks i with
            | None => (1, opts', tasks)
            | Some task =>
                if selected task then (1, opts', tasks)
                else
                  (0, opts',
                   update_task i (select_task (tasks_selected opts')) tasks)
            end
        end
  end.

(** The command line of [git maintenance], option by option as
    [parse_options] meets them. *)
Inductive maintenance_arg :=
| OptAuto (on : bool)                 (* --auto, --no-auto *)
| OptQuiet (on : bool)                (* --quiet, --no-quiet *)
| OptTask (arg : string).             (* --task=<arg> *)

Inductive maintenance_result (W : Type) :=
| Usage                               (* usage_with_options: exit 129 *)
| Ran (status : Z) (w : W) (ran : list string).

Arguments Usage {W}.
Arguments Ran {W}.

(** Modelled from the spec: [parse_options] (parse-options.c is not among
    the sources) over the options of [builtin_maintenance_options]; an
    unknown or duplicate task name is a usage error: [None] when the
    callback of --task fails, which ends the command with the usage
    message. *)
Fixpoint parse_options (args : list maintenance_arg)
    (opts : maintenance_opts) (tasks : list maintenance_task)
    : option (maintenance_opts * list maintenance_task) :=
  match args with
  | [] => Some (opts, tasks)
  | OptAuto on :: rest =>
      parse_options rest
        (mk_opts (if on then 1 else 0) (quiet opts) (tasks_selected opts))
        tasks
  | OptQuiet on :: rest =>
      parse_options rest
        (mk_opts (auto_flag opts) (if on then 1 else 0) (tasks_selected opts))
        tasks
  | OptTask arg :: rest =>
      let '(failed, opts', tasks') :=
        task_option_parse (Some arg) opts tasks in
      if negb (failed =? 0) then None
      else parse_options rest opts' tasks'
  end.

(** [cmd_maintenance]: [args] are the options, [positional] is what
    [parse_options] leaves in [argv]. *)
Definition cmd_maintenance {W} (env : maintenance_env W)
    (args : list maintenance_arg) (positional : list string) (w : W)
    : maintenance_result W :=
  let opts := mk_opts 0 (if isatty_stderr env then 0 else 1) 0 in
  let tasks := initialize_tasks env in
  match parse_options args opts tasks with
  | None => Usage
  | Some (opts', tasks') =>
      match positional with
      | [cmd] =>
          if String.eqb cmd "run" then
            let '(status, w', ran) := maintenance_run env opts' tasks' w in
            Ran status w' ran
          else Usage
      | _ => Usage
      end
  end.

(** ** get_auto_pack_size *)

Definition TWO_GIGABYTES : Z := 2147483647.

(** One iteration of the loop over [get_all_packs]: the state is
  [(max_size, second_largest_size)]. *)
Definition auto_pack_size_step (st : Z * Z) (p : packed_git) : Z * Z :=
let '(max_size, second_largest_size) := st in
if pack_size p >? max_size then (pack_size p, max_size)
else if pack_size p >? second_largest_size then (max_size, pack_size p)
else (max_size, second_largest_size).

Definition get_auto_pack_size (packs : list packed_git) : Z :=
let '(_, second_largest_size) :=
  fold_left auto_pack_size_step packs (0, 0) in
let result_size := CInt.to_off_t (second_largest_size + 1) in
if result_size >? TWO_GIGABYTES then TWO_GIGABYTES else result_size.

(** The specification's reading: order the sizes from largest to smallest
  and take the second one (0 when there are fewer than two packs). *)
Fixpoint insert_desc (x : Z) (l : list Z) : list Z :=
match l with
| [] => [x]
| y :: l' => if y <=? x then x :: l else y :: insert_desc x l'
end.

Definition sort_desc (l : list Z) : list Z := fold_right insert_desc [] l.

Definition second_largest (sizes : list Z) : Z := nth 1 (sort_desc sizes) 0.

Definition valid_pack_size (p : packed_git) : Prop :=
0 <= pack_size p < 2 ^ 63 - 1.

Definition GiB : Z := 1024 * 1024 * 1024.
Definition MiB : Z := 1024 * 1024.

Definition pack_of_size (n : string) (sz : Z) : packed_git :=
mk_pack n sz 0 true false false.

Definition largest (sizes : list Z) : Z := nth 0 (sort_desc sizes) 0.

Definition ge_rel (a b : Z) : Prop := b <= a.

(** ** Scenarios and the vocabulary of the statements

    Concrete repositories, platforms and command environments on which the
    model is run, and the notions the statements of Part II are written
    with. *)

Definition hex_digit_of (n : nat) : ascii :=
  match String.get (n mod 16) hex_digits with
  | Some c => c
  | None => "0"%char
  end.

(** A loose-object file name in a fan-out bucket of a SHA-1 repository: 38
    hexadecimal digits. *)
Definition loose_name (n : nat) : string :=
  ("00000000000000000000000000000000000"
   ++ String (hex_digit_of (n / 256))
        (String (hex_digit_of (n / 16))
           (String (hex_digit_of n) EmptyString)))%string.

Definition loose_names (count : nat) : list string :=
  map loose_name (seq 0 count).

Definition default_gc_state : gc_state :=
  mk_gc_state 6700 50 0 (256 * 1024 * 1024) (Some "2.weeks.ago")
    ["repack"; "-d"; "-l"].

Definition lp64 (nr_objects ram hook : Z) : platform :=
  mk_platform 80 24 32 8 16 (96 * 1024 * 1024) nr_objects ram hook.

(** A SHA-1 repository whose bucket 17 lists [ents] and which has no pack. *)
Definition repo_with_bucket_17 (ents : list string) : repository :=
  mk_repo
    (fun path => if String.eqb path "objects/17" then Some ents else None)
    [] 40.

(** 260 loose objects in bucket 17, no pack. *)
Definition repo_260_loose : repository :=
  mk_repo
    (fun path =>
       if String.eqb path "objects/17"
       then Some ("." :: ".." :: loose_names 260)
       else None)
    [] 40.

(** Bucket 17 missing, 260 loose objects in every other bucket asked for. *)
Definition repo_no_bucket_17 : repository :=
  mk_repo
    (fun path =>
       if String.eqb path "objects/17" then None
       else Some ("." :: ".." :: loose_names 260))
    [] 40.

(** 80 local packs of 1 MiB, 2 MiB, ..., 80 MiB. *)
Definition pack_number (n : nat) : packed_git :=
  mk_pack ("objects/pack/pack-" ++ loose_name n ++ ".pack")%string
    (Z.of_nat (S n) * 1024 * 1024) (Z.of_nat (S n) * 1024) true false false.

Definition repo_80_packs : repository :=
  mk_repo (fun _ => None) (map pack_number (seq 0 80)) 40.

(** gc.log holding "fatal: repack failed", last written an hour before
    [now = 1700000000]. *)
Definition gc_log_failed_an_hour_ago : gc_log :=
  mk_gc_log ".git/gc.log" (StatOk (1700000000 - 3600))
    (ReadOk "fatal: repack failed").

(** What selection and sorting leave alone in a task record. *)
Definition task_identity (t : maintenance_task)
    : string * option maintenance_auto_fn :=
  (name t, auto_condition t).

(** The five task records after [initialize_tasks], [e0] ... [e4] being
    the enabled bits the configuration leaves. *)
Definition registered (e0 e1 e2 e3 e4 : bool) : list maintenance_task :=
  [mk_task "fetch" fn_fetch None 0 e0 false;
   mk_task "loose-objects" fn_loose_objects (Some auto_loose_objects) 0 e1 false;
   mk_task "pack-files" fn_pack_files (Some auto_pack_files) 0 e2 false;
   mk_task "gc" fn_gc (Some auto_need_to_gc) 0 e3 false;
   mk_task "commit-graph" fn_commit_graph (Some auto_commit_graph) 0 e4 false].

(** gc.log holding "fatal: repack failed", last written one second before
    the epoch ([touch -d @-1]). *)
Definition gc_log_before_epoch : gc_log :=
  mk_gc_log ".git/gc.log" (StatOk (-1)) (ReadOk "fatal: repack failed").

(** gc.log cannot be examined: [stat] fails with EIO. *)
Definition gc_log_unreadable : gc_log :=
  mk_gc_log ".git/gc.log" (StatFail EIO) (ReadFail EIO).

(** The names under which [initialize_tasks] registers the tasks. *)
Definition task_names : list string :=
  ["fetch"; "loose-objects"; "pack-files"; "gc"; "commit-graph"].

(** The 1-based place of [n] in a selection, 0 when it is not selected. *)
Fixpoint ordinal (n : string) (names : list string) : Z :=
  match names with
  | [] => 0
  | m :: rest =>
      if String.eqb n m then 1
      else let k := ordinal n rest in if k =? 0 then 0 else k + 1
  end.

(** The task records after the flags [--task] of [names] have been parsed,
    [c] flags having been counted before them. *)
Definition mark_from (c : Z) (names : list string) (t : maintenance_task)
    : maintenance_task :=
  let k := ordinal (name t) names in
  if k =? 0 then t else select_task (c + k) t.

(** Whether [n] is among the names given with --task. *)
Definition chosen (names : list string) (n : string) : bool :=
  existsb (String.eqb n) names.

(** The names of the five tasks, slot by slot, as the sort of
    [maintenance_run] leaves the array. *)
Definition slot_order {W} (env : maintenance_env W) : list string :=
  map name
    (QSORT (sizeof_pointer env) (initialize_tasks env)
       (compare_tasks_by_selection env)).

(** The argument vector of the fetch child for one remote. *)
Definition fetch_argv {W} (env : maintenance_env W) (opts : maintenance_opts)
    (remote : string) : list string :=
  ["-C"; worktree env; "fetch"; remote; "--prune"; "--no-tags"; "--refmap=";
   ("+refs/heads/*:refs/hidden/" ++ remote ++ "/*")%string]
  ++ (if negb (quiet opts =? 0) then ["--quiet"] else []).

(** Whether --auto is in force after the options [args], [init] being the
    value before them. *)
Definition auto_requested (args : list maintenance_arg) (init : bool) : bool :=
  fold_left
    (fun b a => match a with OptAuto on => on | _ => b end) args init.

(** The memory behind [tasks] in an LP64 build in which [num_tasks], which
    is 5, follows the array and zeroes follow it. *)
Definition behind_tasks_lp64 (n : Z) : Z := if n =? 40 then 5 else 0.

(** A run where every child fails with status 1 (network down), every
    other executor succeeds and every auto condition holds; the world is the
    number of children run so far. *)
Definition offline_env : maintenance_env nat :=
  mk_maintenance_env nat "/srv/repo"
    (fun _ => (0, ["origin"; "upstream"]))
    (fun _ n => (1, S n))
    (fun _ n => (0, n))
    (fun _ n => (1, n))
    (fun _ => true)
    (fun _ => None)
    true
    8 16 behind_tasks_lp64.

(** The same in a build where the int that lies [n] bytes behind the
    first byte of [tasks] is [n]. *)
Definition ascending_env : maintenance_env nat :=
  mk_maintenance_env nat "/srv/repo"
    (fun _ => (0, ["origin"; "upstream"]))
    (fun _ n => (1, S n))
    (fun _ n => (0, n))
    (fun _ n => (1, n))
    (fun _ => true)
    (fun _ => None)
    true
    8 16 (fun n => n).

(** The same with all five tasks enabled in the configuration. *)
Definition all_enabled_env : maintenance_env nat :=
  mk_maintenance_env nat "/srv/repo"
    (fun _ => (0, ["origin"; "upstream"]))
    (fun _ n => (1, S n))
    (fun _ n => (0, n))
    (fun _ n => (1, n))
    (fun _ => true)
    (fun _ => Some true)
    true
    8 16 behind_tasks_lp64.

(** An environment in which the remotes cannot be enumerated. *)
Definition no_remotes_env : maintenance_env nat :=
  mk_maintenance_env nat "/srv/repo"
    (fun _ => (-1, []))
    (fun _ n => (0, S n))
    (fun _ n => (0, n))
    (fun _ n => (1, n))
    (fun _ => true)
    (fun _ => None)
    true
    8 16 behind_tasks_lp64.

(** ** Vocabulary of the further properties *)

(** The local packs that reach the size [limit]; the local packs a repack
    would rewrite. *)
Definition reaches_limit (limit : Z) (p : packed_git) : bool :=
  pack_local p && (pack_size p >=? limit).

Definition repackable (p : packed_git) : bool :=
  pack_local p && negb (pack_keep p).

Definition keep_pack_arg (item : string) : string :=
  ("--keep-pack=" ++ CStr.basename item)%string.

(** 80 local packs as in [repo_80_packs], with gc.bigPackThreshold at
    70 MiB: eleven packs reach it. *)
Definition threshold_70MiB : gc_state :=
  mk_gc_state 6700 50 (70 * 1024 * 1024) (256 * 1024 * 1024)
    (Some "2.weeks.ago") ["repack"; "-d"; "-l"].

(** The same with gc.autoPackLimit at 5: the eleven packs are too many. *)
Definition threshold_70MiB_limit_5 : gc_state :=
  mk_gc_state 6700 5 (70 * 1024 * 1024) (256 * 1024 * 1024)
    (Some "2.weeks.ago") ["repack"; "-d"; "-l"].

(** The settings that [need_to_gc] only reads. *)
Definition same_settings (st st' : gc_state) : Prop :=
  gc_auto_threshold st' = gc_auto_threshold st /\
  gc_auto_pack_limit st' = gc_auto_pack_limit st /\
  max_delta_cache_size st' = max_delta_cache_size st /\
  prune_expire st' = prune_expire st.

(** A host name that ["%<HOST_NAME_MAX>s"] reads back whole: not empty, no
    blank in it, no longer than the field. *)
Definition hostname_ok (host_name_max : Z) (host : string) : bool :=
  negb (String.eqb host "")
  && forallb (fun c => negb (isspace c)) (list_ascii_of_string host)
  && (CStr.strlen host <=? host_name_max).

(** A caller with process id [pid] on [host] that finds no pid file. *)
Definition first_gc (host : string) (pid : Z) : lock_env :=
  mk_lock_env false (Some host) 64 true None 1700000000
    (fun _ => Some ESRCH) pid.

(** A later caller on [host] that finds [record] in the pid file, written
    [age] seconds before; [alive] answers [kill(pid, 0)] for every pid. *)
Definition second_gc (host record : string) (age : Z) (alive : option Z)
    : lock_env :=
  mk_lock_env false (Some host) 64 true
    (Some (mk_pid_file (Some (1700000000 - age)) record))
    1700000000 (fun _ => alive) 6000.

(** Nothing that ["%ju"] would read on comes next. *)
Definition no_digit_ahead (rest : list ascii) : Prop :=
  match rest with
  | [] => True
  | c :: _ => digit_value c = None
  end.

(** * The commands as processes

    What a command does to the outside is a history of [action]s, each with
    the value the system answered.  The system is a record of oracles that
    see the history so far, so that an answer may depend on everything done
    before. *)

Module Sys.

Inductive action : Type :=
| Run (argv : list string) (status : Z)    (* a git child, run to its end *)
| Hook (name : string) (status : Z)        (* run_hook_le(NULL, name, NULL) *)
| Start (argv : list string) (status : Z)  (* start_command *)
| Feed (line : string)                     (* a line into the child's stdin *)
| Finish (status : Z)                      (* fclose(in), finish_command *)
| Unlink (path : string) (status : Z)      (* unlink *)
| UnlinkOrWarn (path : string)             (* unlink_or_warn *)
| Printf (text : string)                   (* printf *)
| Event (e : gc_event)                     (* stderr, warning(), error() *)
| CloseObjectStore                         (* close_object_store *)
| WritePidFile (content : string)          (* gc.pid committed *)
| DeletePidFile                            (* delete_tempfile(&pidfile) *)
| Daemonize (status : Z)                   (* daemonize() *)
| LockGcLog                     (* gc.log locked, stderr redirected to it *)
| ProcessLogFile                           (* process_log_file, at exit *)
| WriteCommitGraphReachable (progress : bool).

Record system : Type := mk_system {
  worktree : string;                       (* r->worktree *)
  objects_path : string;                   (* r->objects->odb->path *)
  commit_graph_chain_filename : string;    (* get_commit_graph_chain_filename *)
  midx_filename : string;                  (* get_midx_filename *)
  child_status : list action -> list string -> Z;
  start_status : list action -> list string -> Z;
  finish_status : list action -> Z;
  unlink_status : list action -> string -> Z;
  (* the loose objects, as hexadecimal names in the order of the walk *)
  loose_objects : list action -> list string;
  packed_git_list : list action -> list packed_git
}.

(** The configuration and the parsers of config.c and date.c, which gc.c
    calls: a getter gives [None] when the key is not set;
    [repo_config_get_value] gives [Some None] for a key without a value;
    [parse_expiry_date] gives [None] when it fails. *)
Record config : Type := mk_config {
  repo_config_get_value : string -> option (option string);
  repo_config_get_int : string -> option Z;
  repo_config_get_bool : string -> option bool;
  repo_config_get_expiry : string -> option string;
  repo_config_get_ulong : string -> option Z;
  git_config_bool : string -> option string -> Z;
  parse_expiry_date : string -> option Z
}.

Inductive outcome (A : Type) : Type :=
| Ret (a : A)                  (* the function returns *)
| Die (text : string)          (* die(text) *)
| Exit (status : Z)            (* exit(status) *)
| Gone (callee : string).      (* a callee ends the process *)

Arguments Ret {A} a.
Arguments Die {A} text.
Arguments Exit {A} status.
Arguments Gone {A} callee.

Definition M (A : Type) : Type := list action -> outcome A * list action.

Definition ret {A : Type} (a : A) : M A := fun h => (Ret a, h).

Definition bind {A B : Type} (m : M A) (k : A -> M B) : M B :=
  fun h =>
    match m h with
    | (Ret a, h') => k a h'
    | (Die text, h') => (Die text, h')
    | (Exit status, h') => (Exit status, h')
    | (Gone callee, h') => (Gone callee, h')
    end.

Definition die {A : Type} (text : string) : M A := fun h => (Die text, h).

Definition exit {A : Type} (status : Z) : M A := fun h => (Exit status, h).

Definition gone {A : Type} (callee : string) : M A :=
  fun h => (Gone callee, h).

Definition tell (a : action) : M unit := fun h => (Ret tt, h ++ [a]).

Definition tell_all (l : list action) : M unit := fun h => (Ret tt, h ++ l).

Definition ask {A : Type} (f : list action -> A) : M A :=
  fun h => (Ret (f h), h).

(** [run_command] of a git child, also [run_command_v_opt(argv,
    RUN_GIT_CMD)]: the exit status. *)
Definition run_command (sys : system) (argv : list string) : M Z :=
  fun h =>
    let status := child_status sys h argv in
    (Ret status, h ++ [Run argv status]).

Definition run_command_v_opt (sys : system) (argv : list string) : M Z :=
  run_command sys argv.

Definition start_command (sys : system) (argv : list string) : M Z :=
  fun h =>
    let status := start_status sys h argv in
    (Ret status, h ++ [Start argv status]).

Definition finish_command (sys : system) : M Z :=
  fun h =>
    let status := finish_status sys h in
    (Ret status, h ++ [Finish status]).

Definition unlink (sys : system) (path : string) : M Z :=
  fun h =>
    let status := unlink_status sys h path in
    (Ret status, h ++ [Unlink path status]).

Definition warning (text : string) : M unit := tell (Event (Warning text)).

Definition error (text : string) : M Z :=
  fun h => (Ret (-1), h ++ [Event (Error text)]).

Definition close_object_store : M unit := tell CloseObjectStore.

(** Modelled from the spec: [run_hook_le(NULL, name, NULL)] (run-command.c
    is not among the sources), which runs the hook as a child and returns
    its exit status, [status] here. *)
Definition run_hook_le (status : Z) (name : string) : M Z :=
  fun h => (Ret status, h ++ [Hook name status]).

(** The exit statuses the children gave, in order. *)
Definition statuses (h : list action) : list Z :=
  flat_map
    (fun a =>
       match a with
       | Run _ s | Start _ s | Finish s => [s]
       | _ => []
       end) h.

(** The children run, in order. *)
Definition children (h : list action) : list (list string) :=
  flat_map (fun a => match a with Run argv _ => [argv] | _ => [] end) h.

(** The processes run, hooks and git children, in order: a hook by its
    name, a child by its arguments. *)
Definition processes (h : list action) : list (list string) :=
  flat_map
    (fun a =>
       match a with
       | Run argv _ => [argv]
       | Hook name _ => [[name]]
       | _ => []
       end) h.

(** The lines a child was fed, in order. *)
Definition fed (h : list action) : list string :=
  flat_map (fun a => match a with Feed line => [line] | _ => [] end) h.

End Sys.

Declare Scope sys_scope.
Delimit Scope sys_scope with sys.

Notation "x <- c1 ;; c2" := (Sys.bind c1 (fun x => c2))
  (at level 61, c1 at next level, right associativity) : sys_scope.
Notation "' pat <- c1 ;; c2" :=
  (Sys.bind c1 (fun x => match x with pat => c2 end))
  (at level 61, pat pattern, c1 at next level, right associativity)
  : sys_scope.
Notation "c1 ;; c2" := (Sys.bind c1 (fun _ => c2))
  (at level 61, right associativity) : sys_scope.

Local Open Scope sys_scope.

(** ** The maintenance executors *)

Section Executors.

Variable sys : Sys.system.
Variable cfg : Sys.config.
Variable opts : maintenance_opts.

Definition run_write_commit_graph : Sys.M Z :=
  Sys.run_command_v_opt sys
    (["-C"; Sys.worktree sys; "commit-graph"; "write"; "--split";
      "--reachable"]
     ++ (if negb (quiet opts =? 0) then ["--no-progress"] else [])).

Definition run_verify_commit_graph : Sys.M Z :=
  Sys.run_command_v_opt sys
    (["-C"; Sys.worktree sys; "commit-graph"; "verify"; "--shallow"]
     ++ (if negb (quiet opts =? 0) then ["--no-progress"] else [])).

Definition maintenance_task_commit_graph : Sys.M Z :=
  if negb (auto_flag opts =? 0) then Sys.ret 0
  else
    Sys.close_object_store ;;
    w <- run_write_commit_graph ;;
    if negb (w =? 0) then
      Sys.error "failed to write commit-graph" ;; Sys.ret 1
    else
      v <- run_verify_commit_graph ;;
      if v =? 0 then Sys.ret 0
      else
        Sys.warning "commit-graph verify caught error, rewriting" ;;
        let chain_path := Sys.commit_graph_chain_filename sys in
        u <- Sys.unlink sys chain_path ;;
        if negb (u =? 0) then
          Sys.die ("failed to remove commit-graph at " ++ chain_path)%string
        else
          w' <- run_write_commit_graph ;;
          if w' =? 0 then Sys.ret 0
          else Sys.error "failed to rewrite commit-graph" ;; Sys.ret 1.

Definition maintenance_task_gc : Sys.M Z :=
  let cmd :=
    ["gc"]
    ++ (if negb (auto_flag opts =? 0) then ["--auto"] else [])
    ++ (if negb (quiet opts =? 0) then ["--quiet"] else []) in
  Sys.close_object_store ;;
  Sys.run_command_v_opt sys cmd.

Definition prune_packed : Sys.M Z :=
  Sys.run_command_v_opt sys
    (["-C"; Sys.worktree sys; "prune-packed"]
     ++ (if negb (quiet opts =? 0) then ["--quiet"] else [])).

(** Modelled from the spec: [for_each_loose_file_in_objdir] (object-file.c
    is not among the sources) walks the loose objects of the object
    directory, calls [obj_cb] on each one and stops at the first call that
    returns non-zero, which it returns; it returns 0 at the end of the
    walk.  [each_loose_object] is the walk over the names found. *)
Fixpoint each_loose_object {D : Type} (objs : list string)
    (obj_cb : string -> D -> Sys.M (Z * D)) (data : D) : Sys.M (Z * D) :=
  match objs with
  | [] => Sys.ret (0, data)
  | oid :: rest =>
      '(r, data') <- obj_cb oid data ;;
      if negb (r =? 0) then Sys.ret (r, data')
      else each_loose_object rest obj_cb data'
  end.

Definition for_each_loose_file_in_objdir {D : Type}
    (obj_cb : string -> D -> Sys.M (Z * D)) (data : D) : Sys.M (Z * D) :=
  objs <- Sys.ask (Sys.loose_objects sys) ;;
  each_loose_object objs obj_cb data.

(** [data] is the counter [count]. *)
Definition loose_object_count (loose_object_auto_limit : Z) (oid : string)
    (count : Z) : Sys.M (Z * Z) :=
  let count' := CInt.to_int (count + 1) in
  if count' >=? loose_object_auto_limit then Sys.ret (1, count')
  else Sys.ret (0, count').

Definition loose_object_auto_condition : Sys.M Z :=
  let loose_object_auto_limit :=
    match Sys.repo_config_get_int cfg "maintenance.loose-objects.auto" with
    | Some v => v
    | None => 100
    end in
  if loose_object_auto_limit =? 0 then Sys.ret 0
  else if loose_object_auto_limit <? 0 then Sys.ret 1
  else
    '(r, _) <- for_each_loose_file_in_objdir
                 (loose_object_count loose_object_auto_limit) 0 ;;
    Sys.ret r.

Definition loose_object_exists (oid : string) (data : unit)
    : Sys.M (Z * unit) :=
  Sys.ret (1, data).

Record write_loose_object_data := mk_write_data {
  data_count : Z;
  batch_size : Z
}.

Definition write_loose_object_to_stdin (oid : string)
    (d : write_loose_object_data) : Sys.M (Z * write_loose_object_data) :=
  Sys.tell (Sys.Feed oid) ;;
  let count' := CInt.to_int (data_count d + 1) in
  Sys.ret (if count' >? batch_size d then 1 else 0,
           mk_write_data count' (batch_size d)).

(** [pack_proc->args] as [pack_loose] fills it. *)
Definition pack_proc_args : list string :=
  let prefix := (Sys.objects_path sys ++ "/pack/loose")%string in
  ["git"; "-C"; Sys.worktree sys; "pack-objects"]
  ++ (if negb (quiet opts =? 0) then ["--quiet"] else [])
  ++ [prefix].

Definition pack_loose : Sys.M Z :=
  '(any, _) <- for_each_loose_file_in_objdir loose_object_exists tt ;;
  if any =? 0 then Sys.ret 0
  else
    s <- Sys.start_command sys pack_proc_args ;;
    if negb (s =? 0) then
      Sys.error "failed to start 'git pack-objects' process" ;; Sys.ret 1
    else
      for_each_loose_file_in_objdir write_loose_object_to_stdin
        (mk_write_data 0 50000) ;;
      f <- Sys.finish_command sys ;;
      if negb (f =? 0) then
        Sys.error "failed to finish 'git pack-objects' process" ;; Sys.ret 1
      else Sys.ret 0.

Definition maintenance_task_loose_objects : Sys.M Z :=
  p <- prune_packed ;;
  if negb (p =? 0) then Sys.ret 1
  else
    l <- pack_loose ;;
    Sys.ret (if negb (l =? 0) then 1 else 0).

(** The loop of [pack_files_auto_condition]: the counter at its end. *)
Fixpoint pack_files_count (pack_files_auto_limit : Z)
    (packs : list packed_git) (count : Z) : Z :=
  match packs with
  | [] => count
  | p :: rest =>
      if count <? pack_files_auto_limit then
        pack_files_count pack_files_auto_limit rest
          (if negb (multi_pack_index p) then CInt.to_int (count + 1)
           else count)
      else count
  end.

Definition pack_files_auto_condition : Sys.M Z :=
  match Sys.repo_config_get_bool cfg "core.multiPackIndex" with
  | None | Some false => Sys.ret 0
  | Some true =>
      let pack_files_auto_limit :=
        match Sys.repo_config_get_int cfg "maintenance.pack-files.auto" with
        | Some v => v
        | None => 10
        end in
      if pack_files_auto_limit =? 0 then Sys.ret 0
      else if pack_files_auto_limit <? 0 then Sys.ret 1
      else
        packs <- Sys.ask (Sys.packed_git_list sys) ;;
        let count := pack_files_count pack_files_auto_limit packs 0 in
        Sys.ret (if count >=? pack_files_auto_limit then 1 else 0)
  end.

Definition multi_pack_index_write : Sys.M Z :=
  Sys.run_command_v_opt sys
    (["-C"; Sys.worktree sys; "multi-pack-index"; "write"]
     ++ (if negb (quiet opts =? 0) then ["--no-progress"] else [])).

Definition rewrite_multi_pack_index : Sys.M Z :=
  Sys.unlink sys (Sys.midx_filename sys) ;;
  w <- multi_pack_index_write ;;
  if negb (w =? 0) then
    Sys.error "failed to rewrite multi-pack-index" ;; Sys.ret 1
  else Sys.ret 0.

Definition multi_pack_index_verify : Sys.M Z :=
  Sys.run_command_v_opt sys
    (["-C"; Sys.worktree sys; "multi-pack-index"; "verify"]
     ++ (if negb (quiet opts =? 0) then ["--no-progress"] else [])).

Definition multi_pack_index_expire : Sys.M Z :=
  let cmd :=
    ["-C"; Sys.worktree sys; "multi-pack-index"; "expire"]
    ++ (if negb (quiet opts =? 0) then ["--no-progress"] else []) in
  Sys.close_object_store ;;
  Sys.run_command_v_opt sys cmd.

Definition multi_pack_index_repack : Sys.M Z :=
  packs <- Sys.ask (Sys.packed_git_list sys) ;;
  let batch_arg :=
    ("--batch-size="
     ++ CStr.decimal (CInt.to_u64 (get_auto_pack_size packs)))%string in
  let cmd :=
    ["-C"; Sys.worktree sys; "multi-pack-index"; "repack"]
    ++ (if negb (quiet opts =? 0) then ["--no-progress"] else [])
    ++ [batch_arg] in
  Sys.close_object_store ;;
  result <- Sys.run_command_v_opt sys cmd ;;
  if negb (result =? 0) then
    v <- multi_pack_index_verify ;;
    if negb (v =? 0) then
      Sys.warning "multi-pack-index verify failed after repack" ;;
      rewrite_multi_pack_index
    else Sys.ret result
  else Sys.ret result.

Definition maintenance_task_pack_files : Sys.M Z :=
  w <- multi_pack_index_write ;;
  if negb (w =? 0) then
    Sys.error "failed to write multi-pack-index" ;; Sys.ret 1
  else
    v <- multi_pack_index_verify ;;
    if negb (v =? 0) then
      Sys.warning "multi-pack-index verify failed after initial write" ;;
      rewrite_multi_pack_index
    else
      e <- multi_pack_index_expire ;;
      if negb (e =? 0) then
        Sys.error "multi-pack-index expire failed" ;; Sys.ret 1
      else
        v' <- multi_pack_index_verify ;;
        if negb (v' =? 0) then
          Sys.warning "multi-pack-index verify failed after expire" ;;
          rewrite_multi_pack_index
        else
          r <- multi_pack_index_repack ;;
          if negb (r =? 0) then
            Sys.error "multi-pack-index repack failed" ;; Sys.ret 1
          else Sys.ret 0.

End Executors.

(** ** git gc *)

Definition FAILED_RUN (cmd : string) : string :=
  ("failed to run " ++ cmd)%string.

Definition pack_refs_cmd : list string := ["pack-refs"; "--all"; "--prune"].
Definition reflog : list string := ["reflog"; "expire"; "--all"].
Definition prune : list string := ["prune"; "--expire"].
Definition prune_worktrees : list string := ["worktree"; "prune"; "--expire"].
Definition rerere : list string := ["rerere"; "gc"].

(** The file-scope variables of gc.c that [gc_state] does not hold. *)
(** Whether [need_to_gc] comes to its last statement, the call of the
    pre-auto-gc hook: gc.auto is positive and there are too many packs or
    too many loose objects. *)
Definition need_to_gc_reaches_hook (r : repository) (st : gc_state) : bool :=
  negb (gc_auto_threshold st <=? 0)
  && (negb (too_many_packs r st =? 0)
      || negb (too_many_loose_objects r st =? 0)).

Record gc_statics := mk_gc_statics {
  pack_refs : Z;                           (* default 1 *)
  prune_reflogs : Z;                       (* default 1 *)
  aggressive_depth : Z;                    (* default 50 *)
  aggressive_window : Z;                   (* default 250 *)
  detach_auto : Z;                         (* default 1 *)
  gc_log_expire_time : Z;                  (* timestamp_t *)
  gc_log_expire : string;                  (* default 1.day.ago *)
  prune_worktrees_expire : option string   (* default 3.months.ago *)
}.

(** The locals of [cmd_gc] that [parse_options] fills. *)
Record gc_options := mk_gc_options {
  aggressive : Z;
  auto_gc : Z;
  gc_quiet : Z;                            (* quiet *)
  force : Z;
  keep_base_pack : Z                       (* -1 when not given *)
}.

(** What [cmd_gc] asks of the repository and of the process. *)
Record gc_world := mk_gc_world {
  repo_at : list Sys.action -> repository;
  the_platform : platform;
  gc_log_at : list Sys.action -> gc_log;
  lock_env_at : list Sys.action -> lock_env;
  daemonize : list Sys.action -> Z;
  (* hold_lock_file_for_update can take gc.log.lock *)
  log_lock_free : list Sys.action -> bool;
  is_bare_repository : Z;
  repository_format_precious_objects : Z;
  has_promisor_remote : Z;
  (* the calls of report_garbage made by reprepare_packed_git:
     seen_bits and path *)
  reported_garbage : list Sys.action -> list (Z * string);
  gc_write_commit_graph : Z;               (* r->settings *)
  git_path_gc_log : string                 (* git_path of gc.log *)
}.

(** Modelled from the spec: the bit [PACKDIR_FILE_IDX] (packfile.h is not
    among the sources), reported for an .idx file that has no pack. *)
Definition PACKDIR_FILE_IDX : Z := 2.

Definition report_pack_garbage (pack_garbage : list string)
    (seen_bits : Z) (path : string) : list string :=
  if seen_bits =? PACKDIR_FILE_IDX then pack_garbage ++ [path]
  else pack_garbage.

(** Returns the list [pack_garbage] as it is left. *)
Definition clean_pack_garbage (pack_garbage : list string)
    : Sys.M (list string) :=
  Sys.tell_all (map Sys.UnlinkOrWarn pack_garbage) ;;
  Sys.ret [].

(** The message of [cmd_gc] when the lock is held; [pid] is a [pid_t]. *)
Definition gc_running_message (name : string) (pid : Z) : string :=
  ("gc is already running on machine '" ++ name ++ "' pid "
   ++ CStr.decimal (CInt.to_u64 pid) ++ " (use --force if not)")%string.

Section Gc.

Variable sys : Sys.system.
Variable cfg : Sys.config.
Variable world : gc_world.

Definition gc_config_is_timestamp_never (var : string) : Sys.M Z :=
  match Sys.repo_config_get_value cfg var with
  | Some (Some value) =>
      match Sys.parse_expiry_date cfg value with
      | None =>
          Sys.die ("failed to parse '" ++ var ++ "' value '" ++ value ++ "'")
      | Some expire => Sys.ret (if expire =? 0 then 1 else 0)
      end
  | _ => Sys.ret 0
  end.

(** [repo_config(r, git_default_config, NULL)] sets variables of other
    files; it is not followed. *)
Definition gc_config (c : gc_statics) (st : gc_state)
    : Sys.M (gc_statics * gc_state) :=
  let pack_refs' :=
    match Sys.repo_config_get_value cfg "gc.packrefs" with
    | Some value =>
        match value with
        | Some v =>
            if String.eqb v "notbare" then -1
            else Sys.git_config_bool cfg "gc.packrefs" value
        | None => Sys.git_config_bool cfg "gc.packrefs" value
        end
    | None => pack_refs c
    end in
  never <- gc_config_is_timestamp_never "gc.reflogexpire" ;;
  never' <- (if negb (never =? 0)
             then gc_config_is_timestamp_never "gc.reflogexpireunreachable"
             else Sys.ret 0) ;;
  let prune_reflogs' :=
    if negb (never =? 0) && negb (never' =? 0) then 0 else prune_reflogs c in
  let get_int key old :=
    match Sys.repo_config_get_int cfg key with Some v => v | None => old end in
  let get_expiry key old :=
    match Sys.repo_config_get_expiry cfg key with
    | Some v => Some v
    | None => old
    end in
  let get_ulong key old :=
    match Sys.repo_config_get_ulong cfg key with
    | Some v => v
    | None => old
    end in
  Sys.ret
    (mk_gc_statics pack_refs' prune_reflogs'
       (get_int "gc.aggressivedepth" (aggressive_depth c))
       (get_int "gc.aggressivewindow" (aggressive_window c))
       (match Sys.repo_config_get_bool cfg "gc.autodetach" with
        | Some b => if b then 1 else 0
        | None => detach_auto c
        end)
       (gc_log_expire_time c)
       (match Sys.repo_config_get_expiry cfg "gc.logexpiry" with
        | Some v => v
        | None => gc_log_expire c
        end)
       (get_expiry "gc.worktreepruneexpire" (prune_worktrees_expire c)),
     mk_gc_state
       (get_int "gc.auto" (gc_auto_threshold st))
       (get_int "gc.autopacklimit" (gc_auto_pack_limit st))
       (get_ulong "gc.bigpackthreshold" (big_pack_threshold st))
       (get_ulong "pack.deltacachesize" (max_delta_cache_size st))
       (get_expiry "gc.pruneexpire" (prune_expire st))
       (repack st)).

(** [cmd_gc] from [gc_config] to the call of [parse_options]. *)
Definition cmd_gc_before_options (c : gc_statics) (st : gc_state)
    : Sys.M (gc_statics * gc_state) :=
  '(c1, st1) <- gc_config c st ;;
  match Sys.parse_expiry_date cfg (gc_log_expire c1) with
  | None =>
      Sys.die ("failed to parse gc.logexpiry value " ++ gc_log_expire c1)
  | Some t =>
      let pack_refs' :=
        if pack_refs c1 <? 0
        then (if is_bare_repository world =? 0 then 1 else 0)
        else pack_refs c1 in
      Sys.ret
        (mk_gc_statics pack_refs' (prune_reflogs c1) (aggressive_depth c1)
           (aggressive_window c1) (detach_auto c1) t (gc_log_expire c1)
           (prune_worktrees_expire c1),
         st1)
  end.

(** [if (run_command_v_opt(cmd.argv, RUN_GIT_CMD)) die(FAILED_RUN,
    cmd.argv[0]);] *)
Definition run_or_die (argv : list string) : Sys.M unit :=
  status <- Sys.run_command_v_opt sys argv ;;
  if negb (status =? 0) then Sys.die (FAILED_RUN (hd "" argv))
  else Sys.ret tt.

(** [done] is the static counter; its value after the call is returned. *)
Definition gc_before_repack (c : gc_statics) (done : Z) : Sys.M Z :=
  let done' := CInt.to_int (done + 1) in
  if negb (done =? 0) then Sys.ret done'
  else
    (if negb (pack_refs c =? 0) then run_or_die pack_refs_cmd
     else Sys.ret tt) ;;
    (if negb (prune_reflogs c =? 0) then run_or_die reflog
     else Sys.ret tt) ;;
    Sys.ret done'.

(** [lock_repo_for_gc] as [cmd_gc] sees it: the host and the pid of the
    holder, or NULL with gc.pid written. *)
Definition lock_repo (force_flag : Z) : Sys.M (option (string * Z)) :=
  e <- Sys.ask (lock_env_at world) ;;
  match lock_repo_for_gc (negb (force_flag =? 0)) e with
  | LockDied => Sys.gone "hold_lock_file_for_update"
  | LockAlready => Sys.ret None
  | LockHeld host pid => Sys.ret (Some (host, pid))
  | LockAcquired written =>
      Sys.tell (Sys.WritePidFile written) ;; Sys.ret None
  end.

(** [cmd_gc] from the call [name = lock_repo_for_gc(force, &pid)] to its
    end. *)
Definition cmd_gc_from_lock (o : gc_options) (c : gc_statics)
    (st : gc_state) (done daemonized : Z) : Sys.M Z :=
  name <- lock_repo (force o) ;;
  match name with
  | Some (host, pid) =>
      if negb (auto_gc o =? 0) then Sys.ret 0
      else
        Sys.die (gc_running_message host pid)
  | None =>
      (if negb (daemonized =? 0) then
         free <- Sys.ask (log_lock_free world) ;;
         if free then Sys.tell Sys.LockGcLog
         else Sys.gone "hold_lock_file_for_update"
       else Sys.ret tt) ;;
      gc_before_repack c done ;;
      (if repository_format_precious_objects world =? 0 then
         Sys.close_object_store ;;
         run_or_die (repack st) ;;
         match prune_expire st with
         | Some e =>
             run_or_die
               (prune ++ [e]
                ++ (if negb (gc_quiet o =? 0) then ["--no-progress"] else [])
                ++ (if negb (has_promisor_remote world =? 0)
                    then ["--exclude-promisor-objects"] else []))
         | None => Sys.ret tt
         end
       else Sys.ret tt) ;;
      match prune_worktrees_expire c with
      | Some e => run_or_die (prune_worktrees ++ [e])
      | None => Sys.ret tt
      end ;;
      run_or_die rerere ;;
      reports <- Sys.ask (reported_garbage world) ;;
      let pack_garbage :=
        fold_left (fun l sp => report_pack_garbage l (fst sp) (snd sp))
          reports [] in
      (if Z.of_nat (List.length pack_garbage) >? 0 then
         Sys.close_object_store ;;
         clean_pack_garbage pack_garbage ;;
         Sys.ret tt
       else Sys.ret tt) ;;
      (if gc_write_commit_graph world =? 1 then
         Sys.tell
           (Sys.WriteCommitGraphReachable
              ((gc_quiet o =? 0) && (daemonized =? 0)))
       else Sys.ret tt) ;;
      r <- Sys.ask (repo_at world) ;;
      (if negb (auto_gc o =? 0) && negb (too_many_loose_objects r st =? 0)
       then
         Sys.warning
           ("There are too many unreachable loose objects; "
            ++ "run 'git prune' to remove them.")
       else Sys.ret tt) ;;
      (if daemonized =? 0 then
         Sys.unlink sys (git_path_gc_log world) ;; Sys.ret tt
       else Sys.ret tt) ;;
      Sys.ret 0
  end.

(** [need_to_gc(r)] as [cmd_gc] calls it: the answer and the globals are
    those of [need_to_gc]; the call of the pre-auto-gc hook, which
    [need_to_gc] comes to when a trigger has fired, is a step of the
    process. *)
Definition need_to_gc_step (st : gc_state) : Sys.M (Z * gc_state) :=
  r <- Sys.ask (repo_at world) ;;
  (if need_to_gc_reaches_hook r st
   then Sys.run_hook_le (run_hook_pre_auto_gc (the_platform world))
          "pre-auto-gc"
   else Sys.ret 0) ;;
  Sys.ret (need_to_gc r (the_platform world) st).

(** [cmd_gc] after [parse_options], no argument being left. *)
Definition cmd_gc_after_options (o : gc_options) (c : gc_statics)
    (st : gc_state) : Sys.M Z :=
  match prune_expire st with
  | Some e =>
      match Sys.parse_expiry_date cfg e with
      | None => Sys.die ("failed to parse prune expiry value " ++ e)
      | Some _ => Sys.ret tt
      end
  | None => Sys.ret tt
  end ;;
  let st :=
    if negb (aggressive o =? 0) then
      let st := argv_array_push "-f" st in
      let st :=
        if aggressive_depth c >? 0
        then argv_array_push
               ("--depth=" ++ CStr.decimal (aggressive_depth c)) st
        else st in
      if aggressive_window c >? 0
      then argv_array_push
             ("--window=" ++ CStr.decimal (aggressive_window c)) st
      else st
    else st in
  let st := if negb (gc_quiet o =? 0) then argv_array_push "-q" st else st in
  if negb (auto_gc o =? 0) then
    '(need, st) <- need_to_gc_step st ;;
    if need =? 0 then Sys.ret 0
    else
      Sys.tell_all
        (map Sys.Event
           (auto_messages (negb (gc_quiet o =? 0))
              (negb (detach_auto c =? 0)))) ;;
      if negb (detach_auto c =? 0) then
        log <- Sys.ask (gc_log_at world) ;;
        let '(ret, diag) :=
          report_last_gc_error log (gc_log_expire_time c) in
        Sys.tell_all (map Sys.Event diag) ;;
        if ret <? 0 then Sys.exit 128
        else if ret =? 1 then Sys.ret 0
        else
          name <- lock_repo (force o) ;;
          match name with
          | Some _ => Sys.ret 0
          | None =>
              done <- gc_before_repack c 0 ;;
              Sys.tell Sys.DeletePidFile ;;
              d <- (fun h =>
                      let status := daemonize world h in
                      (Sys.Ret status, h ++ [Sys.Daemonize status])) ;;
              cmd_gc_from_lock o c st done (if d =? 0 then 1 else 0)
          end
      else cmd_gc_from_lock o c st 0 0
  else
    r <- Sys.ask (repo_at world) ;;
    let keep_pack :=
      if negb (keep_base_pack o =? -1) then
        if negb (keep_base_pack o =? 0)
        then fst (find_base_packs r [] 0)
        else []
      else if negb (big_pack_threshold st =? 0)
      then fst (find_base_packs r [] (big_pack_threshold st))
      else [] in
    cmd_gc_from_lock o c (add_repack_all_option (Some keep_pack) st) 0 0.

(** Whether gc.log has been locked: [cmd_gc] then has registered
    [process_log_file_at_exit] with [atexit]. *)
Definition gc_log_locked (h : list Sys.action) : bool :=
  existsb (fun a => match a with Sys.LockGcLog => true | _ => false end) h.

(** The process of git gc from [parse_options] to its end, in a history
    that begins with it: [cmd_gc], and then, when the run had locked
    gc.log, the handler [process_log_file] that runs at exit, whether
    [cmd_gc] returned or the process ended by [exit] or [die].  (The same
    handler is installed for the common signals; signals are not part of
    this model, nor is what code outside gc.c has registered for the exit,
    such as the removal of tempfiles.) *)
Definition cmd_gc_process (o : gc_options) (c : gc_statics)
    (st : gc_state) : Sys.M Z :=
  fun h =>
    let '(out, h') := cmd_gc_after_options o c st h in
    if gc_log_locked h' then (out, h' ++ [Sys.ProcessLogFile])
    else (out, h').

End Gc.

(** ** The log of a detached run *)

Inductive fstat_result :=
| FstatOk (st_size : Z)
| FstatFail (errno : Z).

(** gc.log and the lock file gc.log.lock that stderr is redirected to:
    [None] when the file does not exist, else its bytes. *)
Record log_files := mk_log_files {
  gc_log_file : option string;
  gc_log_lock : option string
}.

(** Text written to stderr goes to the lock file. *)
Definition fprintf_stderr (text : string) (fs : log_files) : log_files :=
  mk_log_files (gc_log_file fs)
    (match gc_log_lock fs with
     | Some captured => Some (captured ++ text)%string
     | None => None
     end).

(** [commit_lock_file]: the lock file is renamed to gc.log. *)
Definition commit_lock_file (fs : log_files) : log_files :=
  match gc_log_lock fs with
  | Some captured => mk_log_files (Some captured) None
  | None => fs
  end.

Definition rollback_lock_file (fs : log_files) : log_files :=
  mk_log_files (gc_log_file fs) None.

Definition unlink_gc_log (fs : log_files) : log_files :=
  mk_log_files None (gc_log_lock fs).

Definition process_log_file (fstat : fstat_result) (strerror : Z -> string)
    (tempfile_path : string) (fs : log_files) : log_files :=
  match fstat with
  | FstatFail saved_errno =>
      commit_lock_file
        (fprintf_stderr
           ("Failed to fstat " ++ tempfile_path ++ ": "
            ++ strerror saved_errno) fs)
  | FstatOk st_size =>
      if negb (st_size =? 0) then commit_lock_file fs
      else rollback_lock_file (unlink_gc_log fs)
  end.

(** What [report_last_gc_error] of a later run finds: [stat] fails with
    ENOENT when gc.log does not exist. *)
Definition gc_log_seen (path : string) (st_mtime : Z) (fs : log_files)
    : gc_log :=
  match gc_log_file fs with
  | Some content => mk_gc_log path (StatOk st_mtime) (ReadOk content)
  | None => mk_gc_log path (StatFail ENOENT) (ReadFail ENOENT)
  end.

(** ** git verify-pack *)

Definition VERIFY_PACK_VERBOSE : Z := 1.
Definition VERIFY_PACK_STAT_ONLY : Z := 2.

(** Modelled from the spec: [ends_with] and [strbuf_strip_suffix] (strbuf.c
    is not among the sources), as the comment in [verify_one_pack] uses
    them: whether the string ends with the suffix, and the string without
    it ([None] when the suffix is not there). *)
Definition ends_with (s suffix : string) : bool :=
  let n := String.length s in
  let m := String.length suffix in
  (m <=? n)%nat && String.eqb (String.substring (n - m) m s) suffix.

Definition strbuf_strip_suffix (s suffix : string) : option string :=
  if ends_with s suffix
  then Some (String.substring 0 (String.length s - String.length suffix) s)
  else None.

(** The argument of index-pack that [verify_one_pack] makes of [path]. *)
Definition pack_arg (path : string) : string :=
  match strbuf_strip_suffix path ".idx" with
  | Some stripped => (stripped ++ ".pack")%string
  | None =>
      if negb (ends_with path ".pack") then (path ++ ".pack")%string
      else path
  end.

(** The array [argv] that [verify_one_pack] fills. *)
Definition index_pack_argv (path : string) (flags : Z)
    (hash_algo : option string) : list string :=
  let verbose := Z.land flags VERIFY_PACK_VERBOSE in
  let stat_only := Z.land flags VERIFY_PACK_STAT_ONLY in
  let mode :=
    if negb (stat_only =? 0) then "--verify-stat-only"
    else if negb (verbose =? 0) then "--verify-stat"
    else "--verify" in
  ["index-pack"; mode]
  ++ (match hash_algo with
      | Some a => [("--object-format=" ++ a)%string]
      | None => []
      end)
  ++ [pack_arg path].

Section VerifyPack.

Variable sys : Sys.system.

Definition verify_one_pack (path : string) (flags : Z)
    (hash_algo : option string) : Sys.M Z :=
  let verbose := Z.land flags VERIFY_PACK_VERBOSE in
  let stat_only := Z.land flags VERIFY_PACK_STAT_ONLY in
  let arg := pack_arg path in
  err <- Sys.run_command sys (index_pack_argv path flags hash_algo) ;;
  (if negb (verbose =? 0) || negb (stat_only =? 0) then
     if negb (err =? 0) then Sys.tell (Sys.Printf (arg ++ ": bad" ++ CStr.nl))
     else if stat_only =? 0
          then Sys.tell (Sys.Printf (arg ++ ": ok" ++ CStr.nl))
          else Sys.ret tt
   else Sys.ret tt) ;;
  Sys.ret err.

(** The loop of [cmd_verify_pack] over the arguments left. *)
Fixpoint verify_packs (argv : list string) (flags : Z)
    (object_format : option string) (err : Z) : Sys.M Z :=
  match argv with
  | [] => Sys.ret err
  | path :: rest =>
      e <- verify_one_pack path flags object_format ;;
      verify_packs rest flags object_format (if negb (e =? 0) then 1 else err)
  end.

(** [cmd_verify_pack] after [parse_options]: [argv] is what is left of the
    command line. *)
Definition cmd_verify_pack (argv : list string) (flags : Z)
    (object_format : option string) : Sys.M Z :=
  if Z.of_nat (List.length argv) <? 1 then Sys.gone "usage_with_options"
  else verify_packs argv flags object_format 0.

End VerifyPack.

(** ** Readings of the auto conditions *)

(** The limit in force: the configured one, else the default. *)
Definition configured_limit (cfg : Sys.config) (key : string) (default : Z)
    : Z :=
  match Sys.repo_config_get_int cfg key with
  | Some v => v
  | None => default
  end.

(** The packs that no multi-pack-index covers. *)
Definition without_midx (packs : list packed_git) : list packed_git :=
  filter (fun p => negb (multi_pack_index p)) packs.

(** ** Scenarios for the commands *)

(** A repository in /srv/repo whose children exit as [status] says, where
    unlinking and the pack-objects pipe work, with the loose objects [loose]
    and the packs [packs]. *)
Definition sample_system (status : list Sys.action -> list string -> Z)
    (loose : list string) (packs : list packed_git) : Sys.system :=
  Sys.mk_system "/srv/repo" "/srv/repo/.git/objects"
    "/srv/repo/.git/objects/info/commit-graphs/commit-graph-chain"
    "/srv/repo/.git/objects/pack/multi-pack-index"
    status (fun _ _ => 0) (fun _ => 0) (fun _ _ => 0)
    (fun _ => loose) (fun _ => packs).

(** A configuration with the integer and boolean keys given, no other key
    set, and every date parsing to the time 1. *)
Definition sample_config (ints : string -> option Z)
    (bools : string -> option bool) : Sys.config :=
  Sys.mk_config (fun _ => None) ints bools (fun _ => None) (fun _ => None)
    (fun _ _ => 1) (fun _ => Some 1).

Definition multi_pack_index_enabled (key : string) : option bool :=
  if String.eqb key "core.multiPackIndex" then Some true else None.

(** ** A logic for the commands

    [triple P m Q F]: from a history that satisfies [P], the command [m]
    either returns a value [a] and leaves a history for which [Q a] holds,
    or ends the process in a way [out] with a history for which [F out]
    holds. *)

Definition forget {A : Type} (out : Sys.outcome A) : Sys.outcome unit :=
  match out with
  | Sys.Ret _ => Sys.Ret tt
  | Sys.Die text => Sys.Die text
  | Sys.Exit status => Sys.Exit status
  | Sys.Gone callee => Sys.Gone callee
  end.

Definition triple {A : Type} (P : list Sys.action -> Prop) (m : Sys.M A)
    (Q : A -> list Sys.action -> Prop)
    (F : Sys.outcome unit -> list Sys.action -> Prop) : Prop :=
  forall h, P h ->
    match m h with
    | (Sys.Ret a, h') => Q a h'
    | (out, h') => F (forget out) h'
    end.

(** The ways in which [cmd_gc] ends the process by itself, a failed child
    apart: a lock file that cannot be taken, gc.log that cannot be examined,
    a prune expiry that does not parse and, without --auto only, a run
    that holds the lock. *)
Definition gc_failure {A : Type} (o : gc_options) (out : Sys.outcome A)
    : Prop :=
  out = Sys.Gone "hold_lock_file_for_update" \/
  out = Sys.Exit 128 \/
  (exists e, out = Sys.Die ("failed to parse prune expiry value " ++ e)) \/
  (auto_gc o = 0 /\
   exists name pid, out = Sys.Die (gc_running_message name pid)).

(** Every hook and every child so far has exited with 0. *)
Definition processes_succeeded (h : list Sys.action) : Prop :=
  Forall
    (fun a =>
       match a with
       | Sys.Run _ s | Sys.Hook _ s => s = 0
       | _ => True
       end) h.

(** The pre-auto-gc hook has refused the run, and nothing else has been
    done. *)
Definition hook_refused (h : list Sys.action) : Prop :=
  exists s, h = [Sys.Hook "pre-auto-gc" s] /\ s <> 0.

(** The last thing done is a git child that exited with a non-zero status,
    all processes before it having succeeded, and the process has died
    naming it. *)
Definition run_failed (out : Sys.outcome unit) (h : list Sys.action)
    : Prop :=
  exists pre argv s,
    h = pre ++ [Sys.Run argv s] /\ processes_succeeded pre /\ s <> 0 /\
    out = Sys.Die (FAILED_RUN (hd "" argv)).

(** The place of a git child of [cmd_gc] in the pipeline, by its command;
    0 for any other command. *)
Definition gc_stage (argv : list string) : Z :=
  let cmd := hd "" argv in
  if String.eqb cmd "pack-refs" then 2
  else if String.eqb cmd "reflog" then 3
  else if String.eqb cmd "repack" then 4
  else if String.eqb cmd "prune" then 5
  else if String.eqb cmd "worktree" then 6
  else if String.eqb cmd "rerere" then 7
  else 0.

(** The stage of a process: 1 for the pre-auto-gc hook (0 for any other
    hook), that of its command for a git child; the other actions start no
    process. *)
Definition process_stage (a : Sys.action) : list Z :=
  match a with
  | Sys.Hook name _ => [if String.eqb name "pre-auto-gc" then 1 else 0]
  | Sys.Run argv _ => [gc_stage argv]
  | _ => []
  end.

Definition stages (h : list Sys.action) : list Z := flat_map process_stage h.

(** The processes so far are the pre-auto-gc hook and git children that
    are commands of the pipeline, each one of a later stage than the one
    before, and all of a stage before [k]. *)
Definition staged (k : Z) (h : list Sys.action) : Prop :=
  StronglySorted Z.lt (stages h) /\
  Forall (fun j => 1 <= j < k) (stages h).

(** No child so far is the command [cmd]. *)
Definition never_runs (cmd : string) (h : list Sys.action) : Prop :=
  Forall (fun argv => hd "" argv <> cmd) (Sys.children h).

(** The key is set to a date that parses to the time 0: "never". *)
Definition configured_never (cfg : Sys.config) (key : string) : Prop :=
  exists value,
    Sys.repo_config_get_value cfg key = Some (Some value) /\
    Sys.parse_expiry_date cfg value = Some 0.

(** No child so far is a repack or a prune. *)
Definition nothing_deleted (h : list Sys.action) : Prop :=
  Forall
    (fun argv => hd "" argv <> "repack" /\ hd "" argv <> "prune")
    (Sys.children h).

(** The file-scope variables of gc.c at their defaults, the log expiry
    parsed to the time 0. *)
Definition default_gc_statics : gc_statics :=
  mk_gc_statics 1 1 50 250 1 0 "1.day.ago" (Some "3.months.ago").

(** git gc without any option. *)
Definition plain_gc : gc_options := mk_gc_options 0 0 0 0 (-1).

(** A repository without gc.log, in which the caller meets the pid file
    as [lock] has it, daemonize works, gc.log can be locked and no pack
    garbage is reported; [precious] is the preciousObjects flag. *)
Definition sample_world (precious : Z) (lock : lock_env) : gc_world :=
  mk_gc_world (fun _ => repo_no_bucket_17) (lp64 100000 0 0)
    (fun _ => mk_gc_log ".git/gc.log" (StatFail ENOENT) (ReadFail ENOENT))
    (fun _ => lock) (fun _ => 0) (fun _ => true) 0 precious 0 (fun _ => []) 0
    ".git/gc.log".

(** git gc --auto --quiet. *)
Definition auto_gc_quiet : gc_options := mk_gc_options 0 1 1 0 (-1).

(** [sample_world] for a repository with 260 loose objects in bucket 17
    and no pack, where the pre-auto-gc hook exits with [hook]. *)
Definition auto_world (hook : Z) (lock : lock_env) : gc_world :=
  mk_gc_world (fun _ => repo_260_loose) (lp64 100000 0 hook)
    (fun _ => mk_gc_log ".git/gc.log" (StatFail ENOENT) (ReadFail ENOENT))
    (fun _ => lock) (fun _ => 0) (fun _ => true) 0 0 0 (fun _ => []) 0
    ".git/gc.log".

(** Children that all succeed but the one named [cmd]. *)
Definition failing (cmd : string) (h : list Sys.action)
    (argv : list string) : Z :=
  if String.eqb (hd "" argv) cmd then 1 else 0.

(** The configuration with the values given, no typed key set, in which a
    date parses to the time 0 when it is "never", does not parse when it is
    "bogus", and parses to 1 otherwise. *)
Definition values_config (values : string -> option (option string))
    : Sys.config :=
  Sys.mk_config values (fun _ => None) (fun _ => None) (fun _ => None)
    (fun _ => None) (fun _ _ => 1)
    (fun v =>
       if String.eqb v "never" then Some 0
       else if String.eqb v "bogus" then None
       else Some 1).

Definition reflog_never_unreachable_bogus (key : string)
    : option (option string) :=
  if String.eqb key "gc.reflogexpire" then Some (Some "never")
  else if String.eqb key "gc.reflogexpireunreachable" then Some (Some "bogus")
  else None.

Definition reflog_never (key : string) : option (option string) :=
  if String.eqb key "gc.reflogexpire"
     || String.eqb key "gc.reflogexpireunreachable"
  then Some (Some "never") else None.

Definition packrefs_notbare (key : string) : option (option string) :=
  if String.eqb key "gc.packrefs" then Some (Some "notbare") else None.

(** [sample_world] for a bare repository. *)
Definition bare_world (lock : lock_env) : gc_world :=
  mk_gc_world (fun _ => repo_no_bucket_17) (lp64 100000 0 0)
    (fun _ => mk_gc_log ".git/gc.log" (StatFail ENOENT) (ReadFail ENOENT))
    (fun _ => lock) (fun _ => 0) (fun _ => true) 1 0 0 (fun _ => []) 0
    ".git/gc.log".

(** A run in which the gc task fails with status 1 and every other
    executor succeeds; the world counts the executors called. *)
Definition failing_gc_env : maintenance_env nat :=
  mk_maintenance_env nat "/srv/repo"
    (fun _ => (0, []))
    (fun _ n => (0, n))
    (fun f n => (match f with fn_gc => 1 | _ => 0 end, S n))
    (fun _ n => (1, n))
    (fun _ => true)
    (fun _ => None)
    true
    8 16 behind_tasks_lp64.

(** ** Closing the object store *)

(** The children that may delete pack files: repack and gc, and the expire
    and repack of multi-pack-index. *)
Definition may_delete_packs (argv : list string) : bool :=
  String.eqb (hd "" argv) "repack"
  || String.eqb (hd "" argv) "gc"
  || (String.eqb (nth 2 argv "") "multi-pack-index"
      && (String.eqb (nth 3 argv "") "expire"
          || String.eqb (nth 3 argv "") "repack")).

(** Every child of [h] that [needs] it is run right after a call of
    [close_object_store]; [closed] tells whether such a call is the last
    thing done before [h]. *)
Fixpoint closed_before (needs : list string -> bool) (closed : bool)
    (h : list Sys.action) : bool :=
  match h with
  | [] => true
  | Sys.CloseObjectStore :: rest => closed_before needs true rest
  | Sys.Run argv _ :: rest =>
      (closed || negb (needs argv)) && closed_before needs false rest
  | _ :: rest => closed_before needs false rest
  end.

(** Whether [close_object_store] is the last thing done in [h]. *)
Definition closed_at_end (closed : bool) (h : list Sys.action) : bool :=
  match last h (if closed then Sys.CloseObjectStore else Sys.DeletePidFile)
  with
  | Sys.CloseObjectStore => true
  | _ => false
  end.

(** * Part II: properties *)

(** ** The model on small inputs *)

(** gc.auto = 6700 gives the threshold 27: 27 loose objects in the bucket
    are not too many, 28 are. *)
Example too_many_loose_objects_27 :
  too_many_loose_objects (repo_with_bucket_17 (loose_names 27))
    default_gc_state = 0.
Proof. reflexivity. Qed.

Example too_many_loose_objects_28 :
  too_many_loose_objects (repo_with_bucket_17 (loose_names 28))
    default_gc_state = 1.
Proof. reflexivity. Qed.

(** Names with upper-case digits, of another length, or with an extension
    are not counted. *)
Example loose_count_filters :
  loose_count 38
    ["."; "..";
     "00000000000000000000000000000000000abc";
     "00000000000000000000000000000000000ABC";
     "00000000000000000000000000000000000ab";
     "00000000000000000000000000000000000abc.tmp";
     "tmp_obj_x"] = 1.
Proof. reflexivity. Qed.

Example basename_of_pack :
  CStr.basename ".git/objects/pack/pack-1234.pack" = "pack-1234.pack".
Proof. reflexivity. Qed.

Example fscanf_pid_host_record :
  fscanf_pid_host 64 "4242 buildhost" = Some (4242, "buildhost").
Proof. reflexivity. Qed.

Example fscanf_pid_host_no_host :
  fscanf_pid_host 64 "4242" = None.
Proof. reflexivity. Qed.

Example fscanf_pid_host_garbage :
  fscanf_pid_host 64 "not a pid file" = None.
Proof. reflexivity. Qed.

(** --force takes the lock whatever the pid file says. *)
Example lock_repo_for_gc_force :
  lock_repo_for_gc true (lock_scene "buildhost" 3600 None)
  = LockAcquired "5000 buildhost".
Proof. reflexivity. Qed.

(** No pack, one pack: there is no second-largest size and the answer is 1. *)
Example get_auto_pack_size_no_pack : get_auto_pack_size [] = 1.
Proof. reflexivity. Qed.

Example get_auto_pack_size_one_pack :
  get_auto_pack_size [pack_of_size "pack-a.pack" GiB] = 1.
Proof. reflexivity. Qed.

(** 80 local packs against a limit of 50, RAM probe 0: an all-repack with no
    --keep-pack. *)
Example need_to_gc_80_packs_unknown_ram :
  need_to_gc repo_80_packs (lp64 100000 0 0) default_gc_state
  = (1, mk_gc_state 6700 50 0 (256 * 1024 * 1024) (Some "2.weeks.ago")
          ["repack"; "-d"; "-l"; "-A"; "--unpack-unreachable=2.weeks.ago"]).
Proof. reflexivity. Qed.

(** Without --task the enabled tasks run in registration order. *)
Example cmd_maintenance_enabled_tasks :
  cmd_maintenance all_enabled_env [] ["run"] O
  = Ran 0 2%nat ["fetch"; "loose-objects"; "pack-files"; "gc"; "commit-graph"].
Proof. reflexivity. Qed.

Example cmd_maintenance_unknown_task :
  cmd_maintenance offline_env [OptTask "frotz"] ["run"] O = Usage.
Proof. reflexivity. Qed.

(** Task names are looked up without regard to case. *)
Example cmd_maintenance_task_case :
  cmd_maintenance offline_env [OptTask "GC"; OptTask "gc"] ["run"] O = Usage.
Proof. reflexivity. Qed.

(** ** C integers in range *)

Lemma wrap_signed_id w x :
  0 < w -> - 2 ^ (w - 1) <= x < 2 ^ (w - 1) -> CInt.wrap_signed w x = x.
Proof.
  intros Hw Hx. unfold CInt.wrap_signed.
  assert (E : 2 ^ w = 2 * 2 ^ (w - 1)).
  { replace w with (Z.succ (w - 1)) at 1 by lia.
    rewrite Z.pow_succ_r by lia. reflexivity. }
  rewrite Z.mod_small by lia. lia.
Qed.

Lemma to_int_id x : - 2147483648 <= x <= CInt.INT_MAX -> CInt.to_int x = x.
Proof.
  intros H. apply wrap_signed_id; [lia|].
  change (2 ^ (32 - 1)) with 2147483648. unfold CInt.INT_MAX in H. lia.
Qed.

Lemma to_off_t_id x : - 2 ^ 63 <= x < 2 ^ 63 -> CInt.to_off_t x = x.
Proof. intros H. apply wrap_signed_id; [lia|]. exact H. Qed.

Lemma to_u64_id x : 0 <= x < 2 ^ 64 -> CInt.to_u64 x = x.
Proof. intros H. apply Z.mod_small. exact H. Qed.

(** ** get_auto_pack_size *)

Lemma insert_desc_perm x l : Permutation (x :: l) (insert_desc x l).
Proof.
  induction l as [|y l IH]; simpl; [reflexivity|].
  destruct (y <=? x); [reflexivity|].
  rewrite perm_swap. apply perm_skip. exact IH.
Qed.

Lemma sort_desc_perm l : Permutation l (sort_desc l).
Proof.
  induction l as [|x l IH]; simpl; [constructor|].
  rewrite <- insert_desc_perm. apply perm_skip. exact IH.
Qed.

Lemma insert_desc_sorted x l :
  Sorted ge_rel l -> Sorted ge_rel (insert_desc x l).
Proof.
  induction 1 as [|y l Hs IH Hhd]; simpl.
  - repeat constructor.
  - destruct (Z.leb_spec y x).
    + constructor; [constructor; assumption|]. constructor. exact H.
    + constructor; [exact IH|].
      destruct l as [|z l]; simpl.
      * constructor. unfold ge_rel. lia.
      * destruct (Z.leb_spec z x); constructor; unfold ge_rel; try lia.
        inversion Hhd; assumption.
Qed.

Lemma sort_desc_sorted l : Sorted ge_rel (sort_desc l).
Proof.
  induction l; simpl; [constructor|]. apply insert_desc_sorted. assumption.
Qed.

Lemma sort_desc_nonneg l : Forall (fun x => 0 <= x) l ->
  Forall (fun x => 0 <= x) (sort_desc l).
Proof.
  intros H. eapply Permutation_Forall; [apply sort_desc_perm|exact H].
Qed.

(** Inserting into a descending list: what happens to its two heads. *)
Lemma top2_insert x l :
  Sorted ge_rel l -> Forall (fun y => 0 <= y) l -> 0 <= x ->
  nth 0 (insert_desc x l) 0 = Z.max x (nth 0 l 0) /\
  nth 1 (insert_desc x l) 0 = Z.max (nth 1 l 0) (Z.min x (nth 0 l 0)).
Proof.
  intros Hs Hn Hx.
  destruct l as [|a l]; simpl.
  - split; lia.
  - inversion Hn as [|? ? Ha Hn']; subst.
    inversion Hs as [|? ? Hs' Hhd]; subst.
    destruct (Z.leb_spec a x); simpl.
    + destruct l as [|b l]; simpl; [split; lia|].
      inversion Hhd; subst. unfold ge_rel in *.
      inversion Hn'; subst. split; lia.
    + destruct l as [|b l]; simpl; [split; lia|].
      inversion Hhd; subst. unfold ge_rel in *.
      inversion Hn'; subst.
      destruct (Z.leb_spec b x); simpl; split; lia.
Qed.

Lemma largest_cons x l : Forall (fun y => 0 <= y) l -> 0 <= x ->
  largest (x :: l) = Z.max x (largest l).
Proof.
  intros Hn Hx. unfold largest. simpl.
  apply top2_insert; auto using sort_desc_sorted, sort_desc_nonneg.
Qed.

Lemma second_largest_cons x l : Forall (fun y => 0 <= y) l -> 0 <= x ->
  second_largest (x :: l) =
  Z.max (second_largest l) (Z.min x (largest l)).
Proof.
  intros Hn Hx. unfold second_largest, largest. simpl.
  apply top2_insert; auto using sort_desc_sorted, sort_desc_nonneg.
Qed.

Lemma largest_nonneg l : Forall (fun y => 0 <= y) l -> 0 <= largest l.
Proof.
  intros H. unfold largest. apply sort_desc_nonneg in H.
  destruct (sort_desc l); simpl; [lia|]. inversion H; assumption.
Qed.

Lemma second_largest_bounds l : Forall (fun y => 0 <= y) l ->
  0 <= second_largest l <= largest l.
Proof.
  intros H. unfold second_largest, largest.
  pose proof (sort_desc_sorted l) as Hs. apply sort_desc_nonneg in H.
  destruct (sort_desc l) as [|a [|b t]]; simpl; try lia.
  - inversion H; lia.
  - inversion H as [|? ? _ H']; inversion H'; subst.
    inversion Hs as [|? ? _ Hhd]; inversion Hhd; subst.
    unfold ge_rel in *. lia.
Qed.

(** The loop keeps the two largest sizes seen so far, whatever the order
    of the packs. *)
Lemma auto_pack_size_loop packs : forall m s,
  0 <= s <= m ->
  Forall (fun p => 0 <= pack_size p) packs ->
  fold_left auto_pack_size_step packs (m, s) =
  (Z.max m (largest (map pack_size packs)),
   Z.max s (Z.max (Z.min m (largest (map pack_size packs)))
                  (second_largest (map pack_size packs)))).
Proof.
  induction packs as [|p packs IH]; intros m s Hms Hn.
  - simpl. unfold largest, second_largest. simpl. f_equal; lia.
  - inversion Hn as [|? ? Hp Hn']; subst.
    assert (Hl : Forall (fun y => 0 <= y) (map pack_size packs)).
    { apply Forall_map. exact Hn'. }
    pose proof (largest_nonneg _ Hl) as HL.
    pose proof (second_largest_bounds _ Hl) as HS.
    cbn [fold_left map].
    rewrite largest_cons, second_largest_cons by assumption.
    unfold auto_pack_size_step at 2.
    destruct (Z.gtb_spec (pack_size p) m).
    + rewrite IH by (auto; lia). f_equal; lia.
    + destruct (Z.gtb_spec (pack_size p) s).
      * rewrite IH by (auto; lia). f_equal; lia.
      * rewrite IH by (auto; lia). f_equal; lia.
Qed.

Lemma top2_permutation l l' :
  Permutation l l' -> Forall (fun y => 0 <= y) l ->
  largest l = largest l' /\ second_largest l = second_largest l'.
Proof.
  induction 1 as [|x l l' HP IH|x y l|l l' l'' HP1 IH1 HP2 IH2]; intros Hn.
  - split; reflexivity.
  - inversion Hn as [|? ? Hx Hl]; subst.
    assert (Hl' : Forall (fun y => 0 <= y) l')
      by (eapply Permutation_Forall; eassumption).
    destruct (IH Hl) as [E1 E2].
    rewrite !largest_cons, !second_largest_cons by assumption.
    rewrite E1, E2. split; reflexivity.
  - inversion Hn as [|? ? Hy Hn']; subst.
    inversion Hn' as [|? ? Hx Hl]; subst.
    pose proof (largest_nonneg _ Hl). pose proof (second_largest_bounds _ Hl).
    rewrite !largest_cons, !second_largest_cons
      by (assumption || (constructor; assumption)).
    rewrite !largest_cons by assumption. split; lia.
  - assert (Hn' : Forall (fun y => 0 <= y) l')
      by (eapply Permutation_Forall; eassumption).
    destruct (IH1 Hn) as [E1 E2]. destruct (IH2 Hn') as [E3 E4].
    split; congruence.
Qed.

Lemma get_auto_pack_size_formula (packs : list packed_git) :
  Forall valid_pack_size packs ->
  get_auto_pack_size packs =
  Z.min (second_largest (map pack_size packs) + 1) TWO_GIGABYTES.
Proof.
  intros Hv.
  assert (Hn : Forall (fun p => 0 <= pack_size p) packs).
  { eapply Forall_impl; [|exact Hv]. unfold valid_pack_size. intros; lia. }
  assert (Hl : Forall (fun y => 0 <= y) (map pack_size packs)).
  { apply Forall_map. exact Hn. }
  assert (Hb : Forall (fun y => y < 2 ^ 63 - 1) (sort_desc (map pack_size packs))).
  { eapply Permutation_Forall; [apply sort_desc_perm|].
    apply Forall_map. eapply Forall_impl; [|exact Hv].
    unfold valid_pack_size. intros; lia. }
  pose proof (second_largest_bounds _ Hl) as HS.
  pose proof (largest_nonneg _ Hl) as HL.
  assert (Hlt : second_largest (map pack_size packs) < 2 ^ 63 - 1).
  { unfold second_largest.
    destruct (sort_desc (map pack_size packs)) as [|a [|b t]]; simpl; try lia.
    inversion Hb as [|? ? _ Hb']; inversion Hb'; assumption. }
  unfold get_auto_pack_size.
  rewrite auto_pack_size_loop by (auto; lia).
  replace (Z.max 0 _) with (second_largest (map pack_size packs)) by lia.
  rewrite to_off_t_id by lia.
  destruct (Z.gtb_spec (second_largest (map pack_size packs) + 1) TWO_GIGABYTES);
    lia.
Qed.

(** C4. For every multiset of pack sizes (sizes being real file sizes),
    [get_auto_pack_size] is the second-largest size plus one, capped at
    2 GiB - 1 = 2147483647, and the answer does not depend on the order in
    which the packs are listed; packs of 1 GiB and 100 MiB give 100 MiB + 1,
    packs of 3 GiB and 2.5 GiB give 2147483647. *)
Theorem get_auto_pack_size_second_largest (packs : list packed_git) :
  Forall valid_pack_size packs ->
  get_auto_pack_size packs
  = Z.min (second_largest (map pack_size packs) + 1) TWO_GIGABYTES /\
  (forall packs', Permutation packs packs' ->
                  get_auto_pack_size packs' = get_auto_pack_size packs) /\
  (map pack_size packs = [GiB; 100 * MiB] ->
   get_auto_pack_size packs = 100 * MiB + 1) /\
  (map pack_size packs = [3 * GiB; 2560 * MiB] ->
   get_auto_pack_size packs = 2147483647).
Proof.
  intros Hv. pose proof (get_auto_pack_size_formula packs Hv) as F.
  split; [exact F|]. split; [|split].
  - intros packs' HP.
    assert (Hv' : Forall valid_pack_size packs')
      by (eapply Permutation_Forall; eassumption).
    rewrite F, (get_auto_pack_size_formula packs' Hv').
    assert (Hl : Forall (fun y => 0 <= y) (map pack_size packs)).
    { apply Forall_map. eapply Forall_impl; [|exact Hv].
      unfold valid_pack_size. intros; lia. }
    destruct (top2_permutation _ _ (Permutation_map pack_size HP) Hl)
      as [_ E].
    rewrite E. reflexivity.
  - intros E. rewrite F, E. reflexivity.
  - intros E. rewrite F, E. reflexivity.
Qed.

Lemma get_auto_pack_size_1GiB_100MiB :
  get_auto_pack_size
    [pack_of_size "pack-a.pack" GiB; pack_of_size "pack-b.pack" (100 * MiB)]
  = 100 * MiB + 1 /\
  get_auto_pack_size
    [pack_of_size "pack-b.pack" (100 * MiB); pack_of_size "pack-a.pack" GiB]
  = 100 * MiB + 1.
Proof.
  assert (Hv : Forall valid_pack_size
                 [pack_of_size "pack-a.pack" GiB;
                  pack_of_size "pack-b.pack" (100 * MiB)]).
  { repeat constructor; vm_compute; congruence. }
  destruct (get_auto_pack_size_second_largest _ Hv) as (_ & P & E & _).
  split.
  - apply E. reflexivity.
  - rewrite (P [pack_of_size "pack-b.pack" (100 * MiB);
                pack_of_size "pack-a.pack" GiB]).
    + apply E. reflexivity.
    + apply perm_swap.
Defined.

Example get_auto_pack_size_3GiB_2_5GiB :
get_auto_pack_size
  [pack_of_size "pack-a.pack" (3 * GiB); pack_of_size "pack-b.pack" (2560 * MiB)]
= 2147483647.
Proof. reflexivity. Qed.

(** ** The loose-object density probe *)











(** ** need_to_gc *)

Lemma need_to_gc_disabled r pf st :
  gc_auto_threshold st <= 0 -> need_to_gc r pf st = (0, st).
Proof.
  intros H. unfold need_to_gc.
  destruct (Z.leb_spec (gc_auto_threshold st) 0); [reflexivity | lia].
Qed.

Lemma need_to_gc_nothing_to_do r pf st :
  too_many_packs r st = 0 -> too_many_loose_objects r st = 0 ->
  need_to_gc r pf st = (0, st).
Proof.
  intros Hp Hl. unfold need_to_gc. rewrite Hp, Hl. simpl.
  destruct (gc_auto_threshold st <=? 0); reflexivity.
Qed.

Lemma need_to_gc_incremental r pf st :
  0 < gc_auto_threshold st ->
  too_many_packs r st = 0 -> too_many_loose_objects r st <> 0 ->
  need_to_gc r pf st =
  (if run_hook_pre_auto_gc pf =? 0 then 1 else 0,
   add_repack_incremental_option st).
Proof.
  intros Hg Hp Hl. unfold need_to_gc. rewrite Hp.
  destruct (Z.leb_spec (gc_auto_threshold st) 0); [lia|].
  destruct (Z.eqb_spec (too_many_loose_objects r st) 0); [contradiction|].
  simpl. destruct (run_hook_pre_auto_gc pf =? 0); reflexivity.
Qed.

Lemma need_to_gc_all r pf st :
  0 < gc_auto_threshold st -> too_many_packs r st <> 0 ->
  need_to_gc r pf st =
  (if run_hook_pre_auto_gc pf =? 0 then 1 else 0,
   add_repack_all_option (Some (fst (need_to_gc_keep_pack r pf st)))
     (snd (need_to_gc_keep_pack r pf st))).
Proof.
  intros Hg Hp. unfold need_to_gc.
  destruct (Z.leb_spec (gc_auto_threshold st) 0); [lia|].
  destruct (Z.eqb_spec (too_many_packs r st) 0); [contradiction|].
  simpl. destruct (need_to_gc_keep_pack r pf st) as [keep_pack st1].
  simpl. destruct (run_hook_pre_auto_gc pf =? 0); reflexivity.
Qed.

(** C10. When objects/17 cannot be opened the probe answers 0 whatever the
    other buckets hold, so the loose-object trigger does not fire: with the
    pack count within its limit [need_to_gc] is false and queues nothing. *)
Theorem too_many_loose_objects_unopened_bucket r st :
  repo_readdir r "objects/17" = None ->
  too_many_loose_objects r st = 0 /\
  (forall pf, too_many_packs r st = 0 -> need_to_gc r pf st = (0, st)).
Proof.
  intros H.
  assert (E : too_many_loose_objects r st = 0).
  { unfold too_many_loose_objects. rewrite H. reflexivity. }
  split; [exact E|].
  intros pf Hp. apply need_to_gc_nothing_to_do; assumption.
Qed.

Lemma too_many_loose_objects_unopened_bucket_witness :
  too_many_loose_objects repo_no_bucket_17 default_gc_state = 0 /\
  need_to_gc repo_no_bucket_17 (lp64 1000 0 0) default_gc_state
  = (0, default_gc_state).
Proof.
  destruct (too_many_loose_objects_unopened_bucket
              repo_no_bucket_17 default_gc_state eq_refl) as [H1 H2].
  split; [exact H1|]. apply H2. reflexivity.
Defined.



(** C6. [need_to_gc] is false whenever gc.auto <= 0, whatever the
    repository holds; and when the pack count or the loose-object probe
    triggers, it is true exactly when the pre-auto-gc hook exits with 0: a
    non-zero exit makes it false. *)
Theorem need_to_gc_auto_and_hook r pf st :
  (gc_auto_threshold st <= 0 -> need_to_gc r pf st = (0, st)) /\
  (0 < gc_auto_threshold st ->
   too_many_packs r st <> 0 \/ too_many_loose_objects r st <> 0 ->
   fst (need_to_gc r pf st) = if run_hook_pre_auto_gc pf =? 0 then 1 else 0) /\
  (run_hook_pre_auto_gc pf <> 0 -> fst (need_to_gc r pf st) = 0).
Proof.
  split; [apply need_to_gc_disabled|]. split.
  - intros Hg [Hp | Hl].
    + rewrite need_to_gc_all by assumption. reflexivity.
    + destruct (Z.eq_dec (too_many_packs r st) 0) as [Hp | Hp].
      * rewrite need_to_gc_incremental by assumption. reflexivity.
      * rewrite need_to_gc_all by assumption. reflexivity.
  - intros Hk.
    assert (Hk' : (run_hook_pre_auto_gc pf =? 0) = false)
      by (apply Z.eqb_neq; exact Hk).
    destruct (Z_le_gt_dec (gc_auto_threshold st) 0) as [Hg | Hg].
    + rewrite need_to_gc_disabled by assumption. reflexivity.
    + destruct (Z.eq_dec (too_many_packs r st) 0) as [Hp | Hp].
      * destruct (Z.eq_dec (too_many_loose_objects r st) 0) as [Hl | Hl].
        -- rewrite need_to_gc_nothing_to_do by assumption. reflexivity.
        -- rewrite need_to_gc_incremental by (lia || assumption).
           rewrite Hk'. reflexivity.
      * rewrite need_to_gc_all by (lia || assumption).
        rewrite Hk'. reflexivity.
Qed.

Lemma need_to_gc_auto_and_hook_witness :
  need_to_gc repo_260_loose (lp64 1000 0 0)
    (mk_gc_state 0 50 0 0 None []) = (0, mk_gc_state 0 50 0 0 None []) /\
  fst (need_to_gc repo_260_loose (lp64 1000 0 1) default_gc_state) = 0.
Proof.
  split.
  - apply (need_to_gc_auto_and_hook repo_260_loose (lp64 1000 0 0)
             (mk_gc_state 0 50 0 0 None [])).
    vm_compute; discriminate.
  - apply (need_to_gc_auto_and_hook repo_260_loose (lp64 1000 0 1)
             default_gc_state).
    vm_compute; discriminate.
Defined.

(** ** The memory gate of need_to_gc *)

Lemma count_repackable_none packs : forall c,
  (forall q, In q packs -> pack_local q = false) ->
  fold_left
    (fun cnt p =>
       if negb (pack_local p) then cnt
       else if pack_keep p then cnt else cnt + 1) packs c = c.
Proof.
  induction packs as [|p packs IH]; intros c H; [reflexivity|].
  simpl. rewrite (H p) by (left; reflexivity). simpl.
  apply IH. intros q Hq. apply H. right. exact Hq.
Qed.

Lemma too_many_packs_local r st :
  too_many_packs r st <> 0 ->
  exists q, In q (get_all_packs r) /\ pack_local q = true.
Proof.
  intros H.
  destruct (existsb pack_local (get_all_packs r)) eqn:E.
  - apply existsb_exists in E. exact E.
  - exfalso. apply H. unfold too_many_packs, count_repackable.
    rewrite count_repackable_none.
    + destruct (Z.leb_spec (gc_auto_pack_limit st) 0); [reflexivity|].
      destruct (Z.ltb_spec (gc_auto_pack_limit st) 0); [lia | reflexivity].
    + intros q Hq. destruct (pack_local q) eqn:Eq; [|reflexivity].
      assert (X : existsb pack_local (get_all_packs r) = true).
      { apply existsb_exists. exists q. split; assumption. }
      congruence.
Qed.

Lemma find_base_packs_step_no_limit acc base p :
  find_base_packs_step 0 (acc, base) p =
  (acc,
   if pack_local p then
     match base with
     | None => Some p
     | Some b => if pack_size b <? pack_size p then Some p else Some b
     end
   else base).
Proof.
  unfold find_base_packs_step. destruct (pack_local p); [|reflexivity].
  cbn [negb]. change (negb (0 =? 0)) with false. cbv iota.
  destruct base as [b|]; [|reflexivity].
  destruct (pack_size b <? pack_size p); reflexivity.
Qed.

(** The loop of [find_base_packs] without a limit: the list is left alone
    and [base] ends on a largest local pack. *)
Lemma find_base_packs_loop packs : forall acc base,
  let res := fold_left (find_base_packs_step 0) packs (acc, base) in
  fst res = acc /\
  match snd res with
  | None => base = None /\ forall q, In q packs -> pack_local q = false
  | Some P =>
      (Some P = base \/ (In P packs /\ pack_local P = true)) /\
      (forall b, base = Some b -> pack_size b <= pack_size P) /\
      (forall q, In q packs -> pack_local q = true ->
                 pack_size q <= pack_size P)
  end.
Proof.
  induction packs as [|p packs IH]; intros acc base.
  - simpl. split; [reflexivity|]. destruct base as [b|].
    + split; [left; reflexivity|]. split.
      * intros b' E. inversion E. lia.
      * intros q [].
    + split; [reflexivity|]. intros q [].
  - cbn [fold_left]. rewrite find_base_packs_step_no_limit.
    destruct (pack_local p) eqn:Lp.
    + assert (Step : forall base',
        (base' = Some p \/ base' = base) ->
        (forall b, base = Some b -> exists b', base' = Some b' /\
                                    pack_size b <= pack_size b') ->
        (exists b', base' = Some b' /\ pack_size p <= pack_size b') ->
        let res := fold_left (find_base_packs_step 0) packs (acc, base') in
        fst res = acc /\
        match snd res with
        | None => base = None /\
                  forall q, In q (p :: packs) -> pack_local q = false
        | Some P =>
            (Some P = base \/ (In P (p :: packs) /\ pack_local P = true)) /\
            (forall b, base = Some b -> pack_size b <= pack_size P) /\
            (forall q, In q (p :: packs) -> pack_local q = true ->
                       pack_size q <= pack_size P)
        end).
      { intros base' Hb' Hmono Hp. specialize (IH acc base').
        cbv zeta in IH. cbv zeta. destruct IH as [IH1 IH2].
        split; [exact IH1|].
        destruct (snd (fold_left (find_base_packs_step 0) packs (acc, base')))
          as [P|].
        - destruct IH2 as (I1 & I2 & I3). split; [|split].
          + destruct I1 as [I1 | [I1 I1']].
            * destruct Hb' as [Hb' | Hb'].
              -- right. rewrite Hb' in I1. inversion I1. subst P.
                 split; [left; reflexivity | exact Lp].
              -- left. congruence.
            * right. split; [right; exact I1 | exact I1'].
          + intros b Eb. destruct (Hmono b Eb) as (b' & Eb' & Le).
            specialize (I2 b' Eb'). lia.
          + intros q [Hq | Hq] Lq.
            * subst q. destruct Hp as (b' & Eb' & Le).
              specialize (I2 b' Eb'). lia.
            * apply I3; assumption.
        - destruct IH2 as [I1 I2]. destruct Hp as (b' & Eb' & _). congruence. }
      destruct base as [b|].
      * destruct (Z.ltb_spec (pack_size b) (pack_size p)).
        -- apply Step.
           ++ left; reflexivity.
           ++ intros b0 E. inversion E. subst b0. exists p. split; [reflexivity | lia].
           ++ exists p. split; [reflexivity | lia].
        -- apply Step.
           ++ right; reflexivity.
           ++ intros b0 E. inversion E. subst b0. exists b. split; [reflexivity | lia].
           ++ exists b. split; [reflexivity | lia].
      * apply Step.
        -- left; reflexivity.
        -- intros b0 E. discriminate.
        -- exists p. split; [reflexivity | lia].
    + specialize (IH acc base). cbv zeta in IH. cbv zeta.
      destruct IH as [IH1 IH2]. split; [exact IH1|].
      destruct (snd (fold_left (find_base_packs_step 0) packs (acc, base)))
        as [P|].
      * destruct IH2 as (I1 & I2 & I3). split; [|split].
        -- destruct I1 as [I1 | [I1 I1']]; [left; exact I1|].
           right. split; [right; exact I1 | exact I1'].
        -- exact I2.
        -- intros q [Hq | Hq] Lq; [subst q; congruence|]. apply I3; assumption.
      * destruct IH2 as [I1 I2]. split; [exact I1|].
        intros q [Hq | Hq]; [subst q; exact Lp|]. apply I2; exact Hq.
Qed.

Lemma find_base_packs_largest r :
  (exists q, In q (get_all_packs r) /\ pack_local q = true) ->
  exists P, largest_local_pack r P /\
            find_base_packs r [] 0 = ([pack_name P], Some P).
Proof.
  intros (q & Hq & Lq). unfold find_base_packs.
  pose proof (find_base_packs_loop (get_all_packs r) [] None) as H.
  cbv zeta in H.
  destruct (fold_left (find_base_packs_step 0) (get_all_packs r) ([], None))
    as [packs' base].
  simpl in H. destruct H as [H1 H2]. subst packs'.
  destruct base as [P|].
  - exists P. destruct H2 as (I1 & _ & I3).
    destruct I1 as [I1 | [I1 I1']]; [discriminate|].
    split; [|reflexivity]. repeat split; assumption.
  - destruct H2 as [_ H2]. rewrite (H2 q Hq) in Lq. discriminate.
Qed.

Lemma repack_keep_one_pack items : forall st,
  repack (fold_left (fun s item => keep_one_pack item s) items st) =
  repack st
  ++ map (fun item => ("--keep-pack=" ++ CStr.basename item)%string) items.
Proof.
  induction items as [|i items IH]; intros st.
  - simpl. rewrite app_nil_r. reflexivity.
  - cbn [fold_left map]. rewrite IH. unfold keep_one_pack, argv_array_push.
    cbn [repack]. rewrite <- app_assoc. reflexivity.
Qed.

Lemma repack_add_repack_all_option items st :
  repack (add_repack_all_option (Some items) st) =
  repack (add_repack_all_option None st)
  ++ map (fun item => ("--keep-pack=" ++ CStr.basename item)%string) items.
Proof. unfold add_repack_all_option. apply repack_keep_one_pack. Qed.

(** C2 (amended). When the pack count exceeds its limit and
    gc.bigPackThreshold is 0, the largest local pack [P] stays on the keep
    list, and one --keep-pack argument for it is queued, exactly when the RAM
    probe is not 0 and the estimated working set [W] is at least half of it,
    [W >= total_ram / 2] in integer division; otherwise the keep list is
    cleared and no --keep-pack is queued. *)
Theorem need_to_gc_memory_gate r pf st :
  0 < gc_auto_threshold st ->
  too_many_packs r st <> 0 ->
  big_pack_threshold st = 0 ->
  0 <= total_ram pf ->
  exists P, largest_local_pack r P /\
    let W := estimate_repack_memory pf st (Some P) in
    let kept := negb (total_ram pf =? 0) && (total_ram pf / 2 <=? W) in
    need_to_gc_keep_pack r pf st
    = (if kept then [pack_name P] else [], st) /\
    repack (snd (need_to_gc r pf st))
    = repack (add_repack_all_option None st)
      ++ (if kept
          then [("--keep-pack=" ++ CStr.basename (pack_name P))%string]
          else []).
Proof.
  intros Hg Hp Hb Hr.
  destruct (find_base_packs_largest r (too_many_packs_local r st Hp))
    as (P & HP & Hf).
  exists P. split; [exact HP|]. cbv zeta.
  assert (K : need_to_gc_keep_pack r pf st
              = (if negb (total_ram pf =? 0)
                    && (total_ram pf / 2 <=? estimate_repack_memory pf st (Some P))
                 then [pack_name P] else [], st)).
  { unfold need_to_gc_keep_pack. rewrite Hb. cbn [Z.eqb negb]. cbv iota.
    rewrite Hf. unfold CInt.cdiv. rewrite Z.quot_div_nonneg by lia.
    destruct (Z.eqb_spec (total_ram pf) 0) as [E|E]; [reflexivity|].
    cbn [negb orb andb].
    destruct (Z.ltb_spec (estimate_repack_memory pf st (Some P))
                (total_ram pf / 2));
      destruct (Z.leb_spec (total_ram pf / 2)
                  (estimate_repack_memory pf st (Some P)));
      try reflexivity; lia. }
  split; [exact K|].
  rewrite need_to_gc_all by assumption. cbn [snd]. rewrite K. cbn [fst snd].
  rewrite repack_add_repack_all_option.
  destruct (negb (total_ram pf =? 0)
            && (total_ram pf / 2 <=? estimate_repack_memory pf st (Some P)));
    reflexivity.
Qed.

Lemma need_to_gc_memory_gate_witness :
  exists P, largest_local_pack repo_80_packs P /\
    repack (snd (need_to_gc repo_80_packs (lp64 100000 932533504 0)
                   default_gc_state))
    = repack (add_repack_all_option None default_gc_state)
      ++ (if negb (932533504 =? 0)
             && (932533504 / 2
                 <=? estimate_repack_memory (lp64 100000 932533504 0)
                       default_gc_state (Some P))
          then [("--keep-pack=" ++ CStr.basename (pack_name P))%string]
          else []).
Proof.
  destruct (need_to_gc_memory_gate repo_80_packs (lp64 100000 932533504 0)
              default_gc_state)
    as (P & HP & _ & H).
  - reflexivity.
  - vm_compute. discriminate.
  - reflexivity.
  - vm_compute. discriminate.
  - exists P. split; [exact HP | exact H].
Defined.

(** C2 as stated fails when the working set is exactly half of the RAM:
    [W * 2 > total_ram] is false, yet the largest pack is kept. *)
Lemma need_to_gc_memory_gate_counterexample :
  let r := repo_80_packs in
  let pf := lp64 100000 932533504 0 in
  let st := default_gc_state in
  let W := estimate_repack_memory pf st (Some (pack_number 79)) in
  too_many_packs r st = 1 /\ big_pack_threshold st = 0 /\
  largest_local_pack r (pack_number 79) /\
  W = 466266752 /\ total_ram pf = 932533504 /\
  ~ (W * 2 > total_ram pf) /\
  fst (need_to_gc_keep_pack r pf st) = [pack_name (pack_number 79)] /\
  repack (snd (need_to_gc r pf st))
  = ["repack"; "-d"; "-l"; "-A"; "--unpack-unreachable=2.weeks.ago";
     "--keep-pack=pack-0000000000000000000000000000000000004f.pack"].
Proof.
  cbv zeta. split; [reflexivity|]. split; [reflexivity|]. split.
  - split; [|split].
    + vm_compute. do 79 right. left. reflexivity.
    + reflexivity.
    + intros q Hq _. unfold repo_80_packs in Hq. cbn [get_all_packs] in Hq.
      apply in_map_iff in Hq. destruct Hq as (n & <- & Hn).
      apply in_seq in Hn. unfold pack_number. cbn [pack_size]. lia.
  - split; [vm_compute; reflexivity|]. split; [reflexivity|]. split.
    + vm_compute. discriminate.
    + split; vm_compute; reflexivity.
Qed.

(** ** The pid-file lock *)

Lemma should_exit_held e pid host :
  should_exit e = Some (pid, host) <-> held_by_live_run e host pid.
Proof.
  unfold should_exit, held_by_live_run. split.
  - destruct (fopen_pidfile e) as [f|] eqn:Ef; [|discriminate].
    destruct (pid_st_mtime f) as [m|] eqn:Em; [|discriminate].
    destruct (Z.leb_spec (time_now e - m) (12 * 3600)) as [Ht|Ht];
      [|discriminate].
    destruct (fscanf_pid_host (HOST_NAME_MAX e) (pid_content f))
      as [[p h]|] eqn:Es; [|discriminate].
    destruct (String.eqb_spec h (my_host e)) as [Eh|Eh]; cbn [negb].
    + destruct (kill0 e (CInt.to_int p)) as [errno|] eqn:Ek.
      * destruct (Z.eqb_spec errno EPERM) as [Ee|Ee]; [|discriminate].
        intros H. inversion H. subst.
        exists f, m. split; [reflexivity|]. split; [exact Em|].
        split; [exact Es|]. split; [exact Ht|]. right. right. exact Ek.
      * intros H. inversion H. subst.
        exists f, m. split; [reflexivity|]. split; [exact Em|].
        split; [exact Es|]. split; [exact Ht|]. right. left. exact Ek.
    + intros H. inversion H. subst.
      exists f, m. split; [reflexivity|]. split; [exact Em|].
      split; [exact Es|]. split; [exact Ht|]. left. exact Eh.
  - intros (f & m & Hf & Hm & Hs & Ht & Hk). rewrite Hf, Hm, Hs.
    destruct (Z.leb_spec (time_now e - m) (12 * 3600)); [|lia].
    destruct (String.eqb_spec host (my_host e)) as [Eh|Eh]; cbn [negb];
      [|reflexivity].
    destruct Hk as [Hk | [Hk | Hk]]; [contradiction | |]; rewrite Hk;
      reflexivity.
Qed.

Lemma lock_repo_for_gc_checked e :
  is_tempfile_active_pidfile e = false -> lock_file_free e = true ->
  lock_repo_for_gc false e =
  match should_exit e with
  | Some (pid, locking_host) => LockHeld locking_host (CInt.to_int pid)
  | None => LockAcquired (CStr.decimal (getpid e) ++ " " ++ my_host e)%string
  end.
Proof.
  intros Ha Hl. unfold lock_repo_for_gc. rewrite Ha, Hl. reflexivity.
Qed.

(** C3. Without --force, for a caller that does not hold the pid file yet
    and has taken gc.pid.lock, [lock_repo_for_gc] reports the repository as
    held (the holder's host and pid, nothing acquired) if and only if the pid
    file parses as "<pid> <host>", its mtime is within 12 hours of now, and
    the host differs from the local one or [kill(pid, 0)] succeeds or fails
    with EPERM.  A pid file older than 12 hours, or one that records a dead
    pid on the local host, is reclaimed: the caller's own record is
    written. *)
Theorem lock_repo_for_gc_held e :
  is_tempfile_active_pidfile e = false ->
  lock_file_free e = true ->
  (forall host pid,
     lock_repo_for_gc false e = LockHeld host pid <->
     exists upid, pid = CInt.to_int upid /\ held_by_live_run e host upid) /\
  ((exists host pid, lock_repo_for_gc false e = LockHeld host pid) <->
   (exists host upid, held_by_live_run e host upid)) /\
  (forall f st_mtime,
     fopen_pidfile e = Some f -> pid_st_mtime f = Some st_mtime ->
     time_now e - st_mtime > 12 * 3600 \/
     (exists upid errno,
        fscanf_pid_host (HOST_NAME_MAX e) (pid_content f)
        = Some (upid, my_host e) /\
        kill0 e (CInt.to_int upid) = Some errno /\ errno <> EPERM) ->
     lock_repo_for_gc false e
     = LockAcquired (CStr.decimal (getpid e) ++ " " ++ my_host e)%string).
Proof.
  intros Ha Hl. rewrite (lock_repo_for_gc_checked e Ha Hl).
  assert (A : forall host pid,
    match should_exit e with
    | Some (p, h) => LockHeld h (CInt.to_int p)
    | None => LockAcquired (CStr.decimal (getpid e) ++ " " ++ my_host e)%string
    end = LockHeld host pid <->
    exists upid, pid = CInt.to_int upid /\ held_by_live_run e host upid).
  { intros host pid. split.
    - destruct (should_exit e) as [[p h]|] eqn:E; [|discriminate].
      intros H. inversion H. subst. exists p. split; [reflexivity|].
      apply should_exit_held. exact E.
    - intros (upid & -> & H). apply should_exit_held in H. rewrite H.
      reflexivity. }
  split; [exact A|]. split.
  - split.
    + intros (host & pid & H). apply A in H. destruct H as (upid & _ & H).
      exists host, upid. exact H.
    + intros (host & upid & H). exists host, (CInt.to_int upid).
      apply A. exists upid. split; [reflexivity | exact H].
  - intros f m Hf Hm Hstale.
    destruct (should_exit e) as [[p h]|] eqn:E; [|reflexivity].
    exfalso. apply should_exit_held in E.
    destruct E as (f' & m' & Hf' & Hm' & Hs & Ht & Hk).
    rewrite Hf in Hf'. inversion Hf'. subst f'.
    rewrite Hm in Hm'. inversion Hm'. subst m'.
    destruct Hstale as [Hold | (upid & errno & Hs' & Hk' & Hne)]; [lia|].
    rewrite Hs in Hs'. inversion Hs'. subst p h.
    destruct Hk as [Hk | [Hk | Hk]]; [apply Hk; reflexivity | |]; congruence.
Qed.

Lemma lock_repo_for_gc_held_witness :
  lock_repo_for_gc false (lock_scene "buildhost" 3600 None)
  = LockHeld "buildhost" 4242 /\
  lock_repo_for_gc false (lock_scene "buildhost" 3600 (Some EPERM))
  = LockHeld "buildhost" 4242 /\
  lock_repo_for_gc false (lock_scene "laptop" 3600 (Some ESRCH))
  = LockHeld "buildhost" 4242 /\
  lock_repo_for_gc false (lock_scene "buildhost" 3600 (Some ESRCH))
  = LockAcquired "5000 buildhost" /\
  lock_repo_for_gc false (lock_scene "laptop" 43201 None)
  = LockAcquired "5000 laptop".
Proof.
  assert (Held : forall host_now alive,
    host_now <> "buildhost" \/ alive = None \/ alive = Some EPERM ->
    lock_repo_for_gc false (lock_scene host_now 3600 alive)
    = LockHeld "buildhost" 4242).
  { intros host_now alive H.
    apply (lock_repo_for_gc_held (lock_scene host_now 3600 alive)
             eq_refl eq_refl).
    exists 4242. split; [reflexivity|].
    exists (mk_pid_file (Some (1700000000 - 3600)) "4242 buildhost"),
           (1700000000 - 3600).
    repeat split; try reflexivity.
    - vm_compute. discriminate.
    - destruct H as [H | H]; [left; cbn; congruence | right; exact H]. }
  split; [apply Held; right; left; reflexivity|].
  split; [apply Held; right; right; reflexivity|].
  split; [apply Held; left; discriminate|].
  split.
  - destruct (lock_repo_for_gc_held (lock_scene "buildhost" 3600 (Some ESRCH))
                eq_refl eq_refl) as (_ & _ & R).
    apply (R (mk_pid_file (Some (1700000000 - 3600)) "4242 buildhost")
             (1700000000 - 3600) eq_refl eq_refl).
    right. exists 4242, ESRCH. repeat split; try reflexivity.
    vm_compute. discriminate.
  - destruct (lock_repo_for_gc_held (lock_scene "laptop" 43201 None)
                eq_refl eq_refl) as (_ & _ & R).
    apply (R (mk_pid_file (Some (1700000000 - 43201)) "4242 buildhost")
             (1700000000 - 43201) eq_refl eq_refl).
    left. vm_compute. reflexivity.
Defined.

(** ** The previous-failure gate *)

Lemma string_app_assoc (a b c : string) :
  (a ++ (b ++ c) = (a ++ b) ++ c)%string.
Proof.
  induction a as [|x a IH]; [reflexivity|]. cbn [String.append].
  rewrite IH. reflexivity.
Qed.

Lemma report_last_gc_error_cases log expire :
  report_last_gc_error log expire =
  match gc_log_stat log with
  | StatFail errno =>
      if errno =? ENOENT then (0, [])
      else (-1, [Error ("cannot stat '" ++ gc_log_path log ++ "'")%string])
  | StatOk m =>
      if CInt.to_u64 m <? expire then (0, [])
      else
        match gc_log_read log with
        | ReadFail _ =>
            (-1, [Error ("cannot read '" ++ gc_log_path log ++ "'")%string])
        | ReadOk EmptyString => (0, [])
        | ReadOk content =>
            (1, [Warning (last_gc_warning (gc_log_path log) content)])
        end
  end.
Proof.
  unfold report_last_gc_error, error_errno.
  destruct (gc_log_stat log) as [m | errno]; [|reflexivity].
  destruct (CInt.to_u64 m <? expire); [reflexivity|].
  destruct (gc_log_read log) as [content | errno]; [|reflexivity].
  destruct content as [|c content]; [reflexivity|].
  unfold CStr.strlen. cbn [String.length].
  destruct (Z.gtb_spec (Z.of_nat (S (String.length content))) 0);
    [reflexivity | lia].
Qed.

(** A [time_t] before the epoch, converted for the comparison with the
    unsigned horizon, is a number of 2^63 or more. *)
Lemma to_u64_before_epoch m :
  - 2 ^ 63 <= m < 0 -> CInt.to_u64 m = m + 2 ^ 64.
Proof.
  intros H. unfold CInt.to_u64, CInt.wrap_unsigned.
  rewrite <- (Z.mod_add m 1 (2 ^ 64)) by lia.
  rewrite Z.mul_1_l. apply Z.mod_small. lia.
Qed.

(** C7 on the code.  Under gc --auto with detach enabled, once auto-gc is
    found necessary, the gate compares the mtime of gc.log with the
    gc.logexpiry horizon as unsigned numbers.  For a gc.log last written at
    or after the epoch this is the claim: non-empty and not older than the
    horizon, a warning that quotes its contents and exit status 0, nothing
    of what follows the gate being done; a failure to stat (other than the
    file being absent) or to read it, exit status 128; absent, empty or
    older than the horizon, the run goes on.  For a gc.log last written
    before the epoch the claim fails: the file is older than any horizon,
    and yet it is read, a non-empty one stopping the run with the warning
    all the same. *)
Theorem cmd_gc_previous_failure_gate quiet r pf st log expire rest :
  fst (need_to_gc r pf st) = 1 ->
  let run := cmd_gc_auto quiet true r pf st log expire rest in
  let msgs := auto_messages quiet true in
  let st' := snd (need_to_gc r pf st) in
  let refused content :=
    (0, msgs ++ [Warning (last_gc_warning (gc_log_path log) content)]) in
  (forall m content,
     gc_log_stat log = StatOk m -> 0 <= m < 2 ^ 63 -> expire <= m ->
     gc_log_read log = ReadOk content -> content <> "" ->
     run = refused content
     /\ exists intro, last_gc_warning (gc_log_path log) content
                      = (intro ++ content)%string) /\
  ((exists errno, gc_log_stat log = StatFail errno /\ errno <> ENOENT) \/
   (exists m errno, gc_log_stat log = StatOk m /\ 0 <= m < 2 ^ 63 /\
                    expire <= m /\ gc_log_read log = ReadFail errno) ->
   exists text, run = (128, msgs ++ [Error text])) /\
  (gc_log_stat log = StatFail ENOENT \/
   (exists m, gc_log_stat log = StatOk m /\ gc_log_read log = ReadOk "") \/
   (exists m, gc_log_stat log = StatOk m /\ 0 <= m < 2 ^ 63 /\ m < expire) ->
   run = (fst (rest st'), msgs ++ snd (rest st'))) /\
  (forall m,
     gc_log_stat log = StatOk m -> - 2 ^ 63 <= m < 0 ->
     0 <= expire <= 2 ^ 63 ->
     m < expire /\
     (forall content,
        gc_log_read log = ReadOk content -> content <> "" ->
        run = refused content) /\
     (forall errno,
        gc_log_read log = ReadFail errno ->
        exists text, run = (128, msgs ++ [Error text]))).
Proof.
  intros Hneed. cbv zeta. unfold cmd_gc_auto.
  destruct (need_to_gc r pf st) as [need st1]. cbn [fst snd] in *. subst need.
  change (1 =? 0) with false. cbv iota.
  rewrite (report_last_gc_error_cases log expire).
  split; [|split; [|split]].
  - intros m content Hs Hm He Hr Hc. rewrite Hs, Hr.
    rewrite to_u64_id by lia.
    destruct (Z.ltb_spec m expire); [lia|].
    destruct content as [|c content]; [congruence|].
    split; [reflexivity|]. unfold last_gc_warning.
    eexists. repeat rewrite string_app_assoc. reflexivity.
  - intros [(errno & Hs & Hne) | (m & errno & Hs & Hm & He & Hr)].
    + rewrite Hs. destruct (Z.eqb_spec errno ENOENT); [contradiction|].
      eexists. reflexivity.
    + rewrite Hs, Hr. rewrite to_u64_id by lia.
      destruct (Z.ltb_spec m expire); [lia|].
      eexists. reflexivity.
  - intros [Hs | [(m & Hs & Hr) | (m & Hs & Hm & He)]].
    + rewrite Hs. cbn. destruct (rest st1). reflexivity.
    + rewrite Hs, Hr. destruct (CInt.to_u64 m <? expire); cbn;
        destruct (rest st1); reflexivity.
    + rewrite Hs. rewrite to_u64_id by lia.
      destruct (Z.ltb_spec m expire); [|lia].
      cbn. destruct (rest st1). reflexivity.
  - intros m Hs Hm He. split; [lia|].
    rewrite Hs. rewrite to_u64_before_epoch by exact Hm.
    destruct (Z.ltb_spec (m + 2 ^ 64) expire); [lia|]. split.
    + intros content Hr Hc. rewrite Hr.
      destruct content as [|c content]; [congruence|]. reflexivity.
    + intros errno Hr. rewrite Hr. eexists. reflexivity.
Qed.

(** The gate, the horizon being a day before [now = 1700000000]: at a
    gc.log written an hour ago, at one that cannot be examined, and at one
    written one second before the epoch, which is older than the horizon
    and refuses the run. *)
Lemma cmd_gc_previous_failure_gate_witness :
  cmd_gc_auto false true repo_260_loose (lp64 1000 0 0) default_gc_state
    gc_log_failed_an_hour_ago (1700000000 - 86400)
    (fun _ => (0, [Work "lock_repo_for_gc"; Work "repack"]))
  = (0, auto_messages false true
        ++ [Warning (last_gc_warning ".git/gc.log" "fatal: repack failed")]) /\
  (exists text,
     cmd_gc_auto false true repo_260_loose (lp64 1000 0 0) default_gc_state
       gc_log_unreadable (1700000000 - 86400)
       (fun _ => (0, [Work "lock_repo_for_gc"; Work "repack"]))
     = (128, auto_messages false true ++ [Error text])) /\
  -1 < 1700000000 - 86400 /\
  cmd_gc_auto false true repo_260_loose (lp64 1000 0 0) default_gc_state
    gc_log_before_epoch (1700000000 - 86400)
    (fun _ => (0, [Work "lock_repo_for_gc"; Work "repack"]))
  = (0, auto_messages false true
        ++ [Warning (last_gc_warning ".git/gc.log" "fatal: repack failed")]).
Proof.
  split; [|split].
  - destruct (cmd_gc_previous_failure_gate false repo_260_loose (lp64 1000 0 0)
                default_gc_state gc_log_failed_an_hour_ago
                (1700000000 - 86400)
                (fun _ => (0, [Work "lock_repo_for_gc"; Work "repack"]))
                eq_refl) as (Refused & _ & _ & _).
    apply (Refused (1700000000 - 3600) "fatal: repack failed" eq_refl).
    + lia.
    + lia.
    + reflexivity.
    + discriminate.
  - destruct (cmd_gc_previous_failure_gate false repo_260_loose (lp64 1000 0 0)
                default_gc_state gc_log_unreadable
                (1700000000 - 86400)
                (fun _ => (0, [Work "lock_repo_for_gc"; Work "repack"]))
                eq_refl) as (_ & Failed & _ & _).
    apply Failed. left. exists EIO. split; [reflexivity | discriminate].
  - destruct (cmd_gc_previous_failure_gate false repo_260_loose (lp64 1000 0 0)
                default_gc_state gc_log_before_epoch
                (1700000000 - 86400)
                (fun _ => (0, [Work "lock_repo_for_gc"; Work "repack"]))
                eq_refl) as (_ & _ & _ & Before).
    destruct (Before (-1) eq_refl) as (Older & Refused & _).
    + lia.
    + lia.
    + split; [exact Older|].
      apply (Refused "fatal: repack failed"); [reflexivity | discriminate].
Defined.

(** ** The fetch task *)

Lemma fetch_each_cmds {W} (env : maintenance_env W) opts remotes : forall w,
  snd (fetch_each env opts remotes w) = map (fetch_argv env opts) remotes.
Proof.
  induction remotes as [|item rest IH]; intros w; [reflexivity|].
  cbn [fetch_each map]. unfold fetch_remote.
  destruct (run_command_v_opt env _ w) as [result w'].
  specialize (IH w'). destruct (fetch_each env opts rest w') as [w'' cmds].
  cbn [snd] in *. rewrite IH. reflexivity.
Qed.

(** C8. The fetch task returns 0 whatever the fetch children return: once
    the remotes are enumerated, one fetch is run for every remote, in order,
    and the result is 0 for every behaviour of the children; when the
    enumeration of the remotes fails the task returns 1 and runs nothing. *)
Theorem maintenance_task_fetch_tolerant {W} (env : maintenance_env W) opts w :
  (forall remotes, for_each_remote env w = (0, remotes) ->
     exists w',
       maintenance_task_fetch env opts w
       = (0, w', map (fetch_argv env opts) remotes)) /\
  (forall failed remotes,
     for_each_remote env w = (failed, remotes) -> failed <> 0 ->
     maintenance_task_fetch env opts w = (1, w, [])).
Proof.
  split.
  - intros remotes H. unfold maintenance_task_fetch. rewrite H.
    change (negb (0 =? 0)) with false. cbv iota.
    pose proof (fetch_each_cmds env opts remotes w) as C.
    destruct (fetch_each env opts remotes w) as [w' cmds].
    cbn [snd] in C. subst cmds. exists w'. reflexivity.
  - intros failed remotes H Hne. unfold maintenance_task_fetch. rewrite H.
    destruct (Z.eqb_spec failed 0); [contradiction | reflexivity].
Qed.

Lemma maintenance_task_fetch_tolerant_witness :
  (exists w',
     maintenance_task_fetch offline_env (mk_opts 0 0 0) O
     = (0, w',
        map (fetch_argv offline_env (mk_opts 0 0 0)) ["origin"; "upstream"])) /\
  maintenance_task_fetch no_remotes_env (mk_opts 0 0 0) O = (1, O, []).
Proof.
  split.
  - apply (maintenance_task_fetch_tolerant offline_env (mk_opts 0 0 0) O).
    reflexivity.
  - apply (maintenance_task_fetch_tolerant no_remotes_env (mk_opts 0 0 0) O)
      with (failed := -1) (remotes := []); [reflexivity | discriminate].
Defined.

(** ** The maintenance driver *)

Lemma qsort_insert_perm {A}
    (compar : element_pointer A -> element_pointer A -> Z) size x l :
  forall at_, Permutation (x :: l) (qsort_insert compar size at_ x l).
Proof.
  induction l as [|y l IH]; intros at_; cbn [qsort_insert]; [reflexivity|].
  destruct (compar (at_, x) (at_ + size, y) <=? 0); [reflexivity|].
  rewrite perm_swap. apply perm_skip. apply IH.
Qed.

Lemma qsort_perm {A} (base : list A) size compar :
  forall at_, Permutation base (qsort at_ base size compar).
Proof.
  induction base as [|x l IH]; intros at_; cbn [qsort]; [constructor|].
  rewrite <- qsort_insert_perm. apply perm_skip. apply IH.
Qed.

Lemma QSORT_perm {A} size (base : list A) compar :
  Permutation base (QSORT size base compar).
Proof. apply qsort_perm. Qed.

(** Under --auto the loop never calls a task that has no auto condition. *)
Lemma run_tasks_auto_skips {W} (env : maintenance_env W) opts n tasks :
  auto_flag opts <> 0 ->
  (forall t, In t tasks -> name t = n -> auto_condition t = None) ->
  forall w, ~ In n (snd (run_tasks env opts tasks w)).
Proof.
  intros Ha. apply Z.eqb_neq in Ha.
  induction tasks as [|t rest IH]; intros Hn w; [intros []|].
  assert (Hrest : forall w', ~ In n (snd (run_tasks env opts rest w'))).
  { apply IH. intros t' Ht'. apply Hn. right. exact Ht'. }
  cbn [run_tasks]. rewrite Ha. cbn [negb].
  destruct (negb (tasks_selected opts =? 0) && negb (selected t));
    [apply Hrest|].
  destruct ((tasks_selected opts =? 0) && negb (enabled t)); [apply Hrest|].
  destruct (auto_condition t) as [c|] eqn:Ec; [|apply Hrest].
  assert (Hne : name t <> n).
  { intros E. rewrite (Hn t (or_introl eq_refl) E) in Ec. discriminate. }
  destruct (run_auto_condition env c w) as [holds w1].
  destruct (holds =? 0); [apply Hrest|].
  destruct (call_task_fn env opts (fn t) w1) as [result w2].
  destruct (negb (result =? 0)).
  - cbn [snd In]. intros [E | []]. exact (Hne E).
  - specialize (Hrest w2).
    destruct (run_tasks env opts rest w2) as [[result' w3] ran].
    cbn [snd In] in *. intros [E | E]; [exact (Hne E) | exact (Hrest E)].
Qed.

Lemma maintenance_run_auto_skips {W} (env : maintenance_env W) opts n tasks :
  auto_flag opts <> 0 ->
  (forall t, In t tasks -> name t = n -> auto_condition t = None) ->
  forall w, ~ In n (snd (maintenance_run env opts tasks w)).
Proof.
  intros Ha Hn w. unfold maintenance_run.
  destruct (maintenance_lock_free env w); cbn [negb]; [|intros []].
  destruct (negb (tasks_selected opts =? 0)).
  - apply run_tasks_auto_skips; [exact Ha|].
    intros t Ht. apply Hn.
    eapply Permutation_in; [symmetry; apply QSORT_perm | exact Ht].
  - apply run_tasks_auto_skips; assumption.
Qed.

(** Selecting a task leaves the names and the auto conditions alone. *)
Lemma update_task_identity f tasks :
  (forall t, task_identity (f t) = task_identity t) ->
  forall i, map task_identity (update_task i f tasks)
            = map task_identity tasks.
Proof.
  intros Hf. induction tasks as [|t rest IH]; intros i;
    [destruct i; reflexivity|].
  destruct i as [|i]; cbn [update_task map].
  - rewrite Hf. reflexivity.
  - rewrite IH. reflexivity.
Qed.

Lemma task_option_parse_identity arg opts tasks :
  map task_identity (snd (task_option_parse arg opts tasks))
  = map task_identity tasks.
Proof.
  unfold task_option_parse. destruct arg as [arg|]; [|reflexivity].
  destruct (CStr.strlen arg =? 0); [reflexivity|].
  destruct (hashmap_get_entry tasks arg) as [i|]; [|reflexivity].
  destruct (nth_error tasks i) as [task|]; [|reflexivity].
  destruct (selected task); [reflexivity|].
  cbn [snd]. apply update_task_identity. intros t. reflexivity.
Qed.

Lemma parse_options_identity args : forall opts tasks opts' tasks',
  parse_options args opts tasks = Some (opts', tasks') ->
  map task_identity tasks' = map task_identity tasks /\
  negb (auto_flag opts' =? 0)
  = auto_requested args (negb (auto_flag opts =? 0)).
Proof.
  unfold auto_requested.
  induction args as [|a args IH]; intros opts tasks opts' tasks' H.
  - inversion H. subst. split; reflexivity.
  - cbn [parse_options fold_left] in *. destruct a as [on | on | arg].
    + apply IH in H. destruct H as [H1 H2]. split; [exact H1|].
      rewrite H2. cbn [auto_flag]. destruct on; reflexivity.
    + apply IH in H. exact H.
    + pose proof (task_option_parse_identity (Some arg) opts tasks) as I.
      assert (A : auto_flag (snd (fst (task_option_parse (Some arg) opts tasks)))
                  = auto_flag opts).
      { unfold task_option_parse.
        destruct (CStr.strlen arg =? 0); [reflexivity|].
        destruct (hashmap_get_entry tasks arg) as [i|]; [|reflexivity].
        destruct (nth_error tasks i) as [task|]; [|reflexivity].
        destruct (selected task); reflexivity. }
      destruct (task_option_parse (Some arg) opts tasks)
        as [[failed opts1] tasks1].
      cbn [fst snd] in *.
      destruct (negb (failed =? 0)); [discriminate|].
      apply IH in H. destruct H as [H1 H2]. split; [congruence|].
      rewrite H2, A. reflexivity.
Qed.

Lemma initialize_tasks_identity {W} (env : maintenance_env W) :
  map task_identity (initialize_tasks env) =
  [("fetch", None);
   ("loose-objects", Some auto_loose_objects);
   ("pack-files", Some auto_pack_files);
   ("gc", Some auto_need_to_gc);
   ("commit-graph", Some auto_commit_graph)].
Proof.
  unfold initialize_tasks. rewrite map_map.
  assert (E : forall t,
    task_identity
      match repo_config_get_bool env
              ("maintenance." ++ name t ++ ".enabled")%string with
      | Some config_value => set_enabled config_value t
      | None => t
      end = task_identity t).
  { intros t. destruct (repo_config_get_bool env _); reflexivity. }
  cbn [map]. rewrite !E. reflexivity.
Qed.

Lemma task_identity_in n tasks ids :
  map task_identity tasks = ids ->
  (forall c, In (n, c) ids -> c = None) ->
  forall t, In t tasks -> name t = n -> auto_condition t = None.
Proof.
  intros Hm Hc t Ht Hn. apply Hc. rewrite <- Hm.
  apply in_map_iff. exists t. split; [|exact Ht].
  unfold task_identity. rewrite Hn. reflexivity.
Qed.

(** C9. Under maintenance run --auto a task whose record has no auto
    condition is never run, be it enabled or selected with --task; the fetch
    task is registered without one, so no command line that leaves --auto
    in force runs it. *)
Theorem maintenance_run_auto_needs_condition {W} (env : maintenance_env W) :
  (forall opts tasks n w,
     auto_flag opts <> 0 ->
     (forall t, In t tasks -> name t = n -> auto_condition t = None) ->
     ~ In n (snd (maintenance_run env opts tasks w))) /\
  (forall args positional w status w' ran,
     auto_requested args false = true ->
     cmd_maintenance env args positional w = Ran status w' ran ->
     ~ In "fetch" ran).
Proof.
  split.
  - intros opts tasks n w Ha Hn. apply maintenance_run_auto_skips; assumption.
  - intros args positional w status w' ran Hauto Hrun.
    unfold cmd_maintenance in Hrun.
    destruct (parse_options args _ (initialize_tasks env))
      as [[opts' tasks']|] eqn:Ep; [|discriminate].
    apply parse_options_identity in Ep. destruct Ep as [Hid Hflag].
    cbn [auto_flag] in Hflag. change (negb (0 =? 0)) with false in Hflag.
    rewrite Hauto in Hflag.
    assert (Ha : auto_flag opts' <> 0).
    { intros E. rewrite E in Hflag. discriminate. }
    destruct positional as [|cmd [|? ?]]; try discriminate.
    destruct (String.eqb cmd "run"); [|discriminate].
    pose proof (maintenance_run_auto_skips env opts' "fetch" tasks' Ha) as S.
    destruct (maintenance_run env opts' tasks' w) as [[s w1] ran1] eqn:Er.
    inversion Hrun. subst s w1 ran1.
    specialize (S (task_identity_in "fetch" tasks' _
                     (eq_trans Hid (initialize_tasks_identity env))
                     ltac:(cbn [In]; intuition congruence)) w).
    rewrite Er in S. exact S.
Qed.

Lemma maintenance_run_auto_needs_condition_witness :
  ~ In "fetch"
      (snd (maintenance_run all_enabled_env (mk_opts 1 0 0)
              (initialize_tasks all_enabled_env) O)) /\
  cmd_maintenance all_enabled_env [OptAuto true; OptTask "fetch"] ["run"] O
  = Ran 0 O [] /\
  cmd_maintenance all_enabled_env [OptTask "fetch"] ["run"] O
  = Ran 0 2%nat ["fetch"].
Proof.
  split; [|split; reflexivity].
  apply (maintenance_run_auto_needs_condition all_enabled_env).
  - discriminate.
  - intros t Ht Hn. cbn in Ht.
    repeat (destruct Ht as [<- | Ht]; [try reflexivity; discriminate Hn|]).
    destruct Ht.
Defined.

(** ** Selection order *)

Lemma initialize_tasks_shape {W} (env : maintenance_env W) :
  exists e0 e1 e2 e3 e4, initialize_tasks env = registered e0 e1 e2 e3 e4.
Proof.
  unfold initialize_tasks, registered. cbn [map].
  repeat match goal with
         | |- context [repo_config_get_bool env ?k] =>
             destruct (repo_config_get_bool env k)
         end;
    do 5 eexists; reflexivity.
Qed.

Lemma ordinal_nonneg n names : 0 <= ordinal n names.
Proof.
  induction names as [|m rest IH]; cbn [ordinal]; [lia|].
  destruct (String.eqb n m); [lia|].
  destruct (Z.eqb_spec (ordinal n rest) 0); lia.
Qed.

Lemma ordinal_zero n names : ordinal n names = 0 <-> ~ In n names.
Proof.
  induction names as [|m rest IH]; cbn [ordinal In]; [tauto|].
  pose proof (ordinal_nonneg n rest) as Hk.
  destruct (String.eqb_spec n m) as [E|E].
  - split; [lia | intros H; exfalso; apply H; left; congruence].
  - destruct (Z.eqb_spec (ordinal n rest) 0) as [Z0|Z0].
    + split; [|reflexivity]. intros _ [H|H]; [congruence | tauto].
    + split; [lia|]. intros H. exfalso. apply Z0, IH. tauto.
Qed.

Lemma hashmap_get_entry_names tasks : forall tasks' n,
  map name tasks = map name tasks' ->
  hashmap_get_entry tasks n = hashmap_get_entry tasks' n.
Proof.
  induction tasks as [|t rest IH]; intros [|t' rest'] n H;
    try discriminate; [reflexivity|].
  cbn [map] in H. injection H as Hn Hr. cbn [hashmap_get_entry].
  rewrite Hn, (IH rest' n Hr). reflexivity.
Qed.

Lemma hashmap_get_entry_registered tasks n :
  map name tasks = task_names -> In n task_names ->
  exists i t, hashmap_get_entry tasks n = Some i /\
              nth_error tasks i = Some t /\ name t = n /\
              CStr.strlen n <> 0.
Proof.
  intros Hm Hn.
  rewrite (hashmap_get_entry_names tasks
             (registered false false false false false) n Hm).
  destruct tasks as [|t0 [|t1 [|t2 [|t3 [|t4 [|? ?]]]]]]; try discriminate.
  unfold task_names in *. cbn [map] in Hm.
  injection Hm as H0 H1 H2 H3 H4.
  cbn [In] in Hn.
  destruct Hn as [<- | [<- | [<- | [<- | [<- | []]]]]].
  - exists 0%nat, t0. repeat split; (reflexivity || assumption || discriminate).
  - exists 1%nat, t1. repeat split; (reflexivity || assumption || discriminate).
  - exists 2%nat, t2. repeat split; (reflexivity || assumption || discriminate).
  - exists 3%nat, t3. repeat split; (reflexivity || assumption || discriminate).
  - exists 4%nat, t4. repeat split; (reflexivity || assumption || discriminate).
Qed.

Lemma update_task_map f tasks : forall i t,
  NoDup (map name tasks) -> nth_error tasks i = Some t ->
  update_task i f tasks
  = map (fun x => if String.eqb (name x) (name t) then f x else x) tasks.
Proof.
  induction tasks as [|x rest IH]; intros i t Hd Hi.
  - destruct i; discriminate.
  - cbn [map] in Hd. inversion Hd as [|? ? Hx Hd']; subst.
    destruct i as [|i]; cbn [nth_error] in Hi; cbn [update_task map].
    + inversion Hi. subst x. rewrite String.eqb_refl. f_equal.
      rewrite <- (map_id rest) at 1. apply map_ext_in. intros y Hy.
      destruct (String.eqb_spec (name y) (name t)) as [E|E]; [|reflexivity].
      exfalso. apply Hx. rewrite <- E. apply in_map. exact Hy.
    + destruct (String.eqb_spec (name x) (name t)) as [E|E].
      * exfalso. apply Hx. rewrite E. apply in_map.
        eapply nth_error_In. exact Hi.
      * f_equal. apply IH; assumption.
Qed.

Lemma task_names_NoDup : NoDup task_names.
Proof.
  unfold task_names.
  repeat (constructor; [cbn [In]; intuition discriminate|]). constructor.
Qed.

Lemma mark_from_name c names t : name (mark_from c names t) = name t.
Proof.
  unfold mark_from. destruct (ordinal (name t) names =? 0); reflexivity.
Qed.

(** What [parse_options] leaves after the flags of a selection of distinct
    registered names: the counter has advanced by their number and each
    selected record holds the place of its flag. *)
Lemma parse_options_selection names : forall c tasks a q,
  map name tasks = task_names ->
  NoDup names -> incl names task_names ->
  (forall t, In t tasks -> In (name t) names -> selected t = false) ->
  0 <= c -> c + Z.of_nat (List.length names) <= CInt.INT_MAX ->
  parse_options (map OptTask names) (mk_opts a q c) tasks
  = Some (mk_opts a q (c + Z.of_nat (List.length names)),
          map (mark_from c names) tasks).
Proof.
  induction names as [|n rest IH]; intros c tasks a q Hm Hd Hi Hu Hc Hmax.
  - cbn [map parse_options List.length]. f_equal. f_equal.
    + f_equal. lia.
    + rewrite <- (map_id tasks) at 1. apply map_ext. intros t. reflexivity.
  - inversion Hd as [|? ? Hn Hd']; subst.
    assert (Hin : In n task_names) by (apply Hi; left; reflexivity).
    destruct (hashmap_get_entry_registered tasks n Hm Hin)
      as (i & t & Hg & Ht & Hname & Hlen).
    cbn [map parse_options]. unfold task_option_parse.
    destruct (Z.eqb_spec (CStr.strlen n) 0) as [|_]; [contradiction|].
    rewrite Hg, Ht.
    rewrite (Hu t (nth_error_In _ _ Ht))
      by (rewrite Hname; left; reflexivity).
    cbn [tasks_selected set_tasks_selected auto_flag quiet].
    cbn [List.length] in Hmax.
    rewrite to_int_id by (unfold CInt.INT_MAX in *; lia).
    change (negb (0 =? 0)) with false. cbv iota.
    assert (Hnd : NoDup (map name tasks))
      by (rewrite Hm; apply task_names_NoDup).
    rewrite (update_task_map _ tasks i t Hnd Ht).
    unfold set_tasks_selected. cbn [auto_flag quiet].
    rewrite IH.
    + f_equal. f_equal.
      * f_equal. cbn [List.length]. lia.
      * rewrite map_map. apply map_ext. intros x. rewrite Hname.
        unfold mark_from. cbn [ordinal].
        destruct (String.eqb_spec (name x) n) as [E|E].
        -- cbn [select_task name]. rewrite E.
           assert (Z0 : ordinal n rest = 0) by (apply ordinal_zero; exact Hn).
           rewrite Z0. reflexivity.
        -- pose proof (ordinal_nonneg (name x) rest) as Hk.
           destruct (Z.eqb_spec (ordinal (name x) rest) 0) as [Z0|Z0].
           ++ reflexivity.
           ++ destruct (Z.eqb_spec (ordinal (name x) rest + 1) 0); [lia|].
              f_equal. lia.
    + rewrite map_map. rewrite <- Hm. apply map_ext. intros x.
      destruct (String.eqb (name x) (name t)); reflexivity.
    + exact Hd'.
    + intros m Hm'. apply Hi. right. exact Hm'.
    + intros x Hx Hxr. apply in_map_iff in Hx. destruct Hx as (y & <- & Hy).
      destruct (String.eqb_spec (name y) (name t)) as [E|E].
      * exfalso. apply Hn. cbn [select_task name] in Hxr.
        rewrite <- Hname, <- E. exact Hxr.
      * apply Hu; [exact Hy | right; exact Hxr].
    + lia.
    + cbn [List.length] in *. lia.
Qed.

Lemma StronglySorted_snoc {A} (R : A -> A -> Prop) l a :
  StronglySorted R l -> Forall (fun x => R x a) l ->
  StronglySorted R (l ++ [a]).
Proof.
  induction 1 as [|b l Hs IH Hb]; intros Hf; cbn [app].
  - constructor; constructor.
  - inversion Hf as [|? ? Hba Hf']; subst. constructor; [apply IH; exact Hf'|].
    apply Forall_app. split; [exact Hb | constructor; [exact Hba | constructor]].
Qed.

(** With every executor succeeding and --auto off, the loop calls exactly
    the selected records of the array, from left to right. *)
Lemma run_tasks_selected_ok {W} (env : maintenance_env W) opts tasks :
  auto_flag opts = 0 -> tasks_selected opts <> 0 ->
  (forall o f w', fst (call_task_fn env o f w') = 0) ->
  forall w, exists w',
    run_tasks env opts tasks w = (0, w', map name (filter selected tasks)).
Proof.
  intros Ha Hs Hok.
  apply Z.eqb_neq in Hs.
  induction tasks as [|t rest IH]; intros w.
  - exists w. reflexivity.
  - cbn [run_tasks filter]. rewrite Ha, Hs. cbn [negb andb].
    change (0 =? 0) with true. cbn [negb].
    destruct (selected t); cbn [negb].
    + pose proof (Hok opts (fn t) w) as H.
      destruct (call_task_fn env opts (fn t) w) as [result w2].
      cbn [fst] in H. subst result.
      change (negb (0 =? 0)) with false. cbv iota.
      destruct (IH w2) as (w' & E). rewrite E. exists w'. reflexivity.
    + apply IH.
Qed.

Lemma parse_options_app args1 : forall args2 opts tasks,
  parse_options (args1 ++ args2) opts tasks =
  match parse_options args1 opts tasks with
  | Some (opts', tasks') => parse_options args2 opts' tasks'
  | None => None
  end.
Proof.
  induction args1 as [|a args1 IH]; intros args2 opts tasks; [reflexivity|].
  cbn [app parse_options]. destruct a as [on | on | arg]; try apply IH.
  destruct (task_option_parse (Some arg) opts tasks) as [[failed o] t].
  destruct (negb (failed =? 0)); [reflexivity | apply IH].
Qed.

(** A name that was selected before is refused by [task_option_parse]. *)
Lemma task_option_parse_repeated names tasks opts n :
  map name tasks = task_names -> incl names task_names -> In n names ->
  fst (fst (task_option_parse (Some n) opts
              (map (mark_from 0 names) tasks))) = 1.
Proof.
  intros Hm Hi Hn.
  assert (Hm' : map name (map (mark_from 0 names) tasks) = task_names).
  { rewrite map_map.
    rewrite (map_ext _ name (fun t => mark_from_name 0 names t)). exact Hm. }
  destruct (hashmap_get_entry_registered _ n Hm' (Hi n Hn))
    as (i & t & Hg & Ht & Hname & Hlen).
  unfold task_option_parse.
  destruct (Z.eqb_spec (CStr.strlen n) 0) as [|_]; [contradiction|].
  rewrite Hg, Ht.
  assert (Hs : selected t = true).
  { apply nth_error_In in Ht. apply in_map_iff in Ht.
    destruct Ht as (t0 & <- & _). rewrite mark_from_name in Hname.
    unfold mark_from. rewrite Hname.
    destruct (Z.eqb_spec (ordinal n names) 0) as [Z0|_]; [|reflexivity].
    apply ordinal_zero in Z0. contradiction. }
  rewrite Hs. reflexivity.
Qed.

(** *** The sort looks behind the array *)

(** A comparator that does not look at the elements sorts every array of
    the same length in the same way. *)
Lemma qsort_insert_map {A B} (f : A -> B) cA cB size :
  (forall a b x y, cB (a, f x) (b, f y) = cA (a, x) (b, y)) ->
  forall l at_ x,
    qsort_insert cB size at_ (f x) (map f l)
    = map f (qsort_insert cA size at_ x l).
Proof.
  intros Hc. induction l as [|y l IH]; intros at_ x; [reflexivity|].
  cbn [map qsort_insert]. rewrite Hc.
  destruct (cA (at_, x) (at_ + size, y) <=? 0); [reflexivity|].
  cbn [map]. rewrite IH. reflexivity.
Qed.

Lemma qsort_map {A B} (f : A -> B) cA cB size :
  (forall a b x y, cB (a, f x) (b, f y) = cA (a, x) (b, y)) ->
  forall l at_, qsort at_ (map f l) size cB = map f (qsort at_ l size cA).
Proof.
  intros Hc. induction l as [|x l IH]; intros at_; [reflexivity|].
  cbn [map qsort]. rewrite IH. apply qsort_insert_map. exact Hc.
Qed.

Lemma QSORT_tasks_map {W} (env : maintenance_env W) f tasks :
  QSORT (sizeof_pointer env) (map f tasks) (compare_tasks_by_selection env)
  = map f (QSORT (sizeof_pointer env) tasks (compare_tasks_by_selection env)).
Proof. apply qsort_map. intros a b x y. reflexivity. Qed.

Lemma chosen_ordinal names n :
  chosen names n = negb (ordinal n names =? 0).
Proof.
  induction names as [|m rest IH]; [reflexivity|].
  unfold chosen in *. cbn [existsb ordinal].
  destruct (String.eqb n m); [reflexivity|]. cbn [orb]. rewrite IH.
  pose proof (ordinal_nonneg n rest).
  destruct (Z.eqb_spec (ordinal n rest) 0) as [Z0|Z0]; [reflexivity|].
  destruct (Z.eqb_spec (ordinal n rest + 1) 0); [lia | reflexivity].
Qed.

Lemma chosen_In names n : chosen names n = true <-> In n names.
Proof.
  unfold chosen. rewrite existsb_exists. split.
  - intros (m & Hm & E). apply String.eqb_eq in E. congruence.
  - intros H. exists n. split; [exact H | apply String.eqb_refl].
Qed.

(** The selected records of an array whose records were marked by the
    flags of [names] are those whose names were given. *)
Lemma marked_selection names tasks :
  Forall (fun t => selected t = false) tasks ->
  map name (filter selected (map (mark_from 0 names) tasks))
  = filter (chosen names) (map name tasks).
Proof.
  induction 1 as [|t rest Ht Hr IH]; [reflexivity|].
  assert (Hs : selected (mark_from 0 names t)
               = negb (ordinal (name t) names =? 0)).
  { unfold mark_from.
    destruct (ordinal (name t) names =? 0); [exact Ht | reflexivity]. }
  cbn [map filter]. rewrite chosen_ordinal, Hs.
  destruct (negb (ordinal (name t) names =? 0)); cbn [map];
    rewrite ?mark_from_name, IH; reflexivity.
Qed.

Lemma filter_none {A} (p : A -> bool) l :
  (forall n, In n l -> p n = false) -> filter p l = [].
Proof.
  induction l as [|x l IH]; intros H; [reflexivity|].
  cbn [filter]. rewrite (H x (or_introl eq_refl)).
  apply IH. intros n Hn. apply H. right. exact Hn.
Qed.

Lemma filter_single {A} (p : A -> bool) l a :
  NoDup l -> In a l ->
  (forall n, In n l -> (p n = true <-> n = a)) ->
  filter p l = [a].
Proof.
  induction l as [|x l IH]; intros Hd Ha Hp; [destruct Ha|].
  inversion Hd as [|? ? Hx Hd']; subst. cbn [filter].
  destruct (p x) eqn:Epx.
  - assert (x = a) by (apply Hp; [left; reflexivity | exact Epx]). subst x.
    f_equal. apply filter_none. intros n Hn.
    destruct (p n) eqn:Epn; [|reflexivity].
    exfalso. apply Hx.
    assert (n = a) by (apply Hp; [right; exact Hn | exact Epn]).
    subst n. exact Hn.
  - destruct Ha as [Ha|Ha].
    + subst x.
      assert (p a = true) by (apply Hp; [left|]; reflexivity). congruence.
    + apply IH; [exact Hd' | exact Ha|].
      intros n Hn. apply Hp. right. exact Hn.
Qed.

(** Two members picked out of a list without repetition come out in one
    order or the other, the order they have in the list. *)
Lemma filter_pair {A} (p : A -> bool) l a b :
  NoDup l -> In a l -> In b l -> a <> b ->
  (forall n, In n l -> (p n = true <-> n = a \/ n = b)) ->
  filter p l = [a; b] \/ filter p l = [b; a].
Proof.
  induction l as [|x l IH]; intros Hd Ha Hb Hab Hp; [destruct Ha|].
  inversion Hd as [|? ? Hx Hd']; subst. cbn [filter].
  destruct (p x) eqn:Epx.
  - assert (Hx' : x = a \/ x = b)
      by (apply Hp; [left; reflexivity | exact Epx]).
    destruct Hx' as [-> | ->]; [left | right]; f_equal.
    + destruct Hb as [Hb|Hb]; [congruence|].
      apply filter_single; [exact Hd' | exact Hb|].
      intros n Hn. rewrite (Hp n (or_intror Hn)).
      split; [intros [E|E]; [subst n; contradiction | exact E] | tauto].
    + destruct Ha as [Ha|Ha]; [congruence|].
      apply filter_single; [exact Hd' | exact Ha|].
      intros n Hn. rewrite (Hp n (or_intror Hn)).
      split; [intros [E|E]; [exact E | subst n; contradiction] | tauto].
  - assert (Hxa : x <> a).
    { intros E. subst x.
      assert (p a = true) by (apply Hp; [left|left]; reflexivity).
      congruence. }
    assert (Hxb : x <> b).
    { intros E. subst x.
      assert (p b = true) by (apply Hp; [left|right]; reflexivity).
      congruence. }
    apply IH; [exact Hd' | | | exact Hab |].
    + destruct Ha as [Ha|Ha]; [contradiction | exact Ha].
    + destruct Hb as [Hb|Hb]; [contradiction | exact Hb].
    + intros n Hn. apply Hp. right. exact Hn.
Qed.

Lemma slot_order_perm {W} (env : maintenance_env W) :
  Permutation (slot_order env) task_names.
Proof.
  unfold slot_order.
  destruct (initialize_tasks_shape env) as (e0 & e1 & e2 & e3 & e4 & E).
  rewrite E.
  rewrite <- (QSORT_perm (sizeof_pointer env) (registered e0 e1 e2 e3 e4)
                (compare_tasks_by_selection env)).
  reflexivity.
Qed.

(** With --task in use, all executors succeeding, the tasks that run are
    the selected ones in the order in which the sort has left the array. *)
Lemma maintenance_run_in_slot_order {W} (env : maintenance_env W) w names :
  names <> [] -> NoDup names -> incl names task_names ->
  maintenance_lock_free env w = true ->
  (forall opts f w', fst (call_task_fn env opts f w') = 0) ->
  exists w',
    cmd_maintenance env (map OptTask names) ["run"] w
    = Ran 0 w' (filter (chosen names) (slot_order env)).
Proof.
  intros Hne Hd Hi Hl Hok.
  destruct (initialize_tasks_shape env) as (e0 & e1 & e2 & e3 & e4 & E).
  assert (Hlen : Z.of_nat (List.length names) <= 5).
  { pose proof (NoDup_incl_length Hd Hi) as L. unfold task_names in L.
    cbn [List.length] in L. lia. }
  assert (Hfresh : Forall (fun t => selected t = false)
                     (registered e0 e1 e2 e3 e4)).
  { unfold registered. repeat constructor. }
  unfold cmd_maintenance, slot_order. rewrite E.
  rewrite (parse_options_selection names 0 (registered e0 e1 e2 e3 e4)).
  - change (String.eqb "run" "run") with true. cbv iota.
    unfold maintenance_run. rewrite Hl. cbn [negb tasks_selected].
    assert (Hs : 0 + Z.of_nat (List.length names) <> 0).
    { destruct names; [contradiction | cbn [List.length]; lia]. }
    destruct (Z.eqb_spec (0 + Z.of_nat (List.length names)) 0);
      [contradiction|]. cbn [negb].
    match goal with
    | |- context [run_tasks env ?o ?t w] =>
        destruct (run_tasks_selected_ok env o t eq_refl Hs Hok w) as (w' & R)
    end.
    rewrite R. exists w'. rewrite QSORT_tasks_map, marked_selection.
    + reflexivity.
    + eapply Permutation_Forall; [apply QSORT_perm | exact Hfresh].
  - reflexivity.
  - exact Hd.
  - exact Hi.
  - intros t Ht _. eapply Forall_forall in Hfresh; [|exact Ht]. exact Hfresh.
  - lia.
  - unfold CInt.INT_MAX. lia.
Qed.

(** C1 on the code.  A --task name given again, whatever follows it, ends
    the command with the usage message, as the claim says; but distinct
    tasks do not run in the order of their flags.  The ordinal that
    [task_option_parse] records is never read: the comparator of the sort
    takes the address of a slot of [tasks] for a task record and reads, at
    the offset of [task_order], an int that lies behind the array, so that
    the sort moves the slots in the same way whatever the records hold.
    The selected tasks run in the order in which the sort leaves the five
    slots, which depends on that memory alone and not on the command line:
    of two tasks, one order of the two flags runs them against the
    selection, whatever the memory holds. *)
Theorem maintenance_run_selection_order_ignored
    {W} (env : maintenance_env W) w names :
  names <> [] -> NoDup names -> incl names task_names ->
  maintenance_lock_free env w = true ->
  (forall opts f w', fst (call_task_fn env opts f w') = 0) ->
  0 < sizeof_pointer env ->
  MAX_NUM_TASKS * sizeof_pointer env <= offsetof_task_order env ->
  (forall n more positional,
     In n names ->
     cmd_maintenance env (map OptTask (names ++ n :: more)) positional w
     = Usage) /\
  (forall i t,
     0 <= i ->
     MAX_NUM_TASKS * sizeof_pointer env
     <= task_order_address env (i * sizeof_pointer env, t)) /\
  (forall (f : maintenance_task -> maintenance_task) tasks,
     QSORT (sizeof_pointer env) (map f tasks) (compare_tasks_by_selection env)
     = map f
         (QSORT (sizeof_pointer env) tasks (compare_tasks_by_selection env)))
  /\
  Permutation (slot_order env) task_names /\
  (exists w',
     cmd_maintenance env (map OptTask names) ["run"] w
     = Ran 0 w' (filter (chosen names) (slot_order env))) /\
  (forall a b,
     In a task_names -> In b task_names -> a <> b ->
     (exists w',
        cmd_maintenance env [OptTask a; OptTask b] ["run"] w
        = Ran 0 w' [b; a]) \/
     (exists w',
        cmd_maintenance env [OptTask b; OptTask a] ["run"] w
        = Ran 0 w' [a; b])).
Proof.
  intros Hne Hd Hi Hl Hok Hsize Hoff.
  split; [|split; [|split; [|split; [|split]]]].
  - intros n more positional Hn.
    destruct (initialize_tasks_shape env) as (e0 & e1 & e2 & e3 & e4 & E).
    assert (Hlen : Z.of_nat (List.length names) <= 5).
    { pose proof (NoDup_incl_length Hd Hi) as L. unfold task_names in L.
      cbn [List.length] in L. lia. }
    unfold cmd_maintenance. rewrite E, map_app, parse_options_app.
    rewrite (parse_options_selection names 0 (registered e0 e1 e2 e3 e4)).
    + cbn [map parse_options].
      pose proof (task_option_parse_repeated names (registered e0 e1 e2 e3 e4)
                    (mk_opts 0 (if isatty_stderr env then 0 else 1)
                       (0 + Z.of_nat (List.length names)))
                    n eq_refl Hi Hn) as R.
      destruct (task_option_parse _ _ _) as [[failed o] t].
      cbn [fst] in R. subst failed. reflexivity.
    + reflexivity.
    + exact Hd.
    + exact Hi.
    + intros t Ht _. unfold registered in Ht. cbn [In] in Ht.
      repeat (destruct Ht as [<- | Ht]; [reflexivity|]). destruct Ht.
    + lia.
    + unfold CInt.INT_MAX. lia.
  - intros i t Hi0. unfold task_order_address. cbn [fst]. nia.
  - intros f tasks. apply QSORT_tasks_map.
  - apply slot_order_perm.
  - apply maintenance_run_in_slot_order; assumption.
  - intros a b Ha Hb Hab.
    assert (Hpair : forall x y, In x task_names -> In y task_names -> x <> y ->
              exists w',
                cmd_maintenance env [OptTask x; OptTask y] ["run"] w
                = Ran 0 w' (filter (chosen [x; y]) (slot_order env))).
    { intros x y Hx Hy Hxy.
      apply (maintenance_run_in_slot_order env w [x; y]);
        [discriminate | | | exact Hl | exact Hok].
      - constructor; [cbn [In]; intuition congruence|].
        constructor; [intros [] | constructor].
      - intros n [<- | [<- | []]]; assumption. }
    assert (Hnd : NoDup (slot_order env)).
    { eapply Permutation_NoDup;
        [symmetry; apply slot_order_perm | apply task_names_NoDup]. }
    assert (Hin : forall n, In n task_names -> In n (slot_order env)).
    { intros n Hn. eapply Permutation_in;
        [symmetry; apply slot_order_perm | exact Hn]. }
    destruct (Hpair a b Ha Hb Hab) as (w1 & R1).
    destruct (Hpair b a Hb Ha (not_eq_sym Hab)) as (w2 & R2).
    destruct (filter_pair (chosen [a; b]) (slot_order env) a b Hnd
                (Hin a Ha) (Hin b Hb) Hab) as [F|F].
    + intros n _. rewrite chosen_In. cbn [In]. intuition congruence.
    + right. exists w2. rewrite R2. f_equal. rewrite <- F.
      apply filter_ext. intros n. unfold chosen. cbn [existsb].
      rewrite !orb_false_r. apply orb_comm.
    + left. exists w1. rewrite R1, F. reflexivity.
Qed.

(** [--task gc --task pack-files], in a build where the sort leaves the
    array as it was registered, runs pack-files before gc; in a build where
    ascending numbers lie behind the array it is [--task pack-files --task
    gc] that runs gc before pack-files.  The second --task pack-files ends
    the command with the usage message. *)
Lemma maintenance_run_selection_order_ignored_witness :
  (exists w',
     cmd_maintenance offline_env [OptTask "gc"; OptTask "pack-files"] ["run"] O
     = Ran 0 w' ["pack-files"; "gc"]) /\
  (exists w',
     cmd_maintenance ascending_env [OptTask "pack-files"; OptTask "gc"]
       ["run"] O
     = Ran 0 w' ["gc"; "pack-files"]) /\
  cmd_maintenance offline_env
    [OptTask "gc"; OptTask "pack-files"; OptTask "gc"] ["run"] O
  = Usage.
Proof.
  assert (Hd : forall a b : string, a <> b -> NoDup [a; b]).
  { intros a b Hab. constructor; [cbn [In]; intuition congruence|].
    constructor; [intros [] | constructor]. }
  assert (Hi : forall a b, In a task_names -> In b task_names ->
                           incl [a; b] task_names).
  { intros a b Ha Hb n [<- | [<- | []]]; assumption. }
  assert (Hgc : In "gc" task_names) by (cbn; tauto).
  assert (Hpf : In "pack-files" task_names) by (cbn; tauto).
  split; [|split].
  - destruct (maintenance_run_selection_order_ignored offline_env O
                ["gc"; "pack-files"]) as (_ & _ & _ & _ & Run & _).
    + discriminate.
    + apply Hd. discriminate.
    + apply Hi; assumption.
    + reflexivity.
    + intros opts f w'. destruct f; reflexivity.
    + reflexivity.
    + vm_compute. discriminate.
    + exact Run.
  - destruct (maintenance_run_selection_order_ignored ascending_env O
                ["pack-files"; "gc"]) as (_ & _ & _ & _ & Run & _).
    + discriminate.
    + apply Hd. discriminate.
    + apply Hi; assumption.
    + reflexivity.
    + intros opts f w'. destruct f; reflexivity.
    + reflexivity.
    + vm_compute. discriminate.
    + exact Run.
  - destruct (maintenance_run_selection_order_ignored offline_env O
                ["gc"; "pack-files"]) as (Again & _).
    + discriminate.
    + apply Hd. discriminate.
    + apply Hi; assumption.
    + reflexivity.
    + intros opts f w'. destruct f; reflexivity.
    + reflexivity.
    + vm_compute. discriminate.
    + apply (Again "gc" [] ["run"]). left. reflexivity.
Defined.

(** * Part III: the rest of the code *)

(** ** Pack probes *)

Lemma find_base_packs_step_limit limit acc p : limit <> 0 ->
  find_base_packs_step limit (acc, None) p
  = if reaches_limit limit p then (acc ++ [pack_name p], None)
    else (acc, None).
Proof.
  intros Hl. apply Z.eqb_neq in Hl.
  unfold find_base_packs_step, reaches_limit. rewrite Hl. cbn [negb].
  destruct (pack_local p); cbn [negb andb]; [|reflexivity].
  destruct (pack_size p >=? limit); reflexivity.
Qed.

Lemma find_base_packs_limit_loop limit packs : limit <> 0 ->
  forall acc,
    fold_left (find_base_packs_step limit) packs (acc, None)
    = (acc ++ map pack_name (filter (reaches_limit limit) packs), None).
Proof.
  intros Hl.
  induction packs as [|p packs IH]; intros acc.
  - cbn [fold_left filter map]. rewrite app_nil_r. reflexivity.
  - cbn [fold_left filter]. rewrite find_base_packs_step_limit by exact Hl.
    destruct (reaches_limit limit p); rewrite IH; [|reflexivity].
    cbn [map]. rewrite <- app_assoc. reflexivity.
Qed.

Lemma find_base_packs_with_limit_aux r packs limit :
  limit <> 0 ->
  find_base_packs r packs limit
  = (packs ++ map pack_name (filter (reaches_limit limit) (get_all_packs r)),
     None).
Proof.
  intros Hl. unfold find_base_packs.
  rewrite find_base_packs_limit_loop by exact Hl. reflexivity.
Qed.

(** X1. With a size limit, [find_base_packs] appends the names of exactly the
    local packs whose size is at least the limit, in pack order, and returns
    no base pack. *)
Theorem find_base_packs_with_limit r packs limit :
  limit <> 0 ->
  find_base_packs r packs limit
  = (packs ++ map pack_name (filter (reaches_limit limit) (get_all_packs r)),
     None).
Proof.
  intros Hl. apply find_base_packs_with_limit_aux. exact Hl.
Qed.

Lemma find_base_packs_with_limit_witness :
  find_base_packs repo_80_packs [] (70 * 1024 * 1024)
  = (map pack_name (map pack_number (seq 69 11)), None).
Proof.
  rewrite find_base_packs_with_limit by discriminate. reflexivity.
Defined.

Lemma count_repackable_length packs : forall c,
  fold_left
    (fun cnt p =>
       if negb (pack_local p) then cnt
       else if pack_keep p then cnt else cnt + 1) packs c
  = c + Z.of_nat (List.length (filter repackable packs)).
Proof.
  induction packs as [|p packs IH]; intros c; cbn [fold_left filter].
  - cbn [List.length]. lia.
  - rewrite IH. unfold repackable.
    destruct (pack_local p); cbn [negb andb]; [|reflexivity].
    destruct (pack_keep p); cbn [negb List.length]; lia.
Qed.

(** X2. [too_many_packs] answers 1 exactly when gc.autoPackLimit is positive
    and the local packs without a .keep outnumber it; packs that are not
    local or are kept never count, and a limit of 0 or less turns the probe
    off. *)
Theorem too_many_packs_count r st :
  too_many_packs r st
  = if (0 <? gc_auto_pack_limit st)
       && (gc_auto_pack_limit st
           <? Z.of_nat (List.length (filter repackable (get_all_packs r))))
    then 1 else 0.
Proof.
  unfold too_many_packs, count_repackable.
  rewrite count_repackable_length. cbn [Z.add].
  destruct (Z.leb_spec (gc_auto_pack_limit st) 0);
    destruct (Z.ltb_spec 0 (gc_auto_pack_limit st)); try lia; reflexivity.
Qed.

(** ** need_to_gc: the size threshold and what the call leaves behind *)

Lemma keep_one_pack_fold_fields items : forall st,
  let st' := fold_left (fun s item => keep_one_pack item s) items st in
  same_settings st st' /\ big_pack_threshold st' = big_pack_threshold st.
Proof.
  induction items as [|i items IH]; intros st; cbv zeta.
  - unfold same_settings. cbn [fold_left]. tauto.
  - cbn [fold_left]. specialize (IH (keep_one_pack i st)). cbv zeta in IH.
    unfold same_settings in *. unfold keep_one_pack, argv_array_push in IH.
    cbn [gc_auto_threshold gc_auto_pack_limit max_delta_cache_size prune_expire
         big_pack_threshold] in IH. exact IH.
Qed.

Lemma add_repack_all_option_fields k st :
  same_settings st (add_repack_all_option k st) /\
  big_pack_threshold (add_repack_all_option k st) = big_pack_threshold st.
Proof.
  unfold add_repack_all_option.
  set (st1 := match prune_expire st with
              | Some e =>
                  if String.eqb e "now" then argv_array_push "-a" st
                  else argv_array_push ("--unpack-unreachable=" ++ e)%string
                         (argv_array_push "-A" st)
              | None => argv_array_push "-A" st
              end).
  assert (H1 : same_settings st st1 /\
               big_pack_threshold st1 = big_pack_threshold st).
  { unfold st1, same_settings.
    destruct (prune_expire st) as [e|] eqn:E;
      [destruct (String.eqb e "now")|]; cbn; rewrite ?E; tauto. }
  destruct k as [items|]; [|exact H1].
  pose proof (keep_one_pack_fold_fields items st1) as H2. cbv zeta in H2.
  unfold same_settings in *. intuition congruence.
Qed.

(** What [add_repack_all_option] appends before the --keep-pack arguments. *)
Lemma repack_all_option_mode st :
  exists mode,
    repack (add_repack_all_option None st) = repack st ++ mode /\
    (mode = ["-a"] \/ exists e, mode = "-A" :: e).
Proof.
  unfold add_repack_all_option, argv_array_push.
  destruct (prune_expire st) as [e|]; [destruct (String.eqb e "now")|];
    cbn [repack].
  - exists ["-a"]. split; [reflexivity | left; reflexivity].
  - exists ["-A"; ("--unpack-unreachable=" ++ e)%string].
    split; [rewrite <- app_assoc; reflexivity | right; eexists; reflexivity].
  - exists ["-A"]. split; [reflexivity | right; eexists; reflexivity].
Qed.

Lemma repack_all_option_threshold k v st :
  repack (add_repack_all_option k (set_big_pack_threshold v st))
  = repack (add_repack_all_option k st).
Proof.
  assert (N : repack (add_repack_all_option None (set_big_pack_threshold v st))
              = repack (add_repack_all_option None st)).
  { unfold add_repack_all_option, set_big_pack_threshold, argv_array_push.
    cbn [prune_expire repack].
    destruct (prune_expire st) as [e|]; [destruct (String.eqb e "now")|];
      reflexivity. }
  destruct k as [items|]; [|exact N].
  rewrite !repack_add_repack_all_option, N. reflexivity.
Qed.

(** X3. With too many packs and gc.bigPackThreshold set, [need_to_gc] keeps
    every local pack that reaches the threshold as long as these are fewer
    than gc.autoPackLimit; when they are not, it gives the threshold up (the
    global is set to 0) and keeps the largest local pack only. *)
Theorem need_to_gc_big_pack_threshold r pf st :
  0 < gc_auto_threshold st ->
  too_many_packs r st <> 0 ->
  big_pack_threshold st <> 0 ->
  let big := filter (reaches_limit (big_pack_threshold st)) (get_all_packs r) in
  let st' := snd (need_to_gc r pf st) in
  (Z.of_nat (List.length big) < gc_auto_pack_limit st ->
   big_pack_threshold st' = big_pack_threshold st /\
   repack st' = repack (add_repack_all_option None st)
                ++ map keep_pack_arg (map pack_name big)) /\
  (gc_auto_pack_limit st <= Z.of_nat (List.length big) ->
   big_pack_threshold st' = 0 /\
   exists P, largest_local_pack r P /\
     repack st' = repack (add_repack_all_option None st)
                  ++ [keep_pack_arg (pack_name P)]).
Proof.
  intros Hg Hp Hb. cbv zeta.
  rewrite need_to_gc_all by assumption. cbn [snd].
  unfold need_to_gc_keep_pack.
  destruct (Z.eqb_spec (big_pack_threshold st) 0) as [|_]; [contradiction|].
  cbn [negb]. rewrite find_base_packs_with_limit_aux by exact Hb.
  cbn [app]. rewrite length_map.
  destruct (find_base_packs_largest r (too_many_packs_local r st Hp))
    as (P & HP & Hf).
  rewrite Hf.
  destruct (Z.geb_spec
              (Z.of_nat
                 (List.length
                    (filter (reaches_limit (big_pack_threshold st))
                       (get_all_packs r))))
              (gc_auto_pack_limit st)) as [Hge|Hlt]; cbn [fst snd].
  - split; [intros; lia|]. intros _. split.
    + destruct (add_repack_all_option_fields (Some [pack_name P])
                  (set_big_pack_threshold 0 st)) as [_ E].
      rewrite E. reflexivity.
    + exists P. split; [exact HP|].
      rewrite repack_all_option_threshold, repack_add_repack_all_option.
      reflexivity.
  - split; [|intros; lia]. intros _. split.
    + apply add_repack_all_option_fields.
    + rewrite repack_add_repack_all_option. reflexivity.
Qed.

Lemma need_to_gc_big_pack_threshold_witness :
  repack (snd (need_to_gc repo_80_packs (lp64 100000 0 0) threshold_70MiB))
  = ["repack"; "-d"; "-l"; "-A"; "--unpack-unreachable=2.weeks.ago"]
    ++ map keep_pack_arg (map pack_name (map pack_number (seq 69 11))) /\
  big_pack_threshold
    (snd (need_to_gc repo_80_packs (lp64 100000 0 0) threshold_70MiB_limit_5))
  = 0.
Proof.
  split.
  - apply (need_to_gc_big_pack_threshold repo_80_packs (lp64 100000 0 0)
             threshold_70MiB); vm_compute; (reflexivity || discriminate).
  - apply (need_to_gc_big_pack_threshold repo_80_packs (lp64 100000 0 0)
             threshold_70MiB_limit_5); vm_compute; (reflexivity || discriminate).
Defined.

(** X4. Whatever it answers, [need_to_gc] only reads gc.auto,
    gc.autoPackLimit, pack.deltaCacheSize and the prune expiry, leaves
    gc.bigPackThreshold as it is or at 0, and only appends to the argument
    vector of repack: nothing when no trigger fires (gc.auto is not
    positive, or neither probe answers), the state then being untouched and
    the answer 0; with too many packs a repack mode -a or -A first, with
    too many loose objects only, --no-write-bitmap-index and nothing else.
    What a trigger has appended stays appended when the pre-auto-gc hook
    then refuses the run: the answer alone follows the hook, 1 if it exits
    with 0 and 0 if not. *)
Theorem need_to_gc_leaves r pf st :
  let st' := snd (need_to_gc r pf st) in
  let answer := fst (need_to_gc r pf st) in
  same_settings st st' /\
  (big_pack_threshold st' = big_pack_threshold st \/
   big_pack_threshold st' = 0) /\
  (gc_auto_threshold st <= 0 \/
   (too_many_packs r st = 0 /\ too_many_loose_objects r st = 0) ->
   answer = 0 /\ st' = st) /\
  (0 < gc_auto_threshold st ->
   too_many_packs r st <> 0 \/ too_many_loose_objects r st <> 0 ->
   answer = (if run_hook_pre_auto_gc pf =? 0 then 1 else 0) /\
   exists added,
     repack st' = repack st ++ added /\
     (too_many_packs r st <> 0 ->
      exists more, added = "-a" :: more \/ added = "-A" :: more) /\
     (too_many_packs r st = 0 -> added = ["--no-write-bitmap-index"])).
Proof.
  cbv zeta.
  assert (Refl : same_settings st st) by (unfold same_settings; tauto).
  destruct (Z_le_gt_dec (gc_auto_threshold st) 0) as [Hg|Hg].
  { rewrite need_to_gc_disabled by exact Hg. cbn [fst snd].
    split; [exact Refl|]. split; [left; reflexivity|].
    split; [intros _; split; reflexivity | intros; lia]. }
  destruct (Z.eq_dec (too_many_packs r st) 0) as [Hp|Hp].
  - destruct (Z.eq_dec (too_many_loose_objects r st) 0) as [Hl|Hl].
    + rewrite need_to_gc_nothing_to_do by assumption. cbn [fst snd].
      split; [exact Refl|]. split; [left; reflexivity|].
      split; [intros _; split; reflexivity | intros _ [H|H]; contradiction].
    + rewrite need_to_gc_incremental by (lia || assumption). cbn [fst snd].
      split; [unfold same_settings; cbn; tauto|].
      split; [left; reflexivity|].
      split; [intros [H|[_ H]]; [lia | contradiction]|].
      intros _ _. split; [reflexivity|].
      exists ["--no-write-bitmap-index"].
      split; [reflexivity|]. split; [intros H; contradiction | reflexivity].
  - rewrite need_to_gc_all by (lia || assumption). cbn [fst snd].
    assert (K : same_settings st (snd (need_to_gc_keep_pack r pf st)) /\
                (big_pack_threshold (snd (need_to_gc_keep_pack r pf st))
                 = big_pack_threshold st \/
                 big_pack_threshold (snd (need_to_gc_keep_pack r pf st)) = 0) /\
                repack (add_repack_all_option None
                          (snd (need_to_gc_keep_pack r pf st)))
                = repack (add_repack_all_option None st)).
    { unfold need_to_gc_keep_pack.
      destruct (negb (big_pack_threshold st =? 0)).
      - destruct (find_base_packs r [] (big_pack_threshold st)) as [kp b].
        destruct (Z.of_nat (List.length kp) >=? gc_auto_pack_limit st).
        + destruct (find_base_packs r [] 0) as [kp' b']. cbn [snd].
          split; [unfold same_settings; cbn; tauto|].
          split; [right; reflexivity|].
          apply repack_all_option_threshold.
        + cbn [snd]. split; [exact Refl|]. split; [left|]; reflexivity.
      - destruct (find_base_packs r [] 0) as [kp b].
        destruct ((total_ram pf =? 0)
                  || (estimate_repack_memory pf st b
                      <? CInt.cdiv (total_ram pf) 2));
          cbn [snd]; (split; [exact Refl|]; split; [left|]; reflexivity). }
    destruct K as (K1 & K2 & K3).
    destruct (add_repack_all_option_fields
                (Some (fst (need_to_gc_keep_pack r pf st)))
                (snd (need_to_gc_keep_pack r pf st))) as [F1 F2].
    split; [unfold same_settings in *; intuition congruence|].
    split; [rewrite F2; exact K2|].
    split; [intros [H|[H _]]; [lia | contradiction]|].
    intros _ _. split; [reflexivity|].
    rewrite repack_add_repack_all_option, K3.
    destruct (repack_all_option_mode st) as (mode & Em & Hm).
    rewrite Em, <- app_assoc.
    eexists. split; [reflexivity|].
    split; [|intros H; contradiction]. intros _.
    destruct Hm as [-> | [e ->]]; cbn [app]; eexists;
      [left | right]; reflexivity.
Qed.

(** 260 loose objects in bucket 17 and a pre-auto-gc hook that exits with
    1: the answer is 0, and --no-write-bitmap-index has been appended. *)
Lemma need_to_gc_leaves_witness :
  fst (need_to_gc repo_260_loose (lp64 1000 0 1) default_gc_state) = 0 /\
  repack (snd (need_to_gc repo_260_loose (lp64 1000 0 1) default_gc_state))
  = ["repack"; "-d"; "-l"; "--no-write-bitmap-index"].
Proof.
  destruct (need_to_gc_leaves repo_260_loose (lp64 1000 0 1) default_gc_state)
    as (_ & _ & _ & Fires).
  destruct Fires as (Answer & added & Eadded & _ & Loose).
  - reflexivity.
  - right. vm_compute. discriminate.
  - split; [exact Answer|].
    rewrite Eadded, Loose by reflexivity. reflexivity.
Defined.

(** ** The task loop stops at the first failure *)

Lemma run_tasks_app_aux {W} (env : maintenance_env W) opts pre post : forall w,
  run_tasks env opts (pre ++ post) w
  = let '(r, w1, ran1) := run_tasks env opts pre w in
    if r =? 0 then
      let '(r2, w2, ran2) := run_tasks env opts post w1 in
      (r2, w2, ran1 ++ ran2)
    else (r, w1, ran1).
Proof.
  induction pre as [|t pre IH]; intros w.
  - cbn [app run_tasks]. change (0 =? 0) with true. cbv iota.
    destruct (run_tasks env opts post w) as [[r2 w2] ran2]. reflexivity.
  - cbn [app run_tasks].
    destruct (negb (tasks_selected opts =? 0) && negb (selected t));
      [apply IH|].
    destruct ((tasks_selected opts =? 0) && negb (enabled t)); [apply IH|].
    destruct (if negb (auto_flag opts =? 0)
              then match auto_condition t with
                   | Some c => let '(holds, w') := run_auto_condition env c w in
                               (holds =? 0, w')
                   | None => (true, w)
                   end
              else (false, w)) as [skip w1].
    destruct skip; [apply IH|].
    destruct (call_task_fn env opts (fn t) w1) as [result w2].
    destruct (Z.eqb_spec result 0) as [E|E]; cbn [negb].
    + rewrite IH. destruct (run_tasks env opts pre w2) as [[r w3] ran].
      destruct (r =? 0); [|reflexivity].
      destruct (run_tasks env opts post w3) as [[r2 w4] ran2]. reflexivity.
    + destruct (Z.eqb_spec result 0); [contradiction | reflexivity].
Qed.

(** X5. The loop of [maintenance_run] over an array [pre ++ post] runs
    [pre], and goes on with [post] from the world [pre] leaves only when
    [pre] ended with result 0; once a task has returned non-zero, that value
    is the result and the tasks behind it are not called, whatever they
    are. *)
Theorem run_tasks_stops_at_failure {W} (env : maintenance_env W) opts pre w :
  (forall post,
     run_tasks env opts (pre ++ post) w
     = let '(r, w1, ran1) := run_tasks env opts pre w in
       if r =? 0 then
         let '(r2, w2, ran2) := run_tasks env opts post w1 in
         (r2, w2, ran1 ++ ran2)
       else (r, w1, ran1)) /\
  (fst (fst (run_tasks env opts pre w)) <> 0 ->
   forall post,
     run_tasks env opts (pre ++ post) w = run_tasks env opts pre w).
Proof.
  split; [intros post; apply run_tasks_app_aux|].
  intros Hne post. rewrite run_tasks_app_aux.
  destruct (run_tasks env opts pre w) as [[r w1] ran1]. cbn [fst] in Hne.
  destruct (Z.eqb_spec r 0); [contradiction | reflexivity].
Qed.

(** ** The pid file, written and read back *)

Lemma list_ascii_of_string_app a b :
  list_ascii_of_string (a ++ b)%string
  = list_ascii_of_string a ++ list_ascii_of_string b.
Proof.
  induction a as [|c a IH]; [reflexivity|].
  cbn [String.append list_ascii_of_string app]. rewrite IH. reflexivity.
Qed.

Lemma scan_digits_stop rest acc n :
  no_digit_ahead rest -> scan_digits rest acc n = (acc, n, rest).
Proof.
  destruct rest as [|c rest]; [reflexivity|].
  cbn [no_digit_ahead scan_digits]. intros H. rewrite H. reflexivity.
Qed.

Ltac scan_one_digit :=
  cbn [scan_digits];
  match goal with
  | |- context [digit_value ?c] =>
      let v := eval vm_compute in (digit_value c) in
      change (digit_value c) with v
  end; cbv iota beta.

Lemma scan_digits_of_uint_acc d : forall p n rest,
  no_digit_ahead rest ->
  scan_digits (list_ascii_of_string (NilEmpty.string_of_uint d) ++ rest)
    (Z.pos p) n
  = (Z.pos (Pos.of_uint_acc d p), (Decimal.nb_digits d + n)%nat, rest).
Proof.
  induction d; intros p n rest Hr;
    cbn [NilEmpty.string_of_uint list_ascii_of_string app Pos.of_uint_acc
         Decimal.nb_digits];
    [apply scan_digits_stop; exact Hr | ..];
    scan_one_digit;
    match goal with
    | |- scan_digits _ ?a _ = (Z.pos (Pos.of_uint_acc _ ?q), _, _) =>
        replace a with (Z.pos q)
          by (rewrite ?Pos2Z.inj_add, ?Pos2Z.inj_mul; lia)
    end;
    rewrite IHd by exact Hr; f_equal; f_equal; lia.
Qed.

Lemma scan_digits_of_uint d : forall n rest,
  no_digit_ahead rest ->
  scan_digits (list_ascii_of_string (NilEmpty.string_of_uint d) ++ rest) 0 n
  = (Z.of_N (Pos.of_uint d), (Decimal.nb_digits d + n)%nat, rest).
Proof.
  induction d; intros n rest Hr;
    cbn [NilEmpty.string_of_uint list_ascii_of_string app Pos.of_uint
         Decimal.nb_digits];
    [apply scan_digits_stop; exact Hr | ..];
    scan_one_digit.
  - change (10 * 0 + 0) with 0. rewrite IHd by exact Hr.
    f_equal. f_equal. lia.
  - change (10 * 0 + 1) with (Z.pos 1).
    rewrite scan_digits_of_uint_acc by exact Hr. f_equal. f_equal. lia.
  - change (10 * 0 + 2) with (Z.pos 2).
    rewrite scan_digits_of_uint_acc by exact Hr. f_equal. f_equal. lia.
  - change (10 * 0 + 3) with (Z.pos 3).
    rewrite scan_digits_of_uint_acc by exact Hr. f_equal. f_equal. lia.
  - change (10 * 0 + 4) with (Z.pos 4).
    rewrite scan_digits_of_uint_acc by exact Hr. f_equal. f_equal. lia.
  - change (10 * 0 + 5) with (Z.pos 5).
    rewrite scan_digits_of_uint_acc by exact Hr. f_equal. f_equal. lia.
  - change (10 * 0 + 6) with (Z.pos 6).
    rewrite scan_digits_of_uint_acc by exact Hr. f_equal. f_equal. lia.
  - change (10 * 0 + 7) with (Z.pos 7).
    rewrite scan_digits_of_uint_acc by exact Hr. f_equal. f_equal. lia.
  - change (10 * 0 + 8) with (Z.pos 8).
    rewrite scan_digits_of_uint_acc by exact Hr. f_equal. f_equal. lia.
  - change (10 * 0 + 9) with (Z.pos 9).
    rewrite scan_digits_of_uint_acc by exact Hr. f_equal. f_equal. lia.
Qed.

(** ["%ju"] reads back what ["%ju"] printed. *)
Lemma scan_uintmax_decimal n rest :
  0 <= n <= UINTMAX_MAX -> no_digit_ahead rest ->
  scan_uintmax (list_ascii_of_string (CStr.decimal n) ++ rest)
  = Some (n, rest).
Proof.
  intros Hn Hr. unfold CStr.decimal.
  pose proof (DecimalN.Unsigned.of_to (Z.to_N n)) as RT.
  unfold N.of_uint in RT.
  set (d := N.to_uint (Z.to_N n)) in *.
  assert (Shape : exists c tl,
            list_ascii_of_string (NilZero.string_of_uint d) = c :: tl /\
            isspace c = false /\ Ascii.eqb c "-"%char = false /\
            Ascii.eqb c "+"%char = false).
  { destruct d; cbn; eexists; eexists; repeat split. }
  assert (Scan : exists k,
            scan_digits (list_ascii_of_string (NilZero.string_of_uint d) ++ rest)
              0 O = (Z.of_N (Pos.of_uint d), S k, rest)).
  { destruct d;
      [exists O; cbn [NilZero.string_of_uint list_ascii_of_string app];
       scan_one_digit; change (10 * 0 + 0) with 0;
       rewrite scan_digits_stop by exact Hr; reflexivity | ..].
    all: exists (Decimal.nb_digits d);
      match goal with
      | |- context [NilZero.string_of_uint ?x] =>
          change (NilZero.string_of_uint x) with (NilEmpty.string_of_uint x);
          rewrite (scan_digits_of_uint x O rest Hr)
      end; cbn [Decimal.nb_digits]; rewrite Nat.add_0_r; reflexivity. }
  destruct Shape as (c & tl & Es & Hsp & Hm & Hp).
  destruct Scan as (k & Ek).
  rewrite Es in *. change ((c :: tl) ++ rest) with (c :: tl ++ rest) in *.
  unfold scan_uintmax. cbn [skip_space].
  rewrite Hsp, Hm, Hp. rewrite Ek. rewrite RT.
  rewrite Z2N.id by lia.
  destruct (Z.gtb_spec n UINTMAX_MAX); [lia | reflexivity].
Qed.

Lemma take_word_whole w : forall width,
  forallb (fun c => negb (isspace c)) w = true ->
  (List.length w <= width)%nat ->
  take_word width w = w.
Proof.
  induction w as [|c w IH]; intros width Hs Hl.
  - destruct width; reflexivity.
  - cbn [forallb] in Hs. apply andb_prop in Hs. destruct Hs as [Hc Hs].
    cbn [List.length] in Hl. destruct width as [|width]; [lia|].
    cbn [take_word]. apply negb_true_iff in Hc. rewrite Hc.
    rewrite IH by (assumption || lia). reflexivity.
Qed.

Lemma length_list_ascii_of_string s :
  List.length (list_ascii_of_string s) = String.length s.
Proof. induction s; cbn; congruence. Qed.

(** The record that [lock_repo_for_gc] writes is read back by [fscanf] as
    the pid and the host it was made of. *)
Lemma fscanf_pid_host_written host_name_max pid host :
  0 <= pid <= UINTMAX_MAX -> hostname_ok host_name_max host = true ->
  fscanf_pid_host host_name_max (CStr.decimal pid ++ " " ++ host)%string
  = Some (pid, host).
Proof.
  intros Hp Hh. unfold hostname_ok in Hh.
  apply andb_prop in Hh. destruct Hh as [Hh Hlen].
  apply andb_prop in Hh. destruct Hh as [Hne Hw].
  apply negb_true_iff, String.eqb_neq in Hne. apply Z.leb_le in Hlen.
  unfold fscanf_pid_host.
  rewrite list_ascii_of_string_app.
  rewrite scan_uintmax_decimal; [|exact Hp | cbn; reflexivity].
  change (list_ascii_of_string (" " ++ host)%string)
    with (" "%char :: list_ascii_of_string host).
  cbn [skip_space]. change (isspace " ") with true. cbv iota.
  assert (Hskip : skip_space (list_ascii_of_string host)
                  = list_ascii_of_string host).
  { destruct host as [|c host]; [reflexivity|].
    cbn [list_ascii_of_string forallb] in *.
    apply andb_prop in Hw. destruct Hw as [Hc _].
    apply negb_true_iff in Hc. cbn [skip_space]. rewrite Hc. reflexivity. }
  rewrite Hskip.
  rewrite take_word_whole.
  - destruct host as [|c host]; [contradiction|].
    replace (list_ascii_of_string (String c host))
      with (c :: list_ascii_of_string host) by reflexivity.
    change (c :: list_ascii_of_string host)
      with (list_ascii_of_string (String c host)).
    rewrite string_of_list_ascii_of_string.
    reflexivity.
  - exact Hw.
  - rewrite length_list_ascii_of_string. unfold CStr.strlen in Hlen. lia.
Qed.

(** X6. The lock protocol excludes a second run: when a run has taken the
    lock (its record "<pid> <host>" is in gc.pid), a later caller without
    --force that reads this record within 12 hours is told the host and the
    pid of the first run and acquires nothing, as long as it is on another
    host or the first process still answers [kill(pid, 0)]. *)
Theorem lock_repo_for_gc_excludes force e1 e2 record st_mtime :
  lock_repo_for_gc force e1 = LockAcquired record ->
  0 <= getpid e1 <= CInt.INT_MAX ->
  hostname_ok (HOST_NAME_MAX e2) (my_host e1) = true ->
  is_tempfile_active_pidfile e2 = false ->
  lock_file_free e2 = true ->
  fopen_pidfile e2 = Some (mk_pid_file (Some st_mtime) record) ->
  time_now e2 - st_mtime <= 12 * 3600 ->
  my_host e2 <> my_host e1 \/
  kill0 e2 (getpid e1) = None \/ kill0 e2 (getpid e1) = Some EPERM ->
  record = (CStr.decimal (getpid e1) ++ " " ++ my_host e1)%string /\
  lock_repo_for_gc false e2 = LockHeld (my_host e1) (getpid e1).
Proof.
  intros Hacq Hpid Hhost Ha Hl Hf Ht Hk.
  assert (Hrec : record
                 = (CStr.decimal (getpid e1) ++ " " ++ my_host e1)%string).
  { unfold lock_repo_for_gc in Hacq.
    destruct (is_tempfile_active_pidfile e1); [discriminate|].
    destruct (negb (lock_file_free e1)); [discriminate|].
    destruct (negb force).
    - destruct (should_exit e1) as [[p h]|]; [discriminate|].
      inversion Hacq. reflexivity.
    - inversion Hacq. reflexivity. }
  split; [exact Hrec|].
  assert (Hto : CInt.to_int (getpid e1) = getpid e1)
    by (apply to_int_id; unfold CInt.INT_MAX in *; lia).
  unfold lock_repo_for_gc. rewrite Ha, Hl. cbn [negb].
  unfold should_exit. rewrite Hf. cbn [pid_st_mtime pid_content].
  destruct (Z.leb_spec (time_now e2 - st_mtime) (12 * 3600)); [|lia].
  rewrite Hrec, fscanf_pid_host_written;
    [|unfold UINTMAX_MAX, CInt.INT_MAX in *; lia | exact Hhost].
  cbv iota beta. rewrite !Hto.
  destruct (String.eqb_spec (my_host e1) (my_host e2)) as [E|E]; cbn [negb];
    [|rewrite Hto; reflexivity].
  destruct Hk as [Hk | [Hk | Hk]]; [congruence | |];
    rewrite ?Hto, Hk; cbn; rewrite ?Hto; reflexivity.
Qed.

Lemma lock_repo_for_gc_excludes_witness :
  lock_repo_for_gc false (first_gc "buildhost" 4242)
  = LockAcquired "4242 buildhost" /\
  lock_repo_for_gc false (second_gc "buildhost" "4242 buildhost" 60 None)
  = LockHeld "buildhost" 4242.
Proof.
  split; [reflexivity|].
  apply (lock_repo_for_gc_excludes false (first_gc "buildhost" 4242)
           (second_gc "buildhost" "4242 buildhost" 60 None)
           "4242 buildhost" (1700000000 - 60)).
  - reflexivity.
  - vm_compute. split; discriminate.
  - reflexivity.
  - reflexivity.
  - reflexivity.
  - reflexivity.
  - vm_compute. discriminate.
  - right. left. reflexivity.
Defined.

(** ** The auto conditions of the maintenance tasks *)

Lemma pack_files_count_min limit packs : forall count,
  0 <= count <= limit -> limit <= CInt.INT_MAX ->
  pack_files_count limit packs count
  = Z.min limit (count + Z.of_nat (List.length (without_midx packs))).
Proof.
  induction packs as [|p packs IH]; intros count Hc Hl.
  - cbn [pack_files_count without_midx filter List.length Z.of_nat]. lia.
  - cbn [pack_files_count without_midx filter].
    fold (without_midx packs).
    destruct (Z.ltb_spec count limit) as [Hlt|Hge].
    + destruct (multi_pack_index p); cbn [negb].
      * rewrite (IH count Hc Hl). reflexivity.
      * rewrite to_int_id by (unfold CInt.INT_MAX in *; lia).
        rewrite IH by lia. cbn [List.length]. lia.
    + destruct (negb (multi_pack_index p)); cbn [List.length]; lia.
Qed.

(** X7. With core.multiPackIndex true and a positive limit
    (maintenance.pack-files.auto, 10 when not set), the pack-files condition
    holds exactly when at least that many packs are covered by no
    multi-pack-index; the scan stops counting at the limit, and nothing is
    done to the outside. *)
Theorem pack_files_auto_condition_counts sys cfg h :
  Sys.repo_config_get_bool cfg "core.multiPackIndex" = Some true ->
  0 < configured_limit cfg "maintenance.pack-files.auto" 10
    <= CInt.INT_MAX ->
  pack_files_auto_condition sys cfg h
  = (Sys.Ret
       (if configured_limit cfg "maintenance.pack-files.auto" 10
           <=? Z.of_nat (List.length
                           (without_midx (Sys.packed_git_list sys h)))
        then 1 else 0), h).
Proof.
  intros Hb Hl. unfold pack_files_auto_condition. rewrite Hb.
  fold (configured_limit cfg "maintenance.pack-files.auto" 10).
  set (limit := configured_limit cfg "maintenance.pack-files.auto" 10) in *.
  destruct (Z.eqb_spec limit 0); [lia|].
  destruct (Z.ltb_spec limit 0); [lia|].
  unfold Sys.bind, Sys.ask, Sys.ret.
  rewrite pack_files_count_min by lia.
  set (nm := Z.of_nat _).
  destruct (Z.geb_spec (Z.min limit (0 + nm)) limit) as [H1|H1];
    destruct (Z.leb_spec limit nm); try reflexivity; lia.
Qed.

Lemma pack_files_auto_condition_counts_witness :
  pack_files_auto_condition
    (sample_system (fun _ _ => 0) [] (map pack_number (seq 0 12)))
    (sample_config (fun _ => None) multi_pack_index_enabled) []
  = (Sys.Ret 1, []).
Proof.
  apply (pack_files_auto_condition_counts
           (sample_system (fun _ _ => 0) [] (map pack_number (seq 0 12)))
           (sample_config (fun _ => None) multi_pack_index_enabled) []).
  - reflexivity.
  - vm_compute. split; [reflexivity | discriminate].
Defined.

Lemma each_loose_object_count limit objs : forall count h,
  0 <= count < limit -> limit <= CInt.INT_MAX ->
  each_loose_object objs (loose_object_count limit) count h
  = (Sys.Ret (if limit <=? count + Z.of_nat (List.length objs)
              then 1 else 0,
              Z.min limit (count + Z.of_nat (List.length objs))), h).
Proof.
  induction objs as [|oid objs IH]; intros count h Hc Hl.
  - cbn [each_loose_object List.length Z.of_nat]. unfold Sys.ret.
    destruct (Z.leb_spec limit (count + 0)); [lia|].
    replace (Z.min limit (count + 0)) with count by lia. reflexivity.
  - cbn [each_loose_object List.length]. unfold Sys.bind, loose_object_count.
    rewrite to_int_id by (unfold CInt.INT_MAX in *; lia).
    destruct (Z.geb_spec (count + 1) limit) as [Hge|Hlt];
      unfold Sys.ret; cbn [negb Z.eqb].
    + destruct (Z.leb_spec limit (count + Z.of_nat (S (List.length objs))));
        [|lia].
      replace (Z.min limit (count + Z.of_nat (S (List.length objs))))
        with (count + 1) by lia.
      reflexivity.
    + rewrite IH by lia.
      replace (count + 1 + Z.of_nat (List.length objs))
        with (count + Z.of_nat (S (List.length objs))) by lia.
      reflexivity.
Qed.

(** X8. With a positive limit (maintenance.loose-objects.auto, 100 when
    not set) the loose-objects condition holds exactly when the object
    directory holds at least that many loose objects: the walk is stopped
    by the object that brings the count to the limit. *)
Theorem loose_object_auto_condition_counts sys cfg h :
  0 < configured_limit cfg "maintenance.loose-objects.auto" 100
    <= CInt.INT_MAX ->
  loose_object_auto_condition sys cfg h
  = (Sys.Ret
       (if configured_limit cfg "maintenance.loose-objects.auto" 100
           <=? Z.of_nat (List.length (Sys.loose_objects sys h))
        then 1 else 0), h).
Proof.
  intros Hl. unfold loose_object_auto_condition.
  fold (configured_limit cfg "maintenance.loose-objects.auto" 100).
  set (limit := configured_limit cfg "maintenance.loose-objects.auto" 100)
    in *.
  destruct (Z.eqb_spec limit 0); [lia|].
  destruct (Z.ltb_spec limit 0); [lia|].
  unfold for_each_loose_file_in_objdir, Sys.bind, Sys.ask.
  rewrite each_loose_object_count by lia.
  reflexivity.
Qed.

Lemma loose_object_auto_condition_counts_witness :
  loose_object_auto_condition
    (sample_system (fun _ _ => 0) (loose_names 100) [])
    (sample_config (fun _ => None) (fun _ => None)) []
  = (Sys.Ret 1, []).
Proof.
  apply (loose_object_auto_condition_counts
           (sample_system (fun _ _ => 0) (loose_names 100) [])
           (sample_config (fun _ => None) (fun _ => None)) []).
  vm_compute. split; [reflexivity | discriminate].
Defined.

(** ** Histories *)

Lemma statuses_app a b :
  Sys.statuses (a ++ b) = Sys.statuses a ++ Sys.statuses b.
Proof. apply flat_map_app. Qed.

Lemma children_app a b :
  Sys.children (a ++ b) = Sys.children a ++ Sys.children b.
Proof. apply flat_map_app. Qed.

Lemma processes_app a b :
  Sys.processes (a ++ b) = Sys.processes a ++ Sys.processes b.
Proof. apply flat_map_app. Qed.

Lemma fed_app a b : Sys.fed (a ++ b) = Sys.fed a ++ Sys.fed b.
Proof. apply flat_map_app. Qed.

Lemma fed_map_Feed l : Sys.fed (map Sys.Feed l) = l.
Proof.
  induction l as [|x l IH]; [reflexivity|]. cbn [map].
  change (Sys.fed (Sys.Feed x :: map Sys.Feed l))
    with (x :: Sys.fed (map Sys.Feed l)).
  rewrite IH. reflexivity.
Qed.

Lemma statuses_map_Feed l : Sys.statuses (map Sys.Feed l) = [].
Proof.
  induction l as [|x l IH]; [reflexivity|]. cbn [map].
  change (Sys.statuses (Sys.Feed x :: map Sys.Feed l))
    with (Sys.statuses (map Sys.Feed l)).
  exact IH.
Qed.

(** ** The loose-objects task *)

Lemma each_loose_object_exists objs h :
  each_loose_object objs loose_object_exists tt h
  = (Sys.Ret (match objs with [] => 0 | _ :: _ => 1 end, tt), h).
Proof. destruct objs; reflexivity. Qed.

Lemma write_loose_object_to_stdin_eq oid d h :
  write_loose_object_to_stdin oid d h
  = (Sys.Ret (if CInt.to_int (data_count d + 1) >? batch_size d
              then 1 else 0,
              mk_write_data (CInt.to_int (data_count d + 1)) (batch_size d)),
     h ++ [Sys.Feed oid]).
Proof. reflexivity. Qed.

Lemma each_loose_object_write batch objs : forall count h,
  0 <= count <= batch -> batch < CInt.INT_MAX ->
  exists r d,
    each_loose_object objs write_loose_object_to_stdin
      (mk_write_data count batch) h
    = (Sys.Ret (r, d),
       h ++ map Sys.Feed (firstn (Z.to_nat (batch + 1 - count)) objs)).
Proof.
  induction objs as [|oid objs IH]; intros count h Hc Hb.
  - exists 0, (mk_write_data count batch).
    cbn [each_loose_object]. unfold Sys.ret.
    rewrite firstn_nil. cbn [map]. rewrite app_nil_r. reflexivity.
  - cbn [each_loose_object]. unfold Sys.bind at 1.
    rewrite write_loose_object_to_stdin_eq. cbn [data_count batch_size].
    rewrite to_int_id by (unfold CInt.INT_MAX in *; lia).
    replace (Z.to_nat (batch + 1 - count))
      with (S (Z.to_nat (batch - count))) by lia.
    cbn [firstn map].
    destruct (Z.gtb_spec (count + 1) batch) as [Hgt|Hle]; cbn [negb Z.eqb].
    + exists 1, (mk_write_data (count + 1) batch).
      replace (Z.to_nat (batch - count)) with O by lia.
      reflexivity.
    + destruct (IH (count + 1) (h ++ [Sys.Feed oid])) as (r & d & E);
        [lia | exact Hb |].
      exists r, d. rewrite E.
      replace (batch + 1 - (count + 1)) with (batch - count) by lia.
      rewrite <- app_assoc. reflexivity.
Qed.

(** X9. When there are loose objects and pack-objects starts, [pack_loose]
    feeds it the names of the first 50001 loose objects of the walk, one a
    line and in the order of the walk, and no other: the callback stops the
    walk once the count has passed the batch size of 50000. *)
Theorem pack_loose_feeds sys opts h :
  Sys.loose_objects sys h <> [] ->
  Sys.start_status sys h (pack_proc_args sys opts) = 0 ->
  Sys.fed (snd (pack_loose sys opts h))
  = Sys.fed h
    ++ firstn (Z.to_nat 50001)
         (Sys.loose_objects sys
            (h ++ [Sys.Start (pack_proc_args sys opts) 0])).
Proof.
  intros Hne Hs.
  unfold pack_loose, for_each_loose_file_in_objdir.
  unfold Sys.bind at 1. unfold Sys.bind at 1. unfold Sys.ask at 1.
  rewrite each_loose_object_exists.
  destruct (Sys.loose_objects sys h) as [|o objs] eqn:El; [contradiction|].
  cbn [Z.eqb].
  unfold Sys.bind at 1. unfold Sys.start_command. rewrite Hs. cbn [negb Z.eqb].
  unfold Sys.bind at 1. unfold Sys.bind at 1. unfold Sys.ask.
  set (h1 := h ++ [Sys.Start (pack_proc_args sys opts) 0]).
  destruct (each_loose_object_write 50000 (Sys.loose_objects sys h1) 0 h1)
    as (r & d & E); [lia | unfold CInt.INT_MAX; lia |].
  rewrite E.
  change (50000 + 1 - 0) with 50001.
  set (l := firstn (Z.to_nat 50001) (Sys.loose_objects sys h1)).
  unfold Sys.bind, Sys.finish_command, Sys.error, Sys.ret.
  destruct (negb (Sys.finish_status sys (h1 ++ map Sys.Feed l) =? 0));
    cbn [snd]; unfold h1;
    rewrite ?fed_app, fed_map_Feed; cbn [Sys.fed flat_map app];
    rewrite ?app_nil_r; reflexivity.
Qed.

Lemma pack_loose_feeds_witness :
  Sys.fed
    (snd (pack_loose
            (sample_system (fun _ _ => 0) (loose_names 3) [])
            (mk_opts 0 1 0) []))
  = loose_names 3.
Proof.
  apply (pack_loose_feeds
           (sample_system (fun _ _ => 0) (loose_names 3) [])
           (mk_opts 0 1 0) []).
  - vm_compute. discriminate.
  - reflexivity.
Defined.

(** ** Running a command by hand

    [sys_unfold] opens the operations of the monad; [sys_case] splits the
    goal on an exit status that the command looks at, which it first
    forgets the origin of. *)

Ltac sys_unfold :=
  unfold Sys.run_command_v_opt, Sys.warning, Sys.close_object_store;
  unfold Sys.bind, Sys.ret, Sys.tell, Sys.tell_all, Sys.ask, Sys.die,
    Sys.exit, Sys.gone, Sys.run_command, Sys.start_command,
    Sys.finish_command, Sys.unlink, Sys.error;
  cbv beta iota zeta.

Ltac sys_split x :=
  let s := fresh "s" in
  let E := fresh "E" in
  remember x as s eqn:E; clear E;
  destruct (Z.eqb_spec s 0); [subst s|]; cbn [negb]; cbv beta iota.

Ltac sys_case :=
  match goal with
  | |- context [0 =? 0] =>
      change (0 =? 0) with true; cbn [negb]; cbv beta iota
  | |- context [1 =? 0] =>
      change (1 =? 0) with false; cbn [negb]; cbv beta iota
  | H : ?s <> 0 |- context [?s =? 0] =>
      rewrite (proj2 (Z.eqb_neq s 0) H); cbn [negb]; cbv beta iota
  | |- context [Sys.child_status ?a ?b ?c =? 0] =>
      sys_split (Sys.child_status a b c)
  | |- context [Sys.unlink_status ?a ?b ?c =? 0] =>
      sys_split (Sys.unlink_status a b c)
  end.

(** ** The commit-graph task *)

(** X11. Without --auto the commit-graph task ends in one of three ways:
    it returns 0, and then the last child it ran (the verify, or the write
    that follows the removal of the chain file) exited 0; it returns 1, and
    then the last child it ran, a write, failed; or it dies because the
    chain file could not be removed after a failed verify, and then runs no
    child any more. *)
Theorem maintenance_task_commit_graph_result sys opts h :
  auto_flag opts = 0 ->
  exists out new,
    maintenance_task_commit_graph sys opts h = (out, h ++ new) /\
    ((out = Sys.Ret 0 /\ last (Sys.statuses new) 1 = 0) \/
     (out = Sys.Ret 1 /\ last (Sys.statuses new) 0 <> 0) \/
     (exists s,
        s <> 0 /\
        out = Sys.Die ("failed to remove commit-graph at "
                       ++ Sys.commit_graph_chain_filename sys) /\
        last new Sys.CloseObjectStore
        = Sys.Unlink (Sys.commit_graph_chain_filename sys) s)).
Proof.
  intros Ha.
  set (Q := fun res : Sys.outcome Z * list Sys.action =>
    exists out new,
      res = (out, h ++ new) /\
      ((out = Sys.Ret 0 /\ last (Sys.statuses new) 1 = 0) \/
       (out = Sys.Ret 1 /\ last (Sys.statuses new) 0 <> 0) \/
       (exists s,
          s <> 0 /\
          out = Sys.Die ("failed to remove commit-graph at "
                         ++ Sys.commit_graph_chain_filename sys) /\
          last new Sys.CloseObjectStore
          = Sys.Unlink (Sys.commit_graph_chain_filename sys) s))).
  change (Q (maintenance_task_commit_graph sys opts h)).
  unfold maintenance_task_commit_graph, run_write_commit_graph,
    run_verify_commit_graph.
  rewrite Ha. cbn [Z.eqb negb]. sys_unfold.
  repeat sys_case;
    unfold Q; eexists; eexists;
    (split; [rewrite <- ?app_assoc; reflexivity|]);
    cbn [app Sys.statuses flat_map last];
    first [ left; split; [reflexivity | reflexivity]
          | right; left; split; [reflexivity | assumption]
          | right; right; eexists; split; [eassumption|];
            split; reflexivity ].
Qed.

Lemma maintenance_task_commit_graph_result_witness :
  exists out new,
    maintenance_task_commit_graph
      (sample_system (fun _ _ => 0) [] []) (mk_opts 0 0 0) []
    = (out, [] ++ new) /\
    ((out = Sys.Ret 0 /\ last (Sys.statuses new) 1 = 0) \/
     (out = Sys.Ret 1 /\ last (Sys.statuses new) 0 <> 0) \/
     (exists s,
        s <> 0 /\
        out = Sys.Die ("failed to remove commit-graph at "
                       ++ Sys.commit_graph_chain_filename
                            (sample_system (fun _ _ => 0) [] [])) /\
        last new Sys.CloseObjectStore
        = Sys.Unlink (Sys.commit_graph_chain_filename
                        (sample_system (fun _ _ => 0) [] [])) s)).
Proof.
  apply (maintenance_task_commit_graph_result
           (sample_system (fun _ _ => 0) [] []) (mk_opts 0 0 0) []).
  reflexivity.
Defined.

(** ** The pack-files task *)

(** X12. The pack-files task always returns, with 0 or 1.  When it returns
    0, the last child it ran exited 0 (after a failed verification that
    child is the write that makes the index anew).  When it returns 1, some
    child failed. *)
Theorem maintenance_task_pack_files_result sys opts h :
  exists r new,
    maintenance_task_pack_files sys opts h = (Sys.Ret r, h ++ new) /\
    ((r = 0 /\ last (Sys.statuses new) 1 = 0) \/
     (r = 1 /\ Exists (fun s => s <> 0) (Sys.statuses new))).
Proof.
  set (Q := fun res : Sys.outcome Z * list Sys.action =>
    exists r new,
      res = (Sys.Ret r, h ++ new) /\
      ((r = 0 /\ last (Sys.statuses new) 1 = 0) \/
       (r = 1 /\ Exists (fun s => s <> 0) (Sys.statuses new)))).
  change (Q (maintenance_task_pack_files sys opts h)).
  unfold maintenance_task_pack_files, multi_pack_index_repack,
    rewrite_multi_pack_index, multi_pack_index_expire,
    multi_pack_index_verify, multi_pack_index_write.
  sys_unfold.
  repeat sys_case;
    unfold Q; eexists; eexists;
    (split; [rewrite <- ?app_assoc; reflexivity|]);
    cbn [app Sys.statuses flat_map last];
    first [ left; split; reflexivity
          | right; split; [reflexivity|];
            repeat first [ apply Exists_cons_hd; assumption
                         | apply Exists_cons_tl ] ].
Qed.

(** ** The loose-objects task, as a whole *)

Lemma pack_loose_result sys opts h :
  exists r new,
    pack_loose sys opts h = (Sys.Ret r, h ++ new) /\
    ((r = 0 /\ Forall (fun s => s = 0) (Sys.statuses new)) \/
     (r = 1 /\ Exists (fun s => s <> 0) (Sys.statuses new))).
Proof.
  unfold pack_loose, for_each_loose_file_in_objdir.
  unfold Sys.bind at 1. unfold Sys.bind at 1. unfold Sys.ask at 1.
  rewrite each_loose_object_exists.
  destruct (Sys.loose_objects sys h) as [|o objs] eqn:El; cbn [Z.eqb].
  { exists 0, []. rewrite app_nil_r. split; [reflexivity|].
    left. split; [reflexivity | constructor]. }
  unfold Sys.bind at 1. unfold Sys.start_command.
  set (st := Sys.start_status sys h (pack_proc_args sys opts)).
  destruct (Z.eqb_spec st 0) as [Es|Es]; cbn [negb].
  2:{ exists 1, [Sys.Start (pack_proc_args sys opts) st;
                 Sys.Event
                   (Error "failed to start 'git pack-objects' process")].
      split; [unfold Sys.bind, Sys.error, Sys.ret; rewrite <- app_assoc;
              reflexivity|].
      right. split; [reflexivity|]. cbn. constructor. exact Es. }
  unfold Sys.bind at 1. unfold Sys.bind at 1. unfold Sys.ask.
  set (h1 := h ++ [Sys.Start (pack_proc_args sys opts) st]).
  destruct (each_loose_object_write 50000 (Sys.loose_objects sys h1) 0 h1)
    as (r & d & E); [lia | unfold CInt.INT_MAX; lia |].
  rewrite E.
  set (l := firstn _ (Sys.loose_objects sys h1)).
  unfold Sys.bind, Sys.finish_command, Sys.error, Sys.ret.
  set (f := Sys.finish_status sys (h1 ++ map Sys.Feed l)).
  destruct (Z.eqb_spec f 0) as [Ef|Ef]; cbn [negb].
  - exists 0, ([Sys.Start (pack_proc_args sys opts) st] ++ map Sys.Feed l
               ++ [Sys.Finish f]).
    split; [unfold h1; rewrite <- !app_assoc; reflexivity|].
    left. split; [reflexivity|].
    rewrite !statuses_app, statuses_map_Feed. cbn.
    repeat constructor; assumption.
  - exists 1, ([Sys.Start (pack_proc_args sys opts) st] ++ map Sys.Feed l
               ++ [Sys.Finish f;
                   Sys.Event
                     (Error "failed to finish 'git pack-objects' process")]).
    split; [unfold h1; rewrite <- !app_assoc; reflexivity|].
    right. split; [reflexivity|].
    rewrite !statuses_app, statuses_map_Feed. cbn.
    apply Exists_cons_tl. apply Exists_cons_hd. exact Ef.
Qed.

(** X10. The loose-objects task always returns, with 0 or 1: 0 exactly
    when every step it took (prune-packed, then the start and the end of
    pack-objects when there are loose objects) succeeded, 1 as soon as one
    failed. *)
Theorem maintenance_task_loose_objects_result sys opts h :
  exists r new,
    maintenance_task_loose_objects sys opts h = (Sys.Ret r, h ++ new) /\
    ((r = 0 /\ Forall (fun s => s = 0) (Sys.statuses new)) \/
     (r = 1 /\ Exists (fun s => s <> 0) (Sys.statuses new))).
Proof.
  unfold maintenance_task_loose_objects, prune_packed.
  unfold Sys.bind at 1. unfold Sys.run_command_v_opt, Sys.run_command.
  set (argv := _ ++ _).
  set (p := Sys.child_status sys h argv).
  destruct (Z.eqb_spec p 0) as [Ep|Ep]; cbn [negb].
  - destruct (pack_loose_result sys opts (h ++ [Sys.Run argv p]))
      as (r & new & E & R).
    unfold Sys.bind. rewrite E. unfold Sys.ret.
    destruct R as [[-> F] | [-> X]].
    + exists 0, (Sys.Run argv p :: new).
      split; [rewrite <- app_assoc; reflexivity|].
      left. split; [reflexivity|].
      change (Sys.statuses (Sys.Run argv p :: new))
        with (p :: Sys.statuses new).
      constructor; assumption.
    + exists 1, (Sys.Run argv p :: new).
      split; [rewrite <- app_assoc; reflexivity|].
      right. split; [reflexivity|].
      change (Sys.statuses (Sys.Run argv p :: new))
        with (p :: Sys.statuses new).
      apply Exists_cons_tl. exact X.
  - exists 1, [Sys.Run argv p]. split; [reflexivity|].
    right. split; [reflexivity|]. cbn. constructor. exact Ep.
Qed.

(** ** Rules of the logic *)

Lemma triple_ret {A} (P : list Sys.action -> Prop) (a : A) Q F :
  (forall h, P h -> Q a h) -> triple P (Sys.ret a) Q F.
Proof. intros H h Hp. exact (H h Hp). Qed.

Lemma triple_bind {A B} (P : list Sys.action -> Prop) (m : Sys.M A)
    (k : A -> Sys.M B) (Q1 : A -> list Sys.action -> Prop) Q F :
  triple P m Q1 F -> (forall a, triple (Q1 a) (k a) Q F) ->
  triple P (Sys.bind m k) Q F.
Proof.
  intros Hm Hk h Hp. specialize (Hm h Hp). unfold Sys.bind.
  destruct (m h) as [[a|text|status|callee] h1]; cbn [forget] in *;
    [exact (Hk a h1 Hm) | exact Hm ..].
Qed.

Lemma triple_conseq {A} (P P' : list Sys.action -> Prop) (m : Sys.M A)
    (Q Q' : A -> list Sys.action -> Prop) F :
  triple P m Q F -> (forall h, P' h -> P h) ->
  (forall a h, Q a h -> Q' a h) -> triple P' m Q' F.
Proof.
  intros Hm Hp Hq h Hp'. specialize (Hm h (Hp h Hp')).
  destruct (m h) as [[a|text|status|callee] h1]; auto.
Qed.

Lemma triple_fail {A} (P : list Sys.action -> Prop) (m : Sys.M A) Q
    (F : Sys.outcome unit -> list Sys.action -> Prop) out :
  (forall h, m h = (out, h)) -> (forall a, out <> Sys.Ret a) ->
  (forall h, P h -> F (forget out) h) -> triple P m Q F.
Proof.
  intros Hm Hne Hf h Hp. rewrite Hm.
  destruct out as [a|text|status|callee];
    [destruct (Hne a eq_refl) | exact (Hf h Hp) ..].
Qed.

Lemma triple_bind_assoc {A B C} (P : list Sys.action -> Prop) (m : Sys.M A)
    (f : A -> Sys.M B) (g : B -> Sys.M C) Q F :
  triple P (Sys.bind (Sys.bind m f) g) Q F ->
  triple P (Sys.bind m (fun a => Sys.bind (f a) g)) Q F.
Proof.
  intros H h Hp. specialize (H h Hp). unfold Sys.bind in *.
  destruct (m h) as [[a|text|status|callee] h1]; [|exact H ..].
  destruct (f a h1) as [[b|text|status|callee] h2]; exact H.
Qed.

Lemma triple_close_run (I3 I4 : list Sys.action -> Prop) F sys argv :
  (forall h, I3 h -> I3 (h ++ [Sys.CloseObjectStore])) ->
  triple I3 (run_or_die sys argv) (fun _ => I4) F ->
  triple I3 (Sys.close_object_store ;; run_or_die sys argv) (fun _ => I4) F.
Proof.
  intros Hc Hr. apply (triple_bind _ _ _ (fun _ => I3)); [|intros _; exact Hr].
  intros h Hi. exact (Hc h Hi).
Qed.

Lemma triple_tell (P : list Sys.action -> Prop) a Q F :
  (forall h, P h -> Q tt (h ++ [a])) -> triple P (Sys.tell a) Q F.
Proof. intros H h Hp. exact (H h Hp). Qed.

Lemma triple_tell_all (P : list Sys.action -> Prop) l Q F :
  (forall h, P h -> Q tt (h ++ l)) -> triple P (Sys.tell_all l) Q F.
Proof. intros H h Hp. exact (H h Hp). Qed.

Lemma triple_ask {A} (P : list Sys.action -> Prop)
    (f : list Sys.action -> A) Q F :
  (forall h, P h -> Q (f h) h) -> triple P (Sys.ask f) Q F.
Proof. intros H h Hp. exact (H h Hp). Qed.

Lemma triple_unlink (P : list Sys.action -> Prop) sys path Q F :
  (forall h s, P h -> Q s (h ++ [Sys.Unlink path s])) ->
  triple P (Sys.unlink sys path) Q F.
Proof. intros H h Hp. exact (H h _ Hp). Qed.

(** ** What need_to_gc does to the arguments of repack *)

Lemma add_repack_all_option_appends k st :
  exists added, repack (add_repack_all_option k st) = repack st ++ added.
Proof.
  assert (N : exists added,
            repack (add_repack_all_option None st) = repack st ++ added).
  { unfold add_repack_all_option.
    destruct (prune_expire st) as [e|];
      [destruct (String.eqb e "now")|];
      unfold argv_array_push; cbn [repack]; rewrite <- ?app_assoc;
      eexists; reflexivity. }
  destruct k as [items|]; [|exact N].
  destruct N as (added & E).
  rewrite repack_add_repack_all_option, E, <- app_assoc.
  eexists; reflexivity.
Qed.

Lemma need_to_gc_keep_pack_repack r pf st :
  repack (snd (need_to_gc_keep_pack r pf st)) = repack st.
Proof.
  unfold need_to_gc_keep_pack.
  destruct (negb (big_pack_threshold st =? 0)).
  - destruct (find_base_packs r [] (big_pack_threshold st)) as [kp b].
    destruct (Z.of_nat (List.length kp) >=? gc_auto_pack_limit st);
      [destruct (find_base_packs r [] 0)|]; reflexivity.
  - destruct (find_base_packs r [] 0) as [kp b].
    destruct ((total_ram pf =? 0)
              || (estimate_repack_memory pf st b
                  <? CInt.cdiv (total_ram pf) 2)); reflexivity.
Qed.

Lemma need_to_gc_appends r pf st :
  exists added, repack (snd (need_to_gc r pf st)) = repack st ++ added.
Proof.
  assert (Z0 : exists added, repack st = repack st ++ added)
    by (exists []; rewrite app_nil_r; reflexivity).
  unfold need_to_gc.
  destruct (gc_auto_threshold st <=? 0); [exact Z0|].
  destruct (negb (too_many_packs r st =? 0)).
  - pose proof (need_to_gc_keep_pack_repack r pf st) as K.
    destruct (need_to_gc_keep_pack r pf st) as [kp st1]. cbn [snd] in K.
    destruct (add_repack_all_option_appends (Some kp) st1) as (added & E).
    rewrite K in E.
    destruct (negb (run_hook_pre_auto_gc pf =? 0)); cbn [snd];
      exists added; exact E.
  - destruct (negb (too_many_loose_objects r st =? 0)); [|exact Z0].
    destruct (negb (run_hook_pre_auto_gc pf =? 0)); cbn [snd];
      exists ["--no-write-bitmap-index"]; reflexivity.
Qed.

Lemma argv_array_push_appends arg st :
  repack (argv_array_push arg st) = repack st ++ [arg].
Proof. reflexivity. Qed.

(** ** An invariant carried through cmd_gc

    [I k] is a property of the history that holds before stage [k] of the
    pipeline (1 pack-refs, 2 reflog expire, 3 repack, 4 prune, 5 worktree
    prune, 6 rerere gc, 7 the end) and [F] is what is known when the process
    ends early.  If actions that are no children keep [I k], a stage may be
    left out, and each child takes [I k] to [I (k + 1)], then [cmd_gc] takes
    [I 1] to [I 7]. *)

(** [need_to_gc] by whether it comes to the hook: if not, it answers 0
    and leaves the globals alone; if so, its answer is that of the hook. *)
Lemma need_to_gc_hook r pf st :
  need_to_gc r pf st =
  if need_to_gc_reaches_hook r st
  then (if run_hook_pre_auto_gc pf =? 0 then 1 else 0,
        snd (need_to_gc r pf st))
  else (0, st).
Proof.
  unfold need_to_gc_reaches_hook.
  destruct (Z.leb_spec (gc_auto_threshold st) 0) as [Hg|Hg]; cbn [negb andb].
  { apply need_to_gc_disabled. exact Hg. }
  destruct (Z.eqb_spec (too_many_packs r st) 0) as [Hp|Hp]; cbn [negb orb].
  - destruct (Z.eqb_spec (too_many_loose_objects r st) 0) as [Hl|Hl];
      cbn [negb].
    + apply need_to_gc_nothing_to_do; assumption.
    + rewrite need_to_gc_incremental by assumption. reflexivity.
  - rewrite need_to_gc_all by assumption. reflexivity.
Qed.

Section GcInvariant.

Variable sys : Sys.system.
Variable cfg : Sys.config.
Variable world : gc_world.
Variable o : gc_options.
Variable c : gc_statics.
Variable st0 : gc_state.
Variable I : Z -> list Sys.action -> Prop.
Variable F : Sys.outcome unit -> list Sys.action -> Prop.

(** [I 0] holds when [cmd_gc] begins, [I 1] after the call of
    [need_to_gc], [I 2] to [I 7] after the stages of the pipeline, [I 8]
    when [cmd_gc] returns. *)
Hypothesis I_other : forall k h a,
  1 <= k <= 7 -> Sys.processes [a] = [] -> I k h -> I k (h ++ [a]).
Hypothesis I_upto : forall k k' h, 0 <= k <= k' -> k' <= 8 -> I k h -> I k' h.
Hypothesis I_fail : forall k h out,
  0 <= k <= 7 -> gc_failure o out -> I k h -> F out h.
Hypothesis I_hook : forall s h,
  I 0 h ->
  (s = 0 -> I 1 (h ++ [Sys.Hook "pre-auto-gc" s])) /\
  (s <> 0 -> I 8 (h ++ [Sys.Hook "pre-auto-gc" s])).
Hypothesis I_pack_refs :
  pack_refs c <> 0 ->
  triple (I 1) (run_or_die sys pack_refs_cmd) (fun _ => I 2) F.
Hypothesis I_reflog :
  prune_reflogs c <> 0 ->
  triple (I 2) (run_or_die sys reflog) (fun _ => I 3) F.
Hypothesis I_repack :
  repository_format_precious_objects world = 0 ->
  forall added,
    triple (I 3)
      (Sys.close_object_store ;; run_or_die sys (repack st0 ++ added))
      (fun _ => I 4) F.
Hypothesis I_prune :
  repository_format_precious_objects world = 0 ->
  forall e (q p : bool),
    triple (I 4)
      (run_or_die sys
         (prune ++ [e] ++ (if q then ["--no-progress"] else [])
          ++ (if p then ["--exclude-promisor-objects"] else [])))
      (fun _ => I 5) F.
Hypothesis I_worktree :
  forall e,
    triple (I 5) (run_or_die sys (prune_worktrees ++ [e])) (fun _ => I 6) F.
Hypothesis I_rerere :
  triple (I 6) (run_or_die sys rerere) (fun _ => I 7) F.

Lemma I_others k l : forall h,
  1 <= k <= 7 -> Sys.processes l = [] -> I k h -> I k (h ++ l).
Proof.
  induction l as [|a l IH]; intros h Hk Hl Hi.
  - rewrite app_nil_r. exact Hi.
  - change (a :: l) with ([a] ++ l) in *.
    rewrite processes_app in Hl. apply app_eq_nil in Hl.
    destruct Hl as [Ha Hl].
    rewrite app_assoc. apply IH; [exact Hk | exact Hl|].
    apply I_other; assumption.
Qed.

Lemma processes_map_Event l : Sys.processes (map Sys.Event l) = [].
Proof.
  induction l as [|e l IH]; [reflexivity|]. cbn [map].
  change (Sys.processes (Sys.Event e :: map Sys.Event l))
    with (Sys.processes (map Sys.Event l)).
  exact IH.
Qed.

Lemma processes_map_UnlinkOrWarn l :
  Sys.processes (map Sys.UnlinkOrWarn l) = [].
Proof.
  induction l as [|e l IH]; [reflexivity|]. cbn [map].
  change (Sys.processes (Sys.UnlinkOrWarn e :: map Sys.UnlinkOrWarn l))
    with (Sys.processes (map Sys.UnlinkOrWarn l)).
  exact IH.
Qed.

Lemma lock_repo_keeps k force_flag :
  1 <= k <= 7 ->
  triple (I k) (lock_repo world force_flag) (fun _ => I k) F.
Proof.
  intros Hk. unfold lock_repo.
  apply (triple_bind _ _ _ (fun _ => I k));
    [apply triple_ask; auto | intros e].
  destruct (lock_repo_for_gc (negb (force_flag =? 0)) e)
    as [| |host pid|written].
  - apply (triple_fail _ _ _ _ (Sys.Gone "hold_lock_file_for_update"));
      [reflexivity | discriminate
      | intros h Hi; apply (I_fail k); [lia | left; reflexivity
                                        | exact Hi]].
  - apply triple_ret; auto.
  - apply triple_ret; auto.
  - apply (triple_bind _ _ _ (fun _ => I k));
      [apply triple_tell; intros h Hi; apply I_other; [lia | reflexivity | exact Hi]
      | intros _; apply triple_ret; auto].
Qed.

Lemma gc_before_repack_first :
  triple (I 1) (gc_before_repack sys c 0) (fun done h => done <> 0 /\ I 3 h)
    F.
Proof.
  unfold gc_before_repack. cbn [Z.eqb negb].
  apply (triple_bind _ _ _ (fun _ => I 2)).
  { destruct (Z.eqb_spec (pack_refs c) 0) as [E|E]; cbn [negb];
      [|exact (I_pack_refs E)].
    apply triple_ret. intros h Hi. apply (I_upto 1 2); [lia | lia | exact Hi]. }
  intros _. apply (triple_bind _ _ _ (fun _ => I 3)).
  { destruct (Z.eqb_spec (prune_reflogs c) 0) as [E|E]; cbn [negb];
      [|exact (I_reflog E)].
    apply triple_ret. intros h Hi. apply (I_upto 2 3); [lia | lia | exact Hi]. }
  intros _. apply triple_ret. intros h Hi.
  split; [vm_compute; discriminate | exact Hi].
Qed.

Lemma gc_before_repack_again done k :
  done <> 0 -> triple (I k) (gc_before_repack sys c done) (fun _ => I k) F.
Proof.
  intros Hd. unfold gc_before_repack.
  destruct (Z.eqb_spec done 0); [contradiction|]. cbn [negb].
  apply triple_ret. auto.
Qed.

Lemma cmd_gc_from_lock_keeps st done daemonized k :
  (exists added, repack st = repack st0 ++ added) ->
  (done = 0 /\ k = 1) \/ (done <> 0 /\ k = 3) ->
  triple (I k) (cmd_gc_from_lock sys world o c st done daemonized)
    (fun r h => r = 0 /\ I 8 h) F.
Proof.
  intros (added & Hst) Hd.
  assert (Hk : 1 <= k <= 3) by (destruct Hd as [[_ ->]|[_ ->]]; lia).
  unfold cmd_gc_from_lock.
  apply (triple_bind _ _ _ (fun _ => I k));
    [apply lock_repo_keeps; lia | intros name].
  destruct name as [[host pid]|].
  { destruct (Z.eqb_spec (auto_gc o) 0) as [Ea|Ea]; cbn [negb].
    - eapply triple_fail;
        [reflexivity | discriminate
        | intros h Hi; apply (I_fail k); [lia | | exact Hi]].
      right. right. right. split; [exact Ea|]. exists host, pid. reflexivity.
    - apply triple_ret. intros h Hi. split; [reflexivity|].
      apply (I_upto k 8); [lia | lia | exact Hi]. }
  apply (triple_bind _ _ _ (fun _ => I k)).
  { destruct (negb (daemonized =? 0)); [|apply triple_ret; auto].
    apply (triple_bind _ _ _ (fun _ => I k));
      [apply triple_ask; auto | intros free].
    destruct free.
    - apply triple_tell. intros h Hi. apply I_other; [lia | reflexivity | exact Hi].
    - eapply triple_fail;
        [reflexivity | discriminate
        | intros h Hi; apply (I_fail k); [lia | left; reflexivity
                                          | exact Hi]]. }
  intros _. apply (triple_bind _ _ _ (fun _ => I 3)).
  { destruct Hd as [[-> ->]|[Hd ->]].
    - eapply triple_conseq; [apply gc_before_repack_first | auto |].
      intros a h [_ Hi]. exact Hi.
    - apply gc_before_repack_again. exact Hd. }
  intros _. apply (triple_bind _ _ _ (fun _ => I 5)).
  { destruct (Z.eqb_spec (repository_format_precious_objects world) 0)
      as [Hp|Hp].
    - apply triple_bind_assoc.
      apply (triple_bind _ _ _ (fun _ => I 4));
        [rewrite Hst; apply I_repack; exact Hp | intros _].
      destruct (prune_expire st) as [e|].
      + apply I_prune. exact Hp.
      + apply triple_ret. intros h Hi.
        apply (I_upto 4 5); [lia | lia | exact Hi].
    - apply triple_ret. intros h Hi.
      apply (I_upto 3 5); [lia | lia | exact Hi]. }
  intros _. apply (triple_bind _ _ _ (fun _ => I 6)).
  { destruct (prune_worktrees_expire c) as [e|]; [apply I_worktree|].
    apply triple_ret. intros h Hi. apply (I_upto 5 6); [lia | lia | exact Hi]. }
  intros _. apply (triple_bind _ _ _ (fun _ => I 7)); [exact I_rerere|].
  intros _. apply (triple_bind _ _ _ (fun _ => I 7));
    [apply triple_ask; auto | intros reports].
  apply (triple_bind _ _ _ (fun _ => I 7)).
  { destruct (Z.of_nat (List.length _) >? 0); [|apply triple_ret; auto].
    apply (triple_bind _ _ _ (fun _ => I 7));
      [apply triple_tell; intros h Hi; apply I_other;
       [lia | reflexivity | exact Hi] | intros _].
    apply (triple_bind _ _ _ (fun _ => I 7)); [|intros _; apply triple_ret; auto].
    unfold clean_pack_garbage.
    apply (triple_bind _ _ _ (fun _ => I 7)); [|intros _; apply triple_ret; auto].
    apply triple_tell_all. intros h Hi.
    apply I_others; [lia | apply processes_map_UnlinkOrWarn | exact Hi]. }
  intros _. apply (triple_bind _ _ _ (fun _ => I 7)).
  { destruct (gc_write_commit_graph world =? 1); [|apply triple_ret; auto].
    apply triple_tell. intros h Hi. apply I_other; [lia | reflexivity | exact Hi]. }
  intros _. apply (triple_bind _ _ _ (fun _ => I 7));
    [apply triple_ask; auto | intros r].
  apply (triple_bind _ _ _ (fun _ => I 7)).
  { destruct (negb (auto_gc o =? 0) && negb (too_many_loose_objects r st =? 0));
      [|apply triple_ret; auto].
    apply triple_tell. intros h Hi. apply I_other; [lia | reflexivity | exact Hi]. }
  intros _. apply (triple_bind _ _ _ (fun _ => I 7)).
  { destruct (daemonized =? 0); [|apply triple_ret; auto].
    apply (triple_bind _ _ _ (fun _ => I 7)); [|intros _; apply triple_ret; auto].
    apply triple_unlink. intros h s Hi.
    apply I_other; [lia | reflexivity | exact Hi]. }
  intros _. apply triple_ret. intros h Hi. split; [reflexivity|].
  apply (I_upto 7 8); [lia | lia | exact Hi].
Qed.

Lemma need_to_gc_step_keeps st :
  triple (I 0) (need_to_gc_step world st)
    (fun ns h =>
       exists r,
         ns = need_to_gc r (the_platform world) st /\
         (fst ns = 0 -> I 8 h) /\ (fst ns <> 0 -> I 1 h))
    F.
Proof.
  unfold need_to_gc_step.
  apply (triple_bind _ _ _ (fun r' h => r' = repo_at world h /\ I 0 h));
    [apply triple_ask; auto | intros r].
  intros h [Hr Hi]. unfold Sys.bind, Sys.run_hook_le, Sys.ret.
  pose proof (need_to_gc_hook r (the_platform world) st) as Hn.
  destruct (need_to_gc_reaches_hook r st).
  - exists r. split; [reflexivity|]. rewrite Hn. cbn [fst].
    destruct (I_hook (run_hook_pre_auto_gc (the_platform world)) h Hi)
      as [Hok Hno].
    destruct (Z.eqb_spec (run_hook_pre_auto_gc (the_platform world)) 0)
      as [E|E].
    + split; [discriminate | intros _; exact (Hok E)].
    + split; [intros _; exact (Hno E) | intros X; destruct (X eq_refl)].
  - exists r. split; [reflexivity|]. rewrite Hn. cbn [fst].
    split; [|intros X; destruct (X eq_refl)].
    intros _. apply (I_upto 0 8); [lia | lia | exact Hi].
Qed.

Lemma cmd_gc_after_options_keeps :
  triple (I 0) (cmd_gc_after_options sys cfg world o c st0)
    (fun r h => r = 0 /\ I 8 h) F.
Proof.
  unfold cmd_gc_after_options.
  apply (triple_bind _ _ _ (fun _ => I 0)).
  { destruct (prune_expire st0) as [e|]; [|apply triple_ret; auto].
    destruct (Sys.parse_expiry_date cfg e); [apply triple_ret; auto|].
    eapply triple_fail;
      [reflexivity | discriminate
      | intros h Hi; apply (I_fail 0); [lia | | exact Hi]].
    right. right. left. exists e. reflexivity. }
  intros _.
  set (st1 := if negb (aggressive o =? 0) then _ else st0).
  set (st2 := if negb (gc_quiet o =? 0) then _ else st1).
  assert (H2 : exists added, repack st2 = repack st0 ++ added).
  { assert (H1 : exists added, repack st1 = repack st0 ++ added).
    { unfold st1. destruct (negb (aggressive o =? 0));
        [|exists []; rewrite app_nil_r; reflexivity].
      destruct (aggressive_depth c >? 0), (aggressive_window c >? 0);
        rewrite ?argv_array_push_appends, <- ?app_assoc;
        eexists; reflexivity. }
    destruct H1 as (a1 & E1). unfold st2.
    destruct (negb (gc_quiet o =? 0));
      [rewrite argv_array_push_appends, E1, <- app_assoc|rewrite E1];
      eexists; reflexivity. }
  clearbody st2. clear st1.
  destruct (negb (auto_gc o =? 0)).
  - eapply triple_bind; [apply need_to_gc_step_keeps | intros ns].
    intros h (r & Hns & Hzero & Hone).
    pose proof (need_to_gc_appends r (the_platform world) st2) as H3.
    rewrite <- Hns in H3. destruct ns as [need st3].
    cbn [fst snd] in *.
    assert (H4 : exists added, repack st3 = repack st0 ++ added).
    { destruct H2 as (a2 & E2), H3 as (a3 & E3).
      rewrite E3, E2, <- app_assoc. eexists; reflexivity. }
    destruct (Z.eqb_spec need 0) as [En|En].
    { split; [reflexivity | exact (Hzero En)]. }
    specialize (Hone En). clear Hzero Hns. revert h Hone.
    change (triple (I 1)
              (Sys.tell_all
                 (map Sys.Event
                    (auto_messages (negb (gc_quiet o =? 0))
                       (negb (detach_auto c =? 0)))) ;;
               (if negb (detach_auto c =? 0)
                then
                  log <- Sys.ask (gc_log_at world) ;;
                  (let '(ret, diag) :=
                     report_last_gc_error log (gc_log_expire_time c) in
                   Sys.tell_all (map Sys.Event diag) ;;
                   (if ret <? 0 then Sys.exit 128
                    else if ret =? 1 then Sys.ret 0
                    else
                      name <- lock_repo world (force o) ;;
                      match name with
                      | Some _ => Sys.ret 0
                      | None =>
                          done <- gc_before_repack sys c 0 ;;
                          Sys.tell Sys.DeletePidFile ;;
                          d <- (fun h =>
                                  let status := daemonize world h in
                                  (Sys.Ret status,
                                   h ++ [Sys.Daemonize status])) ;;
                          cmd_gc_from_lock sys world o c st3 done
                            (if d =? 0 then 1 else 0)
                      end))
                else cmd_gc_from_lock sys world o c st3 0 0))
              (fun r h => r = 0 /\ I 8 h) F).
    apply (triple_bind _ _ _ (fun _ => I 1)).
    { apply triple_tell_all. intros h Hi.
      apply I_others; [lia | apply processes_map_Event | exact Hi]. }
    intros _.
    destruct (negb (detach_auto c =? 0)).
    + apply (triple_bind _ _ _ (fun _ => I 1));
        [apply triple_ask; auto | intros log].
      destruct (report_last_gc_error log (gc_log_expire_time c))
        as [ret diag].
      apply (triple_bind _ _ _ (fun _ => I 1)).
      { apply triple_tell_all. intros h Hi.
        apply I_others; [lia | apply processes_map_Event | exact Hi]. }
      intros _.
      destruct (ret <? 0).
      { eapply triple_fail;
          [reflexivity | discriminate
          | intros h Hi; apply (I_fail 1);
            [lia | right; left; reflexivity | exact Hi]]. }
      destruct (ret =? 1).
      { apply triple_ret. intros h Hi. split; [reflexivity|].
        apply (I_upto 1 8); [lia | lia | exact Hi]. }
      apply (triple_bind _ _ _ (fun _ => I 1));
        [apply lock_repo_keeps; lia | intros name].
      destruct name as [hp|].
      { apply triple_ret. intros h Hi. split; [reflexivity|].
        apply (I_upto 1 8); [lia | lia | exact Hi]. }
      apply (triple_bind _ _ _ (fun done h => done <> 0 /\ I 3 h));
        [apply gc_before_repack_first | intros done].
      apply (triple_bind _ _ _ (fun _ h => done <> 0 /\ I 3 h)).
      { apply triple_tell. intros h [Hd Hi]. split; [exact Hd|].
        apply I_other; [lia | reflexivity | exact Hi]. }
      intros _.
      apply (triple_bind _ _ _ (fun _ h => done <> 0 /\ I 3 h)).
      { intros h [Hd Hi]. split; [exact Hd|].
        apply I_other; [lia | reflexivity | exact Hi]. }
      intros d.
      intros h [Hd Hi].
      exact (cmd_gc_from_lock_keeps st3 done _ 3 H4
               (or_intror (conj Hd eq_refl)) h Hi).
    + apply cmd_gc_from_lock_keeps; [exact H4 | left; split; reflexivity].
  - apply (triple_bind _ _ _ (fun _ => I 1));
      [apply triple_ask; intros h Hi;
       apply (I_upto 0 1); [lia | lia | exact Hi] | intros r].
    apply cmd_gc_from_lock_keeps; [|left; split; reflexivity].
    destruct (add_repack_all_option_appends
                (Some (if negb (keep_base_pack o =? -1)
                       then if negb (keep_base_pack o =? 0)
                            then fst (find_base_packs r [] 0) else []
                       else if negb (big_pack_threshold st2 =? 0)
                            then fst (find_base_packs r []
                                        (big_pack_threshold st2))
                            else [])) st2) as (a & E).
    destruct H2 as (a2 & E2).
    rewrite E, E2, <- app_assoc. eexists; reflexivity.
Qed.

End GcInvariant.

Lemma processes_children a :
  Sys.processes [a] = [] -> Sys.children [a] = [].
Proof. destruct a; try reflexivity; discriminate. Qed.

(** The same for a property [J] that no stage changes and that only the
    git children bear on. *)
Lemma cmd_gc_after_options_keeps_all sys cfg world o c st
    (J : list Sys.action -> Prop)
    (F : Sys.outcome unit -> list Sys.action -> Prop) :
  (forall h a, Sys.children [a] = [] -> J h -> J (h ++ [a])) ->
  (forall h out, gc_failure o out -> J h -> F out h) ->
  (pack_refs c <> 0 ->
   triple J (run_or_die sys pack_refs_cmd) (fun _ => J) F) ->
  (prune_reflogs c <> 0 ->
   triple J (run_or_die sys reflog) (fun _ => J) F) ->
  (repository_format_precious_objects world = 0 ->
   forall added,
     triple J
       (Sys.close_object_store ;; run_or_die sys (repack st ++ added))
       (fun _ => J) F) ->
  (repository_format_precious_objects world = 0 ->
   forall e (q p : bool),
     triple J
       (run_or_die sys
          (prune ++ [e] ++ (if q then ["--no-progress"] else [])
           ++ (if p then ["--exclude-promisor-objects"] else [])))
       (fun _ => J) F) ->
  (forall e,
     triple J (run_or_die sys (prune_worktrees ++ [e])) (fun _ => J) F) ->
  triple J (run_or_die sys rerere) (fun _ => J) F ->
  triple J (cmd_gc_after_options sys cfg world o c st)
    (fun r h => r = 0 /\ J h) F.
Proof.
  intros Ho Hf H1 H2 H3 H4 H5 H6.
  apply (cmd_gc_after_options_keeps sys cfg world o c st (fun _ => J) F);
    try assumption.
  - intros k h a _ Hp. apply Ho. apply processes_children. exact Hp.
  - auto.
  - intros k h out _. apply Hf.
  - intros s h Hj. split; intros _; apply Ho; (reflexivity || exact Hj).
Qed.

(** ** cmd_gc: a failed child ends the run *)




Section FailedChild.

Variable sys : Sys.system.
Variable o : gc_options.

(** What holds of the history at stage [k]: nothing has been done at
    stage 0; up to stage 7 every process has succeeded; when [cmd_gc]
    returns, either is so or the hook has refused the run. *)
Let I (k : Z) (h : list Sys.action) : Prop :=
  (k = 0 -> h = []) /\
  (k <= 7 -> processes_succeeded h) /\
  (processes_succeeded h \/ hook_refused h).

Let F (out : Sys.outcome unit) (h : list Sys.action) : Prop :=
  processes_succeeded h \/ run_failed out h.






End FailedChild.




(** ** cmd_gc: the order of the processes *)

Lemma stages_app a b : stages (a ++ b) = stages a ++ stages b.
Proof. apply flat_map_app. Qed.

Lemma staged_other k h a :
  Sys.processes [a] = [] -> staged k h -> staged k (h ++ [a]).
Proof.
  intros Ha Hh. unfold staged.
  assert (E : stages [a] = []) by (destruct a; try reflexivity; discriminate).
  rewrite stages_app, E, app_nil_r. exact Hh.
Qed.

Lemma staged_upto k k' h : k <= k' -> staged k h -> staged k' h.
Proof.
  intros Hk [Hs Hb]. split; [exact Hs|].
  eapply Forall_impl; [|exact Hb]. cbv beta. intros; lia.
Qed.

Lemma staged_process j h a :
  stages [a] = [j] -> 1 <= j ->
  staged j h -> staged (j + 1) (h ++ [a]).
Proof.
  intros Ha Hj [Hs Hb]. unfold staged.
  rewrite stages_app, Ha. split.
  - apply StronglySorted_snoc; [exact Hs|].
    eapply Forall_impl; [|exact Hb]. cbv beta. intros; lia.
  - apply Forall_app. split.
    + eapply Forall_impl; [|exact Hb]. cbv beta. intros; lia.
    + repeat constructor; lia.
Qed.

Lemma run_or_die_staged sys argv j :
  gc_stage argv = j -> 1 <= j <= 7 ->
  triple (staged j) (run_or_die sys argv) (fun _ => staged (j + 1))
    (fun _ => staged 8).
Proof.
  intros Hg Hj h Hh.
  unfold run_or_die, Sys.bind, Sys.run_command_v_opt, Sys.run_command.
  assert (Ha : stages [Sys.Run argv (Sys.child_status sys h argv)] = [j]).
  { unfold stages. cbn [flat_map process_stage app]. rewrite Hg.
    reflexivity. }
  pose proof (staged_process j h
                (Sys.Run argv (Sys.child_status sys h argv))
                Ha (proj1 Hj) Hh) as R.
  destruct (negb (Sys.child_status sys h argv =? 0)).
  - unfold Sys.die. cbn [forget].
    apply (staged_upto (j + 1)); [lia | exact R].
  - exact R.
Qed.

Lemma gc_stage_repack argv added :
  hd "" argv = "repack" -> gc_stage (argv ++ added) = 4.
Proof.
  intros H. destruct argv as [|a argv]; [discriminate H|].
  cbn [hd] in H. subst a. reflexivity.
Qed.

Lemma cmd_gc_after_options_staged sys cfg world o c st :
  hd "" (repack st) = "repack" ->
  staged 8 (snd (cmd_gc_after_options sys cfg world o c st [])).
Proof.
  intros Hr.
  assert (T : triple (staged 1)
                (cmd_gc_after_options sys cfg world o c st)
                (fun r h => r = 0 /\ staged 8 h) (fun _ => staged 8)).
  { apply (cmd_gc_after_options_keeps sys cfg world o c st
             (fun k => staged (Z.min (k + 1) 8)) (fun _ => staged 8)).
    - intros k h a _. apply staged_other.
    - intros k k' h Hk _. apply staged_upto. lia.
    - intros k h out Hk _. apply staged_upto. lia.
    - intros s h Hh.
      pose proof (staged_process 1 h (Sys.Hook "pre-auto-gc" s)
                    eq_refl ltac:(lia) Hh) as R.
      split; intros _; [exact R|].
      apply (staged_upto 2); [lia | exact R].
    - intros _.
      apply (run_or_die_staged sys pack_refs_cmd 2); [reflexivity | lia].
    - intros _.
      apply (run_or_die_staged sys reflog 3); [reflexivity | lia].
    - intros _ added.
      apply triple_close_run;
        [intros h; apply staged_other; reflexivity|].
      apply (run_or_die_staged sys (repack st ++ added) 4); [|lia].
      apply gc_stage_repack. exact Hr.
    - intros _ e q p.
      apply (run_or_die_staged sys _ 5); [reflexivity | lia].
    - intros e.
      apply (run_or_die_staged sys (prune_worktrees ++ [e]) 6);
        [reflexivity | lia].
    - apply (run_or_die_staged sys rerere 7); [reflexivity | lia]. }
  assert (S1 : staged 1 []) by (split; constructor).
  specialize (T [] S1).
  destruct (cmd_gc_after_options sys cfg world o c st [])
    as [[a|text|status|callee] h']; [exact (proj2 T) | exact T ..].
Qed.

(** X13. In every run of git gc whose repack command is a repack, the
    processes that the run starts are the pre-auto-gc hook and commands of
    the pipeline pack-refs, reflog expire, repack, prune, worktree prune,
    rerere gc; they are run in this order, the hook before every command,
    and none is run twice: this holds for a run that detaches (where the
    steps before the repack are met twice), for one that fails on the way,
    for one that the hook refuses and for one that leaves stages out; the
    handler that runs at the exit of a detached run starts no process. *)
Theorem cmd_gc_pipeline_order sys cfg world o c st :
  hd "" (repack st) = "repack" ->
  staged 8 (snd (cmd_gc_process sys cfg world o c st [])).
Proof.
  intros Hr. pose proof (cmd_gc_after_options_staged sys cfg world o c st Hr)
    as S.
  unfold cmd_gc_process.
  destruct (cmd_gc_after_options sys cfg world o c st []) as [out h].
  cbn [snd] in S. destruct (gc_log_locked h); cbn [snd]; [|exact S].
  apply staged_other; [reflexivity | exact S].
Qed.

Lemma cmd_gc_pipeline_order_witness :
  staged 8
    (snd (cmd_gc_process (sample_system (fun _ _ => 0) [] [])
            (sample_config (fun _ => None) (fun _ => None))
            (auto_world 0 (first_gc "buildhost" 4242))
            auto_gc_quiet default_gc_statics default_gc_state [])) /\
  Sys.processes
    (snd (cmd_gc_process (sample_system (fun _ _ => 0) [] [])
            (sample_config (fun _ => None) (fun _ => None))
            (auto_world 0 (first_gc "buildhost" 4242))
            auto_gc_quiet default_gc_statics default_gc_state []))
  = [["pre-auto-gc"];
     ["pack-refs"; "--all"; "--prune"];
     ["reflog"; "expire"; "--all"];
     ["repack"; "-d"; "-l"; "-q"; "--no-write-bitmap-index"];
     ["prune"; "--expire"; "2.weeks.ago"; "--no-progress"];
     ["worktree"; "prune"; "--expire"; "3.months.ago"];
     ["rerere"; "gc"]].
Proof.
  split; [|vm_compute; reflexivity].
  apply (cmd_gc_pipeline_order (sample_system (fun _ _ => 0) [] [])
           (sample_config (fun _ => None) (fun _ => None))
           (auto_world 0 (first_gc "buildhost" 4242))
           auto_gc_quiet default_gc_statics default_gc_state).
  reflexivity.
Defined.

(** ** cmd_gc: precious objects *)

Lemma nothing_deleted_other h a :
  Sys.children [a] = [] -> nothing_deleted h -> nothing_deleted (h ++ [a]).
Proof.
  intros Ha Hh. unfold nothing_deleted.
  rewrite children_app, Ha, app_nil_r. exact Hh.
Qed.

Lemma run_or_die_nothing_deleted sys argv :
  hd "" argv <> "repack" -> hd "" argv <> "prune" ->
  triple nothing_deleted (run_or_die sys argv) (fun _ => nothing_deleted)
    (fun _ => nothing_deleted).
Proof.
  intros H1 H2 h Hh.
  unfold run_or_die, Sys.bind, Sys.run_command_v_opt, Sys.run_command.
  assert (R : nothing_deleted
                (h ++ [Sys.Run argv (Sys.child_status sys h argv)])).
  { unfold nothing_deleted. rewrite children_app. apply Forall_app.
    split; [exact Hh|]. repeat constructor; assumption. }
  destruct (negb (Sys.child_status sys h argv =? 0)); exact R.
Qed.

(** X15. In a repository with the preciousObjects extension no run of
    [cmd_gc] has a repack or a prune among its children. *)
Theorem cmd_gc_precious_objects sys cfg world o c st :
  repository_format_precious_objects world <> 0 ->
  nothing_deleted (snd (cmd_gc_after_options sys cfg world o c st [])).
Proof.
  intros Hp.
  assert (T : triple nothing_deleted
                (cmd_gc_after_options sys cfg world o c st)
                (fun r h => r = 0 /\ nothing_deleted h)
                (fun _ => nothing_deleted)).
  { apply (cmd_gc_after_options_keeps_all sys cfg world o c st
             nothing_deleted (fun _ => nothing_deleted)).
    - exact nothing_deleted_other.
    - auto.
    - intros _. apply run_or_die_nothing_deleted; discriminate.
    - intros _. apply run_or_die_nothing_deleted; discriminate.
    - intros E. destruct (Hp E).
    - intros E. destruct (Hp E).
    - intros e. apply run_or_die_nothing_deleted; discriminate.
    - apply run_or_die_nothing_deleted; discriminate. }
  assert (S1 : nothing_deleted []) by constructor.
  specialize (T [] S1).
  destruct (cmd_gc_after_options sys cfg world o c st [])
    as [[a|text|status|callee] h']; [exact (proj2 T) | exact T ..].
Qed.

Lemma cmd_gc_precious_objects_witness :
  nothing_deleted
    (snd (cmd_gc_after_options (sample_system (fun _ _ => 0) [] [])
            (sample_config (fun _ => None) (fun _ => None))
            (sample_world 1 (first_gc "buildhost" 4242))
            plain_gc default_gc_statics default_gc_state [])).
Proof.
  apply (cmd_gc_precious_objects (sample_system (fun _ _ => 0) [] [])
           (sample_config (fun _ => None) (fun _ => None))
           (sample_world 1 (first_gc "buildhost" 4242))
           plain_gc default_gc_statics default_gc_state).
  discriminate.
Defined.

(** ** cmd_gc: what the configuration switches off *)

Lemma never_runs_other cmd h a :
  Sys.children [a] = [] -> never_runs cmd h -> never_runs cmd (h ++ [a]).
Proof.
  intros Ha Hh. unfold never_runs.
  rewrite children_app, Ha, app_nil_r. exact Hh.
Qed.

Lemma run_or_die_never_runs sys cmd argv :
  hd "" argv <> cmd ->
  triple (never_runs cmd) (run_or_die sys argv) (fun _ => never_runs cmd)
    (fun _ => never_runs cmd).
Proof.
  intros H1 h Hh.
  unfold run_or_die, Sys.bind, Sys.run_command_v_opt, Sys.run_command.
  assert (R : never_runs cmd
                (h ++ [Sys.Run argv (Sys.child_status sys h argv)])).
  { unfold never_runs. rewrite children_app. apply Forall_app.
    split; [exact Hh|]. repeat constructor; assumption. }
  destruct (negb (Sys.child_status sys h argv =? 0)); exact R.
Qed.

Lemma hd_repack_app argv added :
  hd "" argv = "repack" -> hd "" (argv ++ added) = "repack".
Proof.
  intros H. destruct argv as [|a argv]; [discriminate H | exact H].
Qed.

Lemma cmd_gc_skips sys cfg world o c st cmd :
  hd "" (repack st) = "repack" ->
  (cmd = "pack-refs" /\ pack_refs c = 0) \/
  (cmd = "reflog" /\ prune_reflogs c = 0) ->
  never_runs cmd (snd (cmd_gc_after_options sys cfg world o c st [])).
Proof.
  intros Hr Hc.
  assert (T : triple (never_runs cmd)
                (cmd_gc_after_options sys cfg world o c st)
                (fun r h => r = 0 /\ never_runs cmd h)
                (fun _ => never_runs cmd)).
  { apply (cmd_gc_after_options_keeps_all sys cfg world o c st
             (never_runs cmd) (fun _ => never_runs cmd)).
    - apply never_runs_other.
    - auto.
    - intros Hp. apply run_or_die_never_runs.
      destruct Hc as [[-> E]|[-> E]]; [destruct (Hp E) | discriminate].
    - intros Hp. apply run_or_die_never_runs.
      destruct Hc as [[-> E]|[-> E]]; [discriminate | destruct (Hp E)].
    - intros _ added.
      apply triple_close_run;
        [intros h; apply never_runs_other; reflexivity|].
      apply run_or_die_never_runs.
      rewrite (hd_repack_app _ added Hr).
      destruct Hc as [[-> _]|[-> _]]; discriminate.
    - intros _ e q p. apply run_or_die_never_runs.
      destruct Hc as [[-> _]|[-> _]]; discriminate.
    - intros e. apply run_or_die_never_runs.
      destruct Hc as [[-> _]|[-> _]]; discriminate.
    - apply run_or_die_never_runs.
      destruct Hc as [[-> _]|[-> _]]; discriminate. }
  assert (S1 : never_runs cmd []) by constructor.
  specialize (T [] S1).
  destruct (cmd_gc_after_options sys cfg world o c st [])
    as [[a|text|status|callee] h']; [exact (proj2 T) | exact T ..].
Qed.

Lemma gc_config_is_timestamp_never_yes cfg var h :
  configured_never cfg var ->
  gc_config_is_timestamp_never cfg var h = (Sys.Ret 1, h).
Proof.
  intros (value & Hv & Hp). unfold gc_config_is_timestamp_never.
  rewrite Hv, Hp. reflexivity.
Qed.

Lemma gc_config_returns cfg c st h c1 st1 h1 :
  gc_config cfg c st h = (Sys.Ret (c1, st1), h1) ->
  repack st1 = repack st /\
  (Sys.repo_config_get_value cfg "gc.packrefs" = Some (Some "notbare") ->
   pack_refs c1 = -1) /\
  (configured_never cfg "gc.reflogexpire" ->
   configured_never cfg "gc.reflogexpireunreachable" ->
   prune_reflogs c1 = 0).
Proof.
  unfold gc_config. unfold Sys.bind at 1.
  destruct (gc_config_is_timestamp_never cfg "gc.reflogexpire" h)
    as [[never|t|s|g] h2] eqn:E1; try discriminate.
  unfold Sys.bind at 1.
  destruct ((if negb (never =? 0)
             then gc_config_is_timestamp_never cfg
                    "gc.reflogexpireunreachable"
             else Sys.ret 0) h2) as [[never'|t|s|g] h3] eqn:E2;
    try discriminate.
  unfold Sys.ret. intros H. inversion H; subst; clear H.
  cbn [repack pack_refs prune_reflogs].
  split; [reflexivity|]. split.
  - intros Hv. rewrite Hv. reflexivity.
  - intros N1 N2.
    rewrite (gc_config_is_timestamp_never_yes cfg _ h N1) in E1.
    inversion E1; subst. cbn [Z.eqb negb] in E2.
    rewrite (gc_config_is_timestamp_never_yes cfg _ h2 N2) in E2.
    inversion E2; subst. reflexivity.
Qed.

Lemma cmd_gc_before_options_returns cfg world c0 st0 h c st h' :
  cmd_gc_before_options cfg world c0 st0 h = (Sys.Ret (c, st), h') ->
  repack st = repack st0 /\
  (Sys.repo_config_get_value cfg "gc.packrefs" = Some (Some "notbare") ->
   pack_refs c = if is_bare_repository world =? 0 then 1 else 0) /\
  (configured_never cfg "gc.reflogexpire" ->
   configured_never cfg "gc.reflogexpireunreachable" ->
   prune_reflogs c = 0).
Proof.
  unfold cmd_gc_before_options, Sys.bind.
  destruct (gc_config cfg c0 st0 h) as [[[c1 st1]|t|s|g] h1] eqn:E;
    try discriminate.
  destruct (gc_config_returns _ _ _ _ _ _ _ E) as (R & P & N).
  destruct (Sys.parse_expiry_date cfg (gc_log_expire c1)); [|discriminate].
  unfold Sys.ret. intros H. inversion H; subst; clear H.
  cbn [pack_refs prune_reflogs].
  split; [exact R|]. split; [|exact N].
  intros Hv. rewrite (P Hv). reflexivity.
Qed.

(** X19. When gc.reflogExpire and gc.reflogExpireUnreachable are both set
    to "never", a run of git gc that gets past its configuration runs no
    reflog expire, whatever its options. *)
Theorem cmd_gc_reflog_never sys cfg world o c0 st0 h c st h' :
  configured_never cfg "gc.reflogexpire" ->
  configured_never cfg "gc.reflogexpireunreachable" ->
  hd "" (repack st0) = "repack" ->
  cmd_gc_before_options cfg world c0 st0 h = (Sys.Ret (c, st), h') ->
  never_runs "reflog" (snd (cmd_gc_after_options sys cfg world o c st [])).
Proof.
  intros N1 N2 Hr Hb.
  destruct (cmd_gc_before_options_returns _ _ _ _ _ _ _ _ Hb)
    as (R & _ & N).
  apply cmd_gc_skips; [rewrite R; exact Hr|].
  right. split; [reflexivity | exact (N N1 N2)].
Qed.

(** X20. With gc.packRefs set to "notbare", a run of git gc in a bare
    repository that gets past its configuration runs no pack-refs, whatever
    its options. *)
Theorem cmd_gc_packrefs_notbare sys cfg world o c0 st0 h c st h' :
  Sys.repo_config_get_value cfg "gc.packrefs" = Some (Some "notbare") ->
  is_bare_repository world <> 0 ->
  hd "" (repack st0) = "repack" ->
  cmd_gc_before_options cfg world c0 st0 h = (Sys.Ret (c, st), h') ->
  never_runs "pack-refs"
    (snd (cmd_gc_after_options sys cfg world o c st [])).
Proof.
  intros Hv Hbare Hr Hb.
  destruct (cmd_gc_before_options_returns _ _ _ _ _ _ _ _ Hb)
    as (R & P & _).
  apply cmd_gc_skips; [rewrite R; exact Hr|].
  left. split; [reflexivity|]. rewrite (P Hv).
  destruct (Z.eqb_spec (is_bare_repository world) 0);
    [contradiction | reflexivity].
Qed.

Lemma cmd_gc_reflog_never_witness :
  never_runs "reflog"
    (snd (cmd_gc_after_options (sample_system (fun _ _ => 0) [] [])
            (values_config reflog_never)
            (sample_world 0 (first_gc "buildhost" 4242)) plain_gc
            (mk_gc_statics 1 0 50 250 1 1 "1.day.ago" (Some "3.months.ago"))
            default_gc_state [])).
Proof.
  apply (cmd_gc_reflog_never (sample_system (fun _ _ => 0) [] [])
           (values_config reflog_never)
           (sample_world 0 (first_gc "buildhost" 4242)) plain_gc
           default_gc_statics default_gc_state []
           (mk_gc_statics 1 0 50 250 1 1 "1.day.ago" (Some "3.months.ago"))
           default_gc_state []).
  - exists "never". split; reflexivity.
  - exists "never". split; reflexivity.
  - reflexivity.
  - reflexivity.
Defined.

Lemma cmd_gc_packrefs_notbare_witness :
  never_runs "pack-refs"
    (snd (cmd_gc_after_options (sample_system (fun _ _ => 0) [] [])
            (values_config packrefs_notbare)
            (bare_world (first_gc "buildhost" 4242)) plain_gc
            (mk_gc_statics 0 1 50 250 1 1 "1.day.ago" (Some "3.months.ago"))
            default_gc_state [])).
Proof.
  apply (cmd_gc_packrefs_notbare (sample_system (fun _ _ => 0) [] [])
           (values_config packrefs_notbare)
           (bare_world (first_gc "buildhost" 4242)) plain_gc
           default_gc_statics default_gc_state []
           (mk_gc_statics 0 1 50 250 1 1 "1.day.ago" (Some "3.months.ago"))
           default_gc_state []).
  - reflexivity.
  - discriminate.
  - reflexivity.
  - reflexivity.
Defined.

(** ** cmd_gc: the lock and the switch *)

(** X16. Without --auto and without --force, when the pid file names a
    live run (as [lock_repo_for_gc] reads it), git gc dies with the message
    that names the host and the pid of that run, and has done nothing: no
    child, no file written. *)
Theorem cmd_gc_refuses_while_held sys cfg world o c st h host upid :
  auto_gc o = 0 -> force o = 0 ->
  (forall e, prune_expire st = Some e ->
             Sys.parse_expiry_date cfg e <> None) ->
  is_tempfile_active_pidfile (lock_env_at world h) = false ->
  lock_file_free (lock_env_at world h) = true ->
  held_by_live_run (lock_env_at world h) host upid ->
  cmd_gc_after_options sys cfg world o c st h
  = (Sys.Die ("gc is already running on machine '" ++ host ++ "' pid "
              ++ CStr.decimal (CInt.to_u64 (CInt.to_int upid))
              ++ " (use --force if not)"), h).
Proof.
  intros Ha Hf Hp Ht Hl Hh.
  unfold cmd_gc_after_options. unfold Sys.bind at 1.
  assert (P : (match prune_expire st with
               | Some e =>
                   match Sys.parse_expiry_date cfg e with
                   | Some _ => Sys.ret tt
                   | None =>
                       Sys.die ("failed to parse prune expiry value " ++ e)
                   end
               | None => Sys.ret tt
               end) h = (Sys.Ret tt, h)).
  { destruct (prune_expire st) as [e|]; [|reflexivity].
    specialize (Hp e eq_refl).
    destruct (Sys.parse_expiry_date cfg e); [reflexivity | contradiction]. }
  rewrite P. rewrite Ha. cbn [Z.eqb negb].
  unfold Sys.bind at 1. unfold Sys.ask at 1.
  unfold cmd_gc_from_lock. unfold Sys.bind at 1.
  unfold lock_repo. unfold Sys.bind at 1. unfold Sys.ask at 1.
  rewrite Hf. cbn [Z.eqb negb].
  rewrite (lock_repo_for_gc_checked _ Ht Hl).
  apply should_exit_held in Hh. rewrite Hh.
  unfold Sys.ret. rewrite Ha. reflexivity.
Qed.

Lemma cmd_gc_refuses_while_held_witness :
  cmd_gc_after_options (sample_system (fun _ _ => 0) [] [])
    (sample_config (fun _ => None) (fun _ => None))
    (sample_world 0 (lock_scene "buildhost" 3600 None))
    plain_gc default_gc_statics default_gc_state []
  = (Sys.Die
       "gc is already running on machine 'buildhost' pid 4242 (use --force if not)",
     []).
Proof.
  apply (cmd_gc_refuses_while_held (sample_system (fun _ _ => 0) [] [])
           (sample_config (fun _ => None) (fun _ => None))
           (sample_world 0 (lock_scene "buildhost" 3600 None))
           plain_gc default_gc_statics default_gc_state []
           "buildhost" 4242).
  - reflexivity.
  - reflexivity.
  - intros e _. discriminate.
  - reflexivity.
  - reflexivity.
  - exists (mk_pid_file (Some (1700000000 - 3600)) "4242 buildhost"),
           (1700000000 - 3600).
    repeat split; try reflexivity.
    + vm_compute. discriminate.
    + right. left. reflexivity.
Defined.

Lemma gc_auto_threshold_pushes o c st :
  gc_auto_threshold
    (if negb (gc_quiet o =? 0) then
       argv_array_push "-q"
         (if negb (aggressive o =? 0) then
            let st := argv_array_push "-f" st in
            let st :=
              if aggressive_depth c >? 0
              then argv_array_push
                     ("--depth=" ++ CStr.decimal (aggressive_depth c)) st
              else st in
            if aggressive_window c >? 0
            then argv_array_push
                   ("--window=" ++ CStr.decimal (aggressive_window c)) st
            else st
          else st)
     else
       (if negb (aggressive o =? 0) then
          let st := argv_array_push "-f" st in
          let st :=
            if aggressive_depth c >? 0
            then argv_array_push
                   ("--depth=" ++ CStr.decimal (aggressive_depth c)) st
            else st in
          if aggressive_window c >? 0
          then argv_array_push
                 ("--window=" ++ CStr.decimal (aggressive_window c)) st
          else st
        else st))
  = gc_auto_threshold st.
Proof.
  destruct (negb (gc_quiet o =? 0)), (negb (aggressive o =? 0)),
    (aggressive_depth c >? 0), (aggressive_window c >? 0); reflexivity.
Qed.

Lemma need_to_gc_step_disabled world st h :
  gc_auto_threshold st <= 0 ->
  need_to_gc_step world st h = (Sys.Ret (0, st), h).
Proof.
  intros Hg.
  unfold need_to_gc_step, Sys.bind, Sys.ask, Sys.ret,
    need_to_gc_reaches_hook.
  destruct (Z.leb_spec (gc_auto_threshold st) 0); [|lia]. cbn [negb andb].
  rewrite need_to_gc_disabled by exact Hg. reflexivity.
Qed.

(** X17. With gc.auto at 0 or below, git gc --auto returns 0 and has done
    nothing at all: no message, no lock, no child, whatever the other
    options and the state of the repository. *)
Theorem cmd_gc_auto_disabled sys cfg world o c st h :
  auto_gc o <> 0 -> gc_auto_threshold st <= 0 ->
  (forall e, prune_expire st = Some e ->
             Sys.parse_expiry_date cfg e <> None) ->
  cmd_gc_after_options sys cfg world o c st h = (Sys.Ret 0, h).
Proof.
  intros Ha Hg Hp.
  unfold cmd_gc_after_options. unfold Sys.bind at 1.
  assert (P : (match prune_expire st with
               | Some e =>
                   match Sys.parse_expiry_date cfg e with
                   | Some _ => Sys.ret tt
                   | None =>
                       Sys.die ("failed to parse prune expiry value " ++ e)
                   end
               | None => Sys.ret tt
               end) h = (Sys.Ret tt, h)).
  { destruct (prune_expire st) as [e|]; [|reflexivity].
    specialize (Hp e eq_refl).
    destruct (Sys.parse_expiry_date cfg e); [reflexivity | contradiction]. }
  rewrite P.
  destruct (Z.eqb_spec (auto_gc o) 0); [contradiction|]. cbn [negb].
  unfold Sys.bind at 1.
  rewrite need_to_gc_step_disabled
    by (rewrite gc_auto_threshold_pushes; exact Hg).
  reflexivity.
Qed.

Lemma cmd_gc_auto_disabled_witness :
  cmd_gc_after_options (sample_system (fun _ _ => 1) [] [])
    (sample_config (fun _ => None) (fun _ => None))
    (sample_world 0 (first_gc "buildhost" 4242))
    (mk_gc_options 1 1 0 0 (-1)) default_gc_statics
    (mk_gc_state 0 50 0 0 (Some "now") ["repack"; "-d"; "-l"]) []
  = (Sys.Ret 0, []).
Proof.
  apply (cmd_gc_auto_disabled (sample_system (fun _ _ => 1) [] [])
           (sample_config (fun _ => None) (fun _ => None))
           (sample_world 0 (first_gc "buildhost" 4242))
           (mk_gc_options 1 1 0 0 (-1)) default_gc_statics
           (mk_gc_state 0 50 0 0 (Some "now") ["repack"; "-d"; "-l"]) []).
  - discriminate.
  - vm_compute. discriminate.
  - intros e _. discriminate.
Defined.

(** ** The log of a detached run and the next run *)

Lemma strlen_zero s : CStr.strlen s = 0 <-> s = "".
Proof.
  unfold CStr.strlen. destruct s; cbn [String.length]; split; intros H;
    try reflexivity; try discriminate; lia.
Qed.

(** X18. When a detached run ends, [process_log_file] leaves no lock file
    behind, and gc.log holds the text the run wrote to stderr exactly when
    the run wrote some: a silent run also removes a gc.log left by an
    earlier one.  So the next git gc --auto within the log expiry is
    refused by [report_last_gc_error], with the text quoted in its warning,
    if and only if the run wrote to stderr. *)
Theorem process_log_file_then_report captured old strerror tempfile_path
    path st_mtime expire :
  ~ CInt.to_u64 st_mtime < expire ->
  let fs :=
    process_log_file (FstatOk (CStr.strlen captured)) strerror tempfile_path
      (mk_log_files old (Some captured)) in
  gc_log_lock fs = None /\
  (captured = "" ->
   gc_log_file fs = None /\
   report_last_gc_error (gc_log_seen path st_mtime fs) expire = (0, [])) /\
  (captured <> "" ->
   gc_log_file fs = Some captured /\
   report_last_gc_error (gc_log_seen path st_mtime fs) expire
   = (1, [Warning (last_gc_warning path captured)])).
Proof.
  intros Ht. cbv zeta. unfold process_log_file.
  destruct (Z.eqb_spec (CStr.strlen captured) 0) as [E|E]; cbn [negb].
  - apply strlen_zero in E. subst captured.
    split; [reflexivity|]. split; [|intros H; destruct (H eq_refl)].
    intros _. split; reflexivity.
  - split; [reflexivity|]. split.
    + intros ->. destruct (E eq_refl).
    + intros _. split; [reflexivity|].
      unfold commit_lock_file, gc_log_seen, report_last_gc_error.
      cbn [gc_log_lock gc_log_file gc_log_stat gc_log_read gc_log_path].
      destruct (Z.ltb_spec (CInt.to_u64 st_mtime) expire); [contradiction|].
      destruct (Z.gtb_spec (CStr.strlen captured) 0); [reflexivity|].
      unfold CStr.strlen in *. lia.
Qed.

Lemma process_log_file_then_report_witness :
  let fs :=
    process_log_file (FstatOk (CStr.strlen "fatal: repack failed"))
      (fun _ => "Input/output error") ".git/gc.log.lock"
      (mk_log_files None (Some "fatal: repack failed")) in
  gc_log_lock fs = None /\
  ("fatal: repack failed" = "" ->
   gc_log_file fs = None /\
   report_last_gc_error (gc_log_seen ".git/gc.log" 1700000000 fs) 1699913600
   = (0, [])) /\
  ("fatal: repack failed" <> "" ->
   gc_log_file fs = Some "fatal: repack failed" /\
   report_last_gc_error (gc_log_seen ".git/gc.log" 1700000000 fs) 1699913600
   = (1, [Warning (last_gc_warning ".git/gc.log" "fatal: repack failed")])).
Proof.
  apply (process_log_file_then_report "fatal: repack failed" None
           (fun _ => "Input/output error") ".git/gc.log.lock"
           ".git/gc.log" 1700000000 1699913600).
  vm_compute. discriminate.
Defined.

(** ** git verify-pack *)

Lemma string_length_app (a b : string) :
  String.length (a ++ b) = (String.length a + String.length b)%nat.
Proof.
  induction a as [|x a IH]; [reflexivity|].
  cbn [String.append String.length plus]. rewrite IH. reflexivity.
Qed.

Lemma substring_suffix (a b : string) :
  String.substring (String.length a) (String.length b) (a ++ b) = b.
Proof.
  induction a as [|x a IH]; cbn [String.append String.length].
  - induction b as [|y b IHb]; [reflexivity|].
    cbn [String.length String.substring]. rewrite IHb. reflexivity.
  - cbn [String.substring]. exact IH.
Qed.

Lemma substring_prefix (a b : string) :
  String.substring 0 (String.length a) (a ++ b) = a.
Proof.
  induction a as [|x a IH]; cbn [String.append String.length].
  - destruct b; reflexivity.
  - cbn [String.substring]. rewrite IH. reflexivity.
Qed.

Lemma ends_with_app (a suffix : string) : ends_with (a ++ suffix) suffix = true.
Proof.
  unfold ends_with. rewrite string_length_app.
  replace (String.length a + String.length suffix - String.length suffix)%nat
    with (String.length a) by lia.
  rewrite substring_suffix, String.eqb_refl.
  destruct (Nat.leb_spec (String.length suffix)
              (String.length a + String.length suffix)); [reflexivity | lia].
Qed.

Lemma strbuf_strip_suffix_app (a suffix : string) :
  strbuf_strip_suffix (a ++ suffix) suffix = Some a.
Proof.
  unfold strbuf_strip_suffix. rewrite ends_with_app, string_length_app.
  replace (String.length a + String.length suffix - String.length suffix)%nat
    with (String.length a) by lia.
  rewrite substring_prefix. reflexivity.
Qed.

Lemma ends_with_pack_not_idx (stem : string) :
  ends_with (stem ++ ".pack") ".idx" = false.
Proof.
  replace (stem ++ ".pack")%string with ((stem ++ ".") ++ "pack")%string
    by (rewrite <- string_app_assoc; reflexivity).
  unfold ends_with. rewrite string_length_app.
  change (String.length ".idx") with (String.length "pack").
  replace (String.length (stem ++ ".") + String.length "pack"
           - String.length "pack")%nat
    with (String.length (stem ++ ".")) by lia.
  rewrite substring_suffix. apply andb_false_r.
Qed.

Lemma strbuf_strip_suffix_ends s suffix stripped :
  strbuf_strip_suffix s suffix = Some stripped -> ends_with s suffix = true.
Proof.
  unfold strbuf_strip_suffix. destruct (ends_with s suffix);
    [reflexivity | discriminate].
Qed.

(** X21. The pack name that [verify_one_pack] hands to index-pack always
    ends in ".pack": "<stem>.idx" becomes "<stem>.pack", a name that ends in
    ".pack" is kept, and any other name gets ".pack" appended. *)
Theorem pack_arg_normalized :
  (forall path, ends_with (pack_arg path) ".pack" = true) /\
  (forall stem, pack_arg (stem ++ ".idx") = (stem ++ ".pack")%string) /\
  (forall stem, pack_arg (stem ++ ".pack") = (stem ++ ".pack")%string) /\
  (forall path,
     ends_with path ".idx" = false -> ends_with path ".pack" = false ->
     pack_arg path = (path ++ ".pack")%string).
Proof.
  split; [|split; [|split]].
  - intros path. unfold pack_arg.
    destruct (strbuf_strip_suffix path ".idx") as [stripped|];
      [apply ends_with_app|].
    destruct (ends_with path ".pack") eqn:E; cbn [negb];
      [exact E | apply ends_with_app].
  - intros stem. unfold pack_arg. rewrite strbuf_strip_suffix_app.
    reflexivity.
  - intros stem. unfold pack_arg, strbuf_strip_suffix.
    rewrite ends_with_pack_not_idx, ends_with_app. reflexivity.
  - intros path Hi Hp. unfold pack_arg, strbuf_strip_suffix.
    rewrite Hi, Hp. reflexivity.
Qed.

Lemma verify_one_pack_eq sys path flags hash_algo h :
  exists prints,
    verify_one_pack sys path flags hash_algo h
    = (Sys.Ret
         (Sys.child_status sys h (index_pack_argv path flags hash_algo)),
       h ++ Sys.Run (index_pack_argv path flags hash_algo)
              (Sys.child_status sys h (index_pack_argv path flags hash_algo))
            :: prints) /\
    Sys.children prints = [] /\ Sys.statuses prints = [].
Proof.
  unfold verify_one_pack. sys_unfold.
  set (err := Sys.child_status sys h (index_pack_argv path flags hash_algo)).
  destruct (negb (Z.land flags VERIFY_PACK_VERBOSE =? 0)
            || negb (Z.land flags VERIFY_PACK_STAT_ONLY =? 0));
    [destruct (negb (err =? 0));
     [|destruct (Z.land flags VERIFY_PACK_STAT_ONLY =? 0)]|];
    cbv beta iota; rewrite <- ?app_assoc; cbn [app];
    eexists; (split; [reflexivity | split; reflexivity]).
Qed.

Lemma verify_packs_result sys flags hash_algo argv : forall err h,
  err = 0 \/ err = 1 ->
  exists r new,
    verify_packs sys argv flags hash_algo err h = (Sys.Ret r, h ++ new) /\
    Sys.children new
    = map (fun path => index_pack_argv path flags hash_algo) argv /\
    ((r = 0 /\ err = 0 /\ Forall (fun s => s = 0) (Sys.statuses new)) \/
     (r = 1 /\ (err = 1 \/ Exists (fun s => s <> 0) (Sys.statuses new)))).
Proof.
  induction argv as [|path argv IH]; intros err h He.
  - exists err, []. cbn [verify_packs map]. unfold Sys.ret.
    rewrite app_nil_r. split; [reflexivity|]. split; [reflexivity|].
    destruct He as [->| ->]; [left | right]; auto.
  - cbn [verify_packs map]. unfold Sys.bind.
    destruct (verify_one_pack_eq sys path flags hash_algo h)
      as (prints & E & Pc & Ps).
    rewrite E.
    set (a := index_pack_argv path flags hash_algo) in *.
    set (e := Sys.child_status sys h a) in *.
    set (h1 := h ++ Sys.Run a e :: prints).
    assert (He' : (if negb (e =? 0) then 1 else err) = 0 \/
                  (if negb (e =? 0) then 1 else err) = 1)
      by (destruct (negb (e =? 0)); [right; reflexivity | exact He]).
    destruct (IH (if negb (e =? 0) then 1 else err) h1 He')
      as (r & new & En & Cn & Rn).
    exists r, (Sys.Run a e :: prints ++ new).
    split; [rewrite En; unfold h1; rewrite <- app_assoc; reflexivity|].
    assert (Cs : Sys.children (Sys.Run a e :: prints ++ new)
                 = a :: Sys.children new).
    { change (Sys.Run a e :: prints ++ new)
        with ([Sys.Run a e] ++ prints ++ new).
      rewrite !children_app, Pc. reflexivity. }
    assert (Ss : Sys.statuses (Sys.Run a e :: prints ++ new)
                 = e :: Sys.statuses new).
    { change (Sys.Run a e :: prints ++ new)
        with ([Sys.Run a e] ++ prints ++ new).
      rewrite !statuses_app, Ps. reflexivity. }
    rewrite Cs, Ss, Cn. split; [reflexivity|].
    destruct (Z.eqb_spec e 0) as [E0|E0]; cbn [negb] in Rn.
    + destruct Rn as [(-> & -> & Fa) | (-> & [->|Ex])].
      * left. repeat split; try reflexivity. constructor; assumption.
      * right. split; [reflexivity|]. left. reflexivity.
      * right. split; [reflexivity|]. right. apply Exists_cons_tl. exact Ex.
    + destruct Rn as [(_ & D & _) | (-> & _)]; [discriminate D|].
      right. split; [reflexivity|]. right. apply Exists_cons_hd. exact E0.
Qed.

(** X22. Given at least one pack, [cmd_verify_pack] runs index-pack once
    for every pack named, in order, also after a pack has failed, and
    returns 0 when every one of them exited 0 and 1 otherwise. *)
Theorem cmd_verify_pack_checks_all sys argv flags object_format h :
  argv <> [] ->
  exists r new,
    cmd_verify_pack sys argv flags object_format h = (Sys.Ret r, h ++ new) /\
    Sys.children new
    = map (fun path => index_pack_argv path flags object_format) argv /\
    ((r = 0 /\ Forall (fun s => s = 0) (Sys.statuses new)) \/
     (r = 1 /\ Exists (fun s => s <> 0) (Sys.statuses new))).
Proof.
  intros Hne. unfold cmd_verify_pack.
  destruct argv as [|path argv]; [contradiction|].
  destruct (Z.ltb_spec (Z.of_nat (List.length (path :: argv))) 1) as [H|_];
    [cbn [List.length] in H; lia|].
  destruct (verify_packs_result sys flags object_format (path :: argv) 0 h
              (or_introl eq_refl)) as (r & new & E & C & R).
  exists r, new. split; [exact E|]. split; [exact C|].
  destruct R as [(-> & _ & Fa) | (-> & [D|Ex])];
    [left; auto | discriminate D | right; auto].
Qed.

Lemma cmd_verify_pack_checks_all_witness :
  exists r new,
    cmd_verify_pack (sample_system (failing "none") [] [])
      ["pack-a.idx"; "pack-b"] 1 None []
    = (Sys.Ret r, [] ++ new) /\
    Sys.children new
    = map (fun path => index_pack_argv path 1 None) ["pack-a.idx"; "pack-b"] /\
    ((r = 0 /\ Forall (fun s => s = 0) (Sys.statuses new)) \/
     (r = 1 /\ Exists (fun s => s <> 0) (Sys.statuses new))).
Proof.
  apply (cmd_verify_pack_checks_all (sample_system (failing "none") [] [])
           ["pack-a.idx"; "pack-b"] 1 None []).
  discriminate.
Defined.

(** The loop of [maintenance_run] at a failing gc task. *)
Lemma run_tasks_stops_at_failure_witness :
  run_tasks failing_gc_env (mk_opts 0 0 0)
    ([mk_task "gc" fn_gc (Some auto_need_to_gc) 0 true false]
     ++ [mk_task "commit-graph" fn_commit_graph (Some auto_commit_graph) 0
           true false]) O
  = (1, 1%nat, ["gc"]).
Proof.
  destruct (run_tasks_stops_at_failure failing_gc_env (mk_opts 0 0 0)
              [mk_task "gc" fn_gc (Some auto_need_to_gc) 0 true false] O)
    as [_ H].
  rewrite H; [reflexivity | vm_compute; discriminate].
Defined.

(** ** Closing the object store before packs may go *)

Lemma last_cons_default {A} (a : A) l d : last (a :: l) d = last l a.
Proof.
  revert a d. induction l as [|b l IH]; intros a d; [reflexivity|].
  change (last (a :: b :: l) d) with (last (b :: l) d).
  rewrite (IH b d), (IH b a). reflexivity.
Qed.

Lemma closed_at_end_cons closed a h :
  closed_at_end closed (a :: h)
  = closed_at_end
      (match a with Sys.CloseObjectStore => true | _ => false end) h.
Proof.
  unfold closed_at_end. rewrite last_cons_default.
  destruct h as [|b h]; [destruct a; reflexivity|].
  rewrite !last_cons_default. reflexivity.
Qed.

Lemma closed_before_app needs h : forall closed l,
  closed_before needs closed (h ++ l)
  = closed_before needs closed h
    && closed_before needs (closed_at_end closed h) l.
Proof.
  induction h as [|a h IH]; intros closed l.
  - destruct closed; reflexivity.
  - rewrite closed_at_end_cons.
    destruct a; cbn [app closed_before]; rewrite IH;
      rewrite ?andb_assoc; reflexivity.
Qed.

Lemma closed_before_other needs h a :
  Sys.children [a] = [] ->
  closed_before needs false h = true ->
  closed_before needs false (h ++ [a]) = true.
Proof.
  intros Ha Hh. rewrite closed_before_app, Hh.
  destruct a; try reflexivity. discriminate Ha.
Qed.

Lemma run_or_die_closed_before sys needs argv :
  needs argv = false ->
  triple (fun h => closed_before needs false h = true) (run_or_die sys argv)
    (fun _ h => closed_before needs false h = true)
    (fun _ h => closed_before needs false h = true).
Proof.
  intros Hn h Hh.
  unfold run_or_die, Sys.bind, Sys.run_command_v_opt, Sys.run_command.
  assert (R : closed_before needs false
                (h ++ [Sys.Run argv (Sys.child_status sys h argv)]) = true).
  { rewrite closed_before_app, Hh. cbn [closed_before andb].
    rewrite Hn. cbn [negb]. rewrite orb_true_r. reflexivity. }
  destruct (negb (Sys.child_status sys h argv =? 0)); exact R.
Qed.

Lemma close_run_or_die_closed_before sys needs argv :
  triple (fun h => closed_before needs false h = true)
    (Sys.close_object_store ;; run_or_die sys argv)
    (fun _ h => closed_before needs false h = true)
    (fun _ h => closed_before needs false h = true).
Proof.
  intros h Hh.
  unfold run_or_die, Sys.bind, Sys.close_object_store, Sys.tell,
    Sys.run_command_v_opt, Sys.run_command.
  set (s := Sys.child_status sys (h ++ [Sys.CloseObjectStore]) argv).
  assert (R : closed_before needs false
                ((h ++ [Sys.CloseObjectStore]) ++ [Sys.Run argv s]) = true).
  { rewrite <- app_assoc, closed_before_app, Hh. reflexivity. }
  destruct (negb (s =? 0)); exact R.
Qed.

(** X23. In every run of [cmd_gc] a child that may delete pack files (the
    repack) is started right after [close_object_store], so that no pack is
    held open by the parent when it goes. *)
Theorem cmd_gc_closes_object_store sys cfg world o c st :
  closed_before may_delete_packs false
    (snd (cmd_gc_after_options sys cfg world o c st [])) = true.
Proof.
  assert (T : triple (fun h => closed_before may_delete_packs false h = true)
                (cmd_gc_after_options sys cfg world o c st)
                (fun r h =>
                   r = 0 /\ closed_before may_delete_packs false h = true)
                (fun _ h => closed_before may_delete_packs false h = true)).
  { apply (cmd_gc_after_options_keeps_all sys cfg world o c st
             (fun h => closed_before may_delete_packs false h = true)
             (fun _ h => closed_before may_delete_packs false h = true)).
    - apply closed_before_other.
    - auto.
    - intros _. apply run_or_die_closed_before. reflexivity.
    - intros _. apply run_or_die_closed_before. reflexivity.
    - intros _ added. apply close_run_or_die_closed_before.
    - intros _ e q p. apply run_or_die_closed_before.
      unfold may_delete_packs.
      destruct q, p; cbn; rewrite ?andb_false_r; reflexivity.
    - intros e. apply run_or_die_closed_before. reflexivity.
    - apply run_or_die_closed_before. reflexivity. }
  specialize (T [] eq_refl).
  destruct (cmd_gc_after_options sys cfg world o c st [])
    as [[a|text|status|callee] h']; [exact (proj2 T) | exact T ..].
Qed.

(** X24. The gc task and the pack-files task of git maintenance start
    every child that may delete pack files (gc, multi-pack-index expire,
    multi-pack-index repack) right after [close_object_store], also on the
    paths where an index is written again. *)
Theorem maintenance_tasks_close_object_store sys opts :
  closed_before may_delete_packs false
    (snd (maintenance_task_gc sys opts [])) = true /\
  closed_before may_delete_packs false
    (snd (maintenance_task_pack_files sys opts [])) = true.
Proof.
  split.
  - unfold maintenance_task_gc. sys_unfold.
    destruct (negb (auto_flag opts =? 0)), (negb (quiet opts =? 0));
      reflexivity.
  - unfold maintenance_task_pack_files, multi_pack_index_repack,
      rewrite_multi_pack_index, multi_pack_index_expire,
      multi_pack_index_verify, multi_pack_index_write.
    sys_unfold.
    destruct (negb (quiet opts =? 0));
      repeat sys_case; cbn [snd app]; reflexivity.
Qed.

(** ** gc_config: a value that does not parse *)

(** X25. A value of gc.reflogExpireUnreachable that does not parse as a
    date is fatal to [gc_config] only when gc.reflogExpire is "never": then
    it dies naming the key and the value.  When gc.reflogExpire is not set,
    or set to a date that is not "never", the second key is not looked at:
    [gc_config] returns and leaves [prune_reflogs] as it was. *)
Theorem gc_config_unparsed_unreachable cfg c st h v :
  Sys.repo_config_get_value cfg "gc.reflogexpireunreachable"
  = Some (Some v) ->
  Sys.parse_expiry_date cfg v = None ->
  (configured_never cfg "gc.reflogexpire" ->
   gc_config cfg c st h
   = (Sys.Die ("failed to parse 'gc.reflogexpireunreachable' value '"
               ++ v ++ "'"), h)) /\
  ((forall w,
      Sys.repo_config_get_value cfg "gc.reflogexpire" = Some (Some w) ->
      exists t, Sys.parse_expiry_date cfg w = Some t /\ t <> 0) ->
   exists res,
     gc_config cfg c st h = (Sys.Ret res, h) /\
     prune_reflogs (fst res) = prune_reflogs c).
Proof.
  intros Hv Hp. split.
  - intros N. unfold gc_config. unfold Sys.bind at 1.
    rewrite (gc_config_is_timestamp_never_yes cfg _ h N).
    cbn [Z.eqb negb]. unfold Sys.bind at 1.
    unfold gc_config_is_timestamp_never at 1. rewrite Hv, Hp. reflexivity.
  - intros Hw. unfold gc_config. unfold Sys.bind at 1.
    assert (E : gc_config_is_timestamp_never cfg "gc.reflogexpire" h
                = (Sys.Ret 0, h)).
    { unfold gc_config_is_timestamp_never.
      destruct (Sys.repo_config_get_value cfg "gc.reflogexpire")
        as [[w|]|] eqn:Ew; try reflexivity.
      destruct (Hw w eq_refl) as (t & Et & Ht). rewrite Et.
      destruct (Z.eqb_spec t 0); [contradiction | reflexivity]. }
    rewrite E. cbn [Z.eqb negb]. unfold Sys.bind, Sys.ret.
    eexists. split; [reflexivity|]. reflexivity.
Qed.

Lemma gc_config_unparsed_unreachable_witness :
  gc_config (values_config reflog_never_unreachable_bogus)
    default_gc_statics default_gc_state []
  = (Sys.Die "failed to parse 'gc.reflogexpireunreachable' value 'bogus'",
     []).
Proof.
  destruct (gc_config_unparsed_unreachable
              (values_config reflog_never_unreachable_bogus)
              default_gc_statics default_gc_state [] "bogus"
              eq_refl eq_refl) as [D _].
  apply D. exists "never". split; reflexivity.
Defined.

(** ** cmd_gc: the ways it ends *)

Lemma run_or_die_ends sys o argv :
  triple (fun _ => True) (run_or_die sys argv) (fun _ _ => True)
    (fun out _ =>
       gc_failure o out \/ exists cmd, out = Sys.Die (FAILED_RUN cmd)).
Proof.
  intros h _.
  unfold run_or_die, Sys.bind, Sys.run_command_v_opt, Sys.run_command.
  destruct (negb (Sys.child_status sys h argv =? 0)); [|exact Logic.I].
  unfold Sys.die. cbn [forget]. right. eexists. reflexivity.
Qed.

(** X26. A run of [cmd_gc] ends in one of these ways only: it returns 0;
    it exits with 128 because gc.log could not be examined; it dies
    because a lock file could not be taken, because the prune expiry does
    not parse, or with "failed to run <command>"; or, without --auto only,
    it dies because another gc holds the lock.  With --auto a held lock is
    never an error. *)
Theorem cmd_gc_ends sys cfg world o c st :
  let out := fst (cmd_gc_after_options sys cfg world o c st []) in
  out = Sys.Ret 0 \/ gc_failure o out \/
  exists cmd, out = Sys.Die (FAILED_RUN cmd).
Proof.
  cbv zeta.
  pose proof (cmd_gc_after_options_keeps_all sys cfg world o c st
                (fun _ => True)
                (fun out _ =>
                   gc_failure o out \/
                   exists cmd, out = Sys.Die (FAILED_RUN cmd))
                (fun _ _ _ _ => Logic.I)
                (fun _ _ G _ => or_introl G)
                (fun _ => run_or_die_ends sys o _)
                (fun _ => run_or_die_ends sys o _)
                (fun _ _ =>
                   triple_close_run _ _ _ sys _ (fun _ _ => Logic.I)
                     (run_or_die_ends sys o _))
                (fun _ _ _ _ => run_or_die_ends sys o _)
                (fun _ => run_or_die_ends sys o _)
                (run_or_die_ends sys o _)
                [] Logic.I) as T.
  destruct (cmd_gc_after_options sys cfg world o c st [])
    as [[a|text|status|callee] h']; cbn [fst forget] in *.
  - left. destruct T as [-> _]. reflexivity.
  - right. destruct T as [G|(cmd & E)].
    + left. unfold gc_failure in *.
      destruct G as [G|[G|[(e & G)|(Ha & name & pid & G)]]];
        try discriminate G; inversion G; subst.
      * right. right. left. exists e. reflexivity.
      * right. right. right. split; [exact Ha|]. exists name, pid.
        reflexivity.
    + right. exists cmd. inversion E. reflexivity.
  - right. left. unfold gc_failure in *.
    destruct T as [G|(cmd & E)]; [|discriminate E].
    destruct G as [G|[G|[(e & G)|(Ha & name & pid & G)]]];
      try discriminate G. inversion G. right. left. reflexivity.
  - right. left. unfold gc_failure in *.
    destruct T as [G|(cmd & E)]; [|discriminate E].
    destruct G as [G|[G|[(e & G)|(Ha & name & pid & G)]]];
      try discriminate G. inversion G. left. reflexivity.
Qed.
